(** * cache-store: the cache engine of [src/cache/create-cache.ts]

    A shallow embedding of the engine built by [createCache]: the in-memory
    mirror, lazy TTL expiry, the key-list caches behind [keys], the
    notification queue behind [batch], readiness, and the in-flight table of
    [getOrSetAsync].

    Conventions of the embedding.
    - The closure variables of [createCache] are the fields of [State];
      every closure of the source is a function on [State].
    - A JavaScript [Map] or [Set] iterates in insertion order.  A [Map] is an
      association list with unique keys ([JsMap]); a [Set] is a
      duplicate-free list ([JsSet]).
    - Numbers are integers ([Z]): timestamps are [Date.now()] values and
      [ttlMs] is a duration in milliseconds.  [NaN] and the infinities are
      outside the model.
    - [now()] is an argument of every operation: one synchronous operation
      runs at one instant.
    - The driver is best effort and its promises are ignored by the engine, so
      a driver call is an entry appended to [driverCalls].
    - Listener callbacks are opaque: a call of a listener is an entry
      appended to [trace]; a listener does not re-enter the store. *)

From Stdlib Require Import ZArith String List Bool Lia.
From stdpp Require Import list.
Import ListNotations.

Local Open Scope string_scope.
Local Open Scope Z_scope.
Local Open Scope list_scope.

(** ** Values and entries ([src/cache/types.ts]) *)

Abbreviation CacheKey := string.

(** A stored value is any JavaScript value; [undefined] is one of them. *)
Inductive JsValue :=
| VUndefined
| VNull
| VBool (b : bool)
| VNum (n : Z)
| VStr (s : string).

Definition isUndefined (v : JsValue) : bool :=
  match v with VUndefined => true | _ => false end.

Record CacheEntry := mkEntry {
  value : JsValue;
  createdAt : Z;
  ttlMs : option Z
}.

(** [key.startsWith(prefix)] *)
Definition startsWith (key prefix : string) : bool := String.prefix prefix key.

(** Truthiness of an optional string argument: [undefined] and the empty
    string are falsy. *)
Definition truthy (prefix : option string) : bool :=
  match prefix with
  | None => false
  | Some p => negb (String.eqb p "")
  end.

(** The test [prefix && !k.startsWith(prefix)] of [computeKeysForPrefix],
    negated: the key is in the scope of the listing. *)
Definition inScope (prefix : option string) (k : CacheKey) : bool :=
  match prefix with
  | None => true
  | Some p => if String.eqb p "" then true else startsWith k p
  end.

(** ** TTL policy ([ttl.ts]) *)

Module Ttl.

(** [isAlive(e)]: [!e] is false for an entry object; [!e.ttlMs] holds for
    [undefined] and for [0]. *)
Definition isAlive (now : Z) (e : option CacheEntry) : bool :=
  match e with
  | None => false
  | Some e =>
      match ttlMs e with
      | None => true
      | Some t => if t =? 0 then true else now - createdAt e <? t
      end
  end.

End Ttl.

(** ** Insertion-ordered maps and sets *)

Module JsMap.
Section Ops.
Context {V : Type}.

Fixpoint get (k : string) (m : list (string * V)) : option V :=
  match m with
  | [] => None
  | (k', v) :: r => if String.eqb k' k then Some v else get k r
  end.

(** [m.set(k, v)]: an existing key keeps its position. *)
Fixpoint set (k : string) (v : V) (m : list (string * V)) : list (string * V) :=
  match m with
  | [] => [(k, v)]
  | (k', v') :: r =>
      if String.eqb k' k then (k', v) :: r else (k', v') :: set k v r
  end.

Definition delete (k : string) (m : list (string * V)) : list (string * V) :=
  List.filter (fun kv => negb (String.eqb (fst kv) k)) m.

Definition has (k : string) (m : list (string * V)) : bool :=
  match get k m with Some _ => true | None => false end.

Definition keysOf (m : list (string * V)) : list string := List.map fst m.

(** [for (const k of ks) m.delete(k)] *)
Definition deleteAll (ks : list string) (m : list (string * V)) : list (string * V) :=
  fold_left (fun acc k => delete k acc) ks m.
End Ops.
End JsMap.

Module JsSet.
Section Ops.
Context {A : Type} (eqb : A -> A -> bool).

Definition mem (x : A) (s : list A) : bool := existsb (eqb x) s.

(** [s.add(x)]: a member keeps its position. *)
Definition add (x : A) (s : list A) : list A :=
  if mem x s then s else s ++ [x].

Definition delete (x : A) (s : list A) : list A :=
  List.filter (fun y => negb (eqb x y)) s.
End Ops.
End JsSet.

(** ** The state of one cache instance *)

Definition Listener := nat.
Definition Fetcher := nat.
Definition PromiseId := nat.

Module KeyListCache.
Record t := mk { keys : list CacheKey; valid : bool }.
End KeyListCache.

(** Which optional methods the driver object has. *)
Record CacheDriver := {
  getMany : bool;
  removeMany : bool;
  clearPrefix : bool
}.

Record CreateCacheOptions := {
  opt_driver : CacheDriver;
  opt_hydrate : option bool;
  opt_cleanupExpiredOnHydrate : option bool
}.

(** A call the engine makes on the driver; its promise is ignored. *)
Inductive DriverCall :=
| DriverSet (k : CacheKey) (e : CacheEntry)
| DriverRemove (k : CacheKey)
| DriverRemoveMany (ks : list CacheKey)
| DriverClearPrefix (p : string).

(** What the listeners see.  [Notify k] marks one run of [emitNow(k)] and
    [NotifyReady] one run of [emitReadyNow]; [Call cb arg] is one call of a
    listener. *)
Inductive Event :=
| Notify (k : CacheKey)
| NotifyReady
| Call (cb : Listener) (arg : option CacheKey).

Inductive Settlement :=
| Fulfilled (v : JsValue)
| Rejected (err : JsValue).

(** The async function started by [getOrSetAsync], parked at
    [await fetcher()]: its promise [p], and the [key] and [opts?.ttlMs] it
    closes over. *)
Record FetchTask := {
  taskPromise : PromiseId;
  taskKey : CacheKey;
  taskTtl : option Z
}.

(** The closure variables of [createCache], then the environment the model
    adds: [hydrating] (the hydration function is parked at an [await]),
    the promises made by [getOrSetAsync] ([nextPromise], [awaiting],
    [settled]), and the logs [fetcherCalls], [driverCalls] and [trace]. *)
Record State := {
  driver : CacheDriver;
  cleanupExpiredOnHydrate : bool;
  mirror : list (CacheKey * CacheEntry);
  keyListeners : list (CacheKey * list Listener);
  prefixListeners : list (string * list Listener);
  allListeners : list Listener;
  readyListeners : list Listener;
  batchDepth : nat;
  pendingKeys : list CacheKey;
  pendingReadyEmit : bool;
  ready : bool;
  readyP : option Settlement;
  inFlight : list (CacheKey * PromiseId);
  allKeysCache : KeyListCache.t;
  prefixKeysCache : list (string * KeyListCache.t);
  hydrating : bool;
  nextPromise : PromiseId;
  awaiting : list FetchTask;
  settled : list (PromiseId * Settlement);
  fetcherCalls : list Fetcher;
  driverCalls : list DriverCall;
  trace : list Event
}.

Definition with_mirror (x : list (CacheKey * CacheEntry)) (st : State) : State :=
  {| driver := driver st; cleanupExpiredOnHydrate := cleanupExpiredOnHydrate
     st; mirror := x; keyListeners := keyListeners st; prefixListeners :=
     prefixListeners st; allListeners := allListeners st; readyListeners :=
     readyListeners st; batchDepth := batchDepth st; pendingKeys :=
     pendingKeys st; pendingReadyEmit := pendingReadyEmit st; ready := ready
     st; readyP := readyP st; inFlight := inFlight st; allKeysCache :=
     allKeysCache st; prefixKeysCache := prefixKeysCache st; hydrating :=
     hydrating st; nextPromise := nextPromise st; awaiting := awaiting st;
     settled := settled st; fetcherCalls := fetcherCalls st; driverCalls :=
     driverCalls st; trace := trace st |}.

Definition with_keyListeners (x : list (CacheKey * list Listener)) (st : State) : State :=
  {| driver := driver st; cleanupExpiredOnHydrate := cleanupExpiredOnHydrate
     st; mirror := mirror st; keyListeners := x; prefixListeners :=
     prefixListeners st; allListeners := allListeners st; readyListeners :=
     readyListeners st; batchDepth := batchDepth st; pendingKeys :=
     pendingKeys st; pendingReadyEmit := pendingReadyEmit st; ready := ready
     st; readyP := readyP st; inFlight := inFlight st; allKeysCache :=
     allKeysCache st; prefixKeysCache := prefixKeysCache st; hydrating :=
     hydrating st; nextPromise := nextPromise st; awaiting := awaiting st;
     settled := settled st; fetcherCalls := fetcherCalls st; driverCalls :=
     driverCalls st; trace := trace st |}.

Definition with_prefixListeners (x : list (string * list Listener)) (st : State) : State :=
  {| driver := driver st; cleanupExpiredOnHydrate := cleanupExpiredOnHydrate
     st; mirror := mirror st; keyListeners := keyListeners st; prefixListeners
     := x; allListeners := allListeners st; readyListeners := readyListeners
     st; batchDepth := batchDepth st; pendingKeys := pendingKeys st;
     pendingReadyEmit := pendingReadyEmit st; ready := ready st; readyP :=
     readyP st; inFlight := inFlight st; allKeysCache := allKeysCache st;
     prefixKeysCache := prefixKeysCache st; hydrating := hydrating st;
     nextPromise := nextPromise st; awaiting := awaiting st; settled :=
     settled st; fetcherCalls := fetcherCalls st; driverCalls := driverCalls
     st; trace := trace st |}.

Definition with_allListeners (x : list Listener) (st : State) : State :=
  {| driver := driver st; cleanupExpiredOnHydrate := cleanupExpiredOnHydrate
     st; mirror := mirror st; keyListeners := keyListeners st; prefixListeners
     := prefixListeners st; allListeners := x; readyListeners :=
     readyListeners st; batchDepth := batchDepth st; pendingKeys :=
     pendingKeys st; pendingReadyEmit := pendingReadyEmit st; ready := ready
     st; readyP := readyP st; inFlight := inFlight st; allKeysCache :=
     allKeysCache st; prefixKeysCache := prefixKeysCache st; hydrating :=
     hydrating st; nextPromise := nextPromise st; awaiting := awaiting st;
     settled := settled st; fetcherCalls := fetcherCalls st; driverCalls :=
     driverCalls st; trace := trace st |}.

Definition with_readyListeners (x : list Listener) (st : State) : State :=
  {| driver := driver st; cleanupExpiredOnHydrate := cleanupExpiredOnHydrate
     st; mirror := mirror st; keyListeners := keyListeners st; prefixListeners
     := prefixListeners st; allListeners := allListeners st; readyListeners :=
     x; batchDepth := batchDepth st; pendingKeys := pendingKeys st;
     pendingReadyEmit := pendingReadyEmit st; ready := ready st; readyP :=
     readyP st; inFlight := inFlight st; allKeysCache := allKeysCache st;
     prefixKeysCache := prefixKeysCache st; hydrating := hydrating st;
     nextPromise := nextPromise st; awaiting := awaiting st; settled :=
     settled st; fetcherCalls := fetcherCalls st; driverCalls := driverCalls
     st; trace := trace st |}.

Definition with_batchDepth (x : nat) (st : State) : State :=
  {| driver := driver st; cleanupExpiredOnHydrate := cleanupExpiredOnHydrate
     st; mirror := mirror st; keyListeners := keyListeners st; prefixListeners
     := prefixListeners st; allListeners := allListeners st; readyListeners :=
     readyListeners st; batchDepth := x; pendingKeys := pendingKeys st;
     pendingReadyEmit := pendingReadyEmit st; ready := ready st; readyP :=
     readyP st; inFlight := inFlight st; allKeysCache := allKeysCache st;
     prefixKeysCache := prefixKeysCache st; hydrating := hydrating st;
     nextPromise := nextPromise st; awaiting := awaiting st; settled :=
     settled st; fetcherCalls := fetcherCalls st; driverCalls := driverCalls
     st; trace := trace st |}.

Definition with_pendingKeys (x : list CacheKey) (st : State) : State :=
  {| driver := driver st; cleanupExpiredOnHydrate := cleanupExpiredOnHydrate
     st; mirror := mirror st; keyListeners := keyListeners st; prefixListeners
     := prefixListeners st; allListeners := allListeners st; readyListeners :=
     readyListeners st; batchDepth := batchDepth st; pendingKeys := x;
     pendingReadyEmit := pendingReadyEmit st; ready := ready st; readyP :=
     readyP st; inFlight := inFlight st; allKeysCache := allKeysCache st;
     prefixKeysCache := prefixKeysCache st; hydrating := hydrating st;
     nextPromise := nextPromise st; awaiting := awaiting st; settled :=
     settled st; fetcherCalls := fetcherCalls st; driverCalls := driverCalls
     st; trace := trace st |}.

Definition with_pendingReadyEmit (x : bool) (st : State) : State :=
  {| driver := driver st; cleanupExpiredOnHydrate := cleanupExpiredOnHydrate
     st; mirror := mirror st; keyListeners := keyListeners st; prefixListeners
     := prefixListeners st; allListeners := allListeners st; readyListeners :=
     readyListeners st; batchDepth := batchDepth st; pendingKeys :=
     pendingKeys st; pendingReadyEmit := x; ready := ready st; readyP :=
     readyP st; inFlight := inFlight st; allKeysCache := allKeysCache st;
     prefixKeysCache := prefixKeysCache st; hydrating := hydrating st;
     nextPromise := nextPromise st; awaiting := awaiting st; settled :=
     settled st; fetcherCalls := fetcherCalls st; driverCalls := driverCalls
     st; trace := trace st |}.

Definition with_ready (x : bool) (st : State) : State :=
  {| driver := driver st; cleanupExpiredOnHydrate := cleanupExpiredOnHydrate
     st; mirror := mirror st; keyListeners := keyListeners st; prefixListeners
     := prefixListeners st; allListeners := allListeners st; readyListeners :=
     readyListeners st; batchDepth := batchDepth st; pendingKeys :=
     pendingKeys st; pendingReadyEmit := pendingReadyEmit st; ready := x;
     readyP := readyP st; inFlight := inFlight st; allKeysCache :=
     allKeysCache st; prefixKeysCache := prefixKeysCache st; hydrating :=
     hydrating st; nextPromise := nextPromise st; awaiting := awaiting st;
     settled := settled st; fetcherCalls := fetcherCalls st; driverCalls :=
     driverCalls st; trace := trace st |}.

Definition with_readyP (x : option Settlement) (st : State) : State :=
  {| driver := driver st; cleanupExpiredOnHydrate := cleanupExpiredOnHydrate
     st; mirror := mirror st; keyListeners := keyListeners st; prefixListeners
     := prefixListeners st; allListeners := allListeners st; readyListeners :=
     readyListeners st; batchDepth := batchDepth st; pendingKeys :=
     pendingKeys st; pendingReadyEmit := pendingReadyEmit st; ready := ready
     st; readyP := x; inFlight := inFlight st; allKeysCache := allKeysCache
     st; prefixKeysCache := prefixKeysCache st; hydrating := hydrating st;
     nextPromise := nextPromise st; awaiting := awaiting st; settled :=
     settled st; fetcherCalls := fetcherCalls st; driverCalls := driverCalls
     st; trace := trace st |}.

Definition with_inFlight (x : list (CacheKey * PromiseId)) (st : State) : State :=
  {| driver := driver st; cleanupExpiredOnHydrate := cleanupExpiredOnHydrate
     st; mirror := mirror st; keyListeners := keyListeners st; prefixListeners
     := prefixListeners st; allListeners := allListeners st; readyListeners :=
     readyListeners st; batchDepth := batchDepth st; pendingKeys :=
     pendingKeys st; pendingReadyEmit := pendingReadyEmit st; ready := ready
     st; readyP := readyP st; inFlight := x; allKeysCache := allKeysCache st;
     prefixKeysCache := prefixKeysCache st; hydrating := hydrating st;
     nextPromise := nextPromise st; awaiting := awaiting st; settled :=
     settled st; fetcherCalls := fetcherCalls st; driverCalls := driverCalls
     st; trace := trace st |}.

Definition with_allKeysCache (x : KeyListCache.t) (st : State) : State :=
  {| driver := driver st; cleanupExpiredOnHydrate := cleanupExpiredOnHydrate
     st; mirror := mirror st; keyListeners := keyListeners st; prefixListeners
     := prefixListeners st; allListeners := allListeners st; readyListeners :=
     readyListeners st; batchDepth := batchDepth st; pendingKeys :=
     pendingKeys st; pendingReadyEmit := pendingReadyEmit st; ready := ready
     st; readyP := readyP st; inFlight := inFlight st; allKeysCache := x;
     prefixKeysCache := prefixKeysCache st; hydrating := hydrating st;
     nextPromise := nextPromise st; awaiting := awaiting st; settled :=
     settled st; fetcherCalls := fetcherCalls st; driverCalls := driverCalls
     st; trace := trace st |}.

Definition with_prefixKeysCache (x : list (string * KeyListCache.t)) (st : State) : State :=
  {| driver := driver st; cleanupExpiredOnHydrate := cleanupExpiredOnHydrate
     st; mirror := mirror st; keyListeners := keyListeners st; prefixListeners
     := prefixListeners st; allListeners := allListeners st; readyListeners :=
     readyListeners st; batchDepth := batchDepth st; pendingKeys :=
     pendingKeys st; pendingReadyEmit := pendingReadyEmit st; ready := ready
     st; readyP := readyP st; inFlight := inFlight st; allKeysCache :=
     allKeysCache st; prefixKeysCache := x; hydrating := hydrating st;
     nextPromise := nextPromise st; awaiting := awaiting st; settled :=
     settled st; fetcherCalls := fetcherCalls st; driverCalls := driverCalls
     st; trace := trace st |}.

Definition with_hydrating (x : bool) (st : State) : State :=
  {| driver := driver st; cleanupExpiredOnHydrate := cleanupExpiredOnHydrate
     st; mirror := mirror st; keyListeners := keyListeners st; prefixListeners
     := prefixListeners st; allListeners := allListeners st; readyListeners :=
     readyListeners st; batchDepth := batchDepth st; pendingKeys :=
     pendingKeys st; pendingReadyEmit := pendingReadyEmit st; ready := ready
     st; readyP := readyP st; inFlight := inFlight st; allKeysCache :=
     allKeysCache st; prefixKeysCache := prefixKeysCache st; hydrating := x;
     nextPromise := nextPromise st; awaiting := awaiting st; settled :=
     settled st; fetcherCalls := fetcherCalls st; driverCalls := driverCalls
     st; trace := trace st |}.

Definition with_nextPromise (x : PromiseId) (st : State) : State :=
  {| driver := driver st; cleanupExpiredOnHydrate := cleanupExpiredOnHydrate
     st; mirror := mirror st; keyListeners := keyListeners st; prefixListeners
     := prefixListeners st; allListeners := allListeners st; readyListeners :=
     readyListeners st; batchDepth := batchDepth st; pendingKeys :=
     pendingKeys st; pendingReadyEmit := pendingReadyEmit st; ready := ready
     st; readyP := readyP st; inFlight := inFlight st; allKeysCache :=
     allKeysCache st; prefixKeysCache := prefixKeysCache st; hydrating :=
     hydrating st; nextPromise := x; awaiting := awaiting st; settled :=
     settled st; fetcherCalls := fetcherCalls st; driverCalls := driverCalls
     st; trace := trace st |}.

Definition with_awaiting (x : list FetchTask) (st : State) : State :=
  {| driver := driver st; cleanupExpiredOnHydrate := cleanupExpiredOnHydrate
     st; mirror := mirror st; keyListeners := keyListeners st; prefixListeners
     := prefixListeners st; allListeners := allListeners st; readyListeners :=
     readyListeners st; batchDepth := batchDepth st; pendingKeys :=
     pendingKeys st; pendingReadyEmit := pendingReadyEmit st; ready := ready
     st; readyP := readyP st; inFlight := inFlight st; allKeysCache :=
     allKeysCache st; prefixKeysCache := prefixKeysCache st; hydrating :=
     hydrating st; nextPromise := nextPromise st; awaiting := x; settled :=
     settled st; fetcherCalls := fetcherCalls st; driverCalls := driverCalls
     st; trace := trace st |}.

Definition with_settled (x : list (PromiseId * Settlement)) (st : State) : State :=
  {| driver := driver st; cleanupExpiredOnHydrate := cleanupExpiredOnHydrate
     st; mirror := mirror st; keyListeners := keyListeners st; prefixListeners
     := prefixListeners st; allListeners := allListeners st; readyListeners :=
     readyListeners st; batchDepth := batchDepth st; pendingKeys :=
     pendingKeys st; pendingReadyEmit := pendingReadyEmit st; ready := ready
     st; readyP := readyP st; inFlight := inFlight st; allKeysCache :=
     allKeysCache st; prefixKeysCache := prefixKeysCache st; hydrating :=
     hydrating st; nextPromise := nextPromise st; awaiting := awaiting st;
     settled := x; fetcherCalls := fetcherCalls st; driverCalls := driverCalls
     st; trace := trace st |}.

Definition with_fetcherCalls (x : list Fetcher) (st : State) : State :=
  {| driver := driver st; cleanupExpiredOnHydrate := cleanupExpiredOnHydrate
     st; mirror := mirror st; keyListeners := keyListeners st; prefixListeners
     := prefixListeners st; allListeners := allListeners st; readyListeners :=
     readyListeners st; batchDepth := batchDepth st; pendingKeys :=
     pendingKeys st; pendingReadyEmit := pendingReadyEmit st; ready := ready
     st; readyP := readyP st; inFlight := inFlight st; allKeysCache :=
     allKeysCache st; prefixKeysCache := prefixKeysCache st; hydrating :=
     hydrating st; nextPromise := nextPromise st; awaiting := awaiting st;
     settled := settled st; fetcherCalls := x; driverCalls := driverCalls st;
     trace := trace st |}.

Definition with_driverCalls (x : list DriverCall) (st : State) : State :=
  {| driver := driver st; cleanupExpiredOnHydrate := cleanupExpiredOnHydrate
     st; mirror := mirror st; keyListeners := keyListeners st; prefixListeners
     := prefixListeners st; allListeners := allListeners st; readyListeners :=
     readyListeners st; batchDepth := batchDepth st; pendingKeys :=
     pendingKeys st; pendingReadyEmit := pendingReadyEmit st; ready := ready
     st; readyP := readyP st; inFlight := inFlight st; allKeysCache :=
     allKeysCache st; prefixKeysCache := prefixKeysCache st; hydrating :=
     hydrating st; nextPromise := nextPromise st; awaiting := awaiting st;
     settled := settled st; fetcherCalls := fetcherCalls st; driverCalls := x;
     trace := trace st |}.

Definition with_trace (x : list Event) (st : State) : State :=
  {| driver := driver st; cleanupExpiredOnHydrate := cleanupExpiredOnHydrate
     st; mirror := mirror st; keyListeners := keyListeners st; prefixListeners
     := prefixListeners st; allListeners := allListeners st; readyListeners :=
     readyListeners st; batchDepth := batchDepth st; pendingKeys :=
     pendingKeys st; pendingReadyEmit := pendingReadyEmit st; ready := ready
     st; readyP := readyP st; inFlight := inFlight st; allKeysCache :=
     allKeysCache st; prefixKeysCache := prefixKeysCache st; hydrating :=
     hydrating st; nextPromise := nextPromise st; awaiting := awaiting st;
     settled := settled st; fetcherCalls := fetcherCalls st; driverCalls :=
     driverCalls st; trace := x |}.

(** ** Closures of [createCache] *)

Definition makeEntry (now : Z) (v : JsValue) (ttl : option Z) : CacheEntry :=
  {| value := v; createdAt := now; ttlMs := ttl |}.

Definition invalidate (c : KeyListCache.t) : KeyListCache.t :=
  KeyListCache.mk (KeyListCache.keys c) false.

Definition invalidateAllKeysCache (st : State) : State :=
  with_allKeysCache (invalidate (allKeysCache st)) st.

(** Any cached prefix that matches this key becomes invalid. *)
Definition invalidatePrefixCachesForKey (key : CacheKey) (st : State) : State :=
  with_prefixKeysCache
    (List.map (fun pc => if startsWith key (fst pc)
                         then (fst pc, invalidate (snd pc)) else pc)
              (prefixKeysCache st)) st.

Definition invalidatePrefixCache (prefix : string) (st : State) : State :=
  match JsMap.get prefix (prefixKeysCache st) with
  | Some c => with_prefixKeysCache
                (JsMap.set prefix (invalidate c) (prefixKeysCache st)) st
  | None => st
  end.

Definition invalidateKeyCachesForMutation (key : CacheKey) (st : State) : State :=
  invalidatePrefixCachesForKey key (invalidateAllKeysCache st).

(** The listener calls of [emitNow(key)], in the order of the source: key
    listeners (no argument), prefix listeners of every matching prefix, then
    the global listeners (both receive the key). *)
Definition listenerCalls (key : CacheKey) (st : State) : list Event :=
  List.map (fun cb => Call cb None)
           (match JsMap.get key (keyListeners st) with Some ls => ls | None => [] end)
  ++ List.concat
       (List.map (fun ps => if startsWith key (fst ps)
                            then List.map (fun cb => Call cb (Some key)) (snd ps)
                            else [])
                 (prefixListeners st))
  ++ List.map (fun cb => Call cb (Some key)) (allListeners st).

Definition emitNow (key : CacheKey) (st : State) : State :=
  with_trace (trace st ++ Notify key :: listenerCalls key st) st.

Definition emitReadyNow (st : State) : State :=
  with_trace (trace st ++ NotifyReady
                :: List.map (fun cb => Call cb None) (readyListeners st)) st.

Definition queueEmitKey (key : CacheKey) (st : State) : State :=
  if (0 <? batchDepth st)%nat
  then with_pendingKeys (JsSet.add String.eqb key (pendingKeys st)) st
  else emitNow key st.

Definition queueEmitReady (st : State) : State :=
  if (0 <? batchDepth st)%nat
  then with_pendingReadyEmit true st
  else emitReadyNow st.

Definition driverCall (c : DriverCall) (st : State) : State :=
  with_driverCalls (driverCalls st ++ [c]) st.

(** Auto TTL prune does not emit; it just removes. *)
Definition dropKey (key : CacheKey) (st : State) : State :=
  invalidateKeyCachesForMutation key
    (driverCall (DriverRemove key)
       (with_mirror (JsMap.delete key (mirror st)) st)).

Definition pruneIfDead (now : Z) (key : CacheKey) (e : option CacheEntry)
    (st : State) : bool * State :=
  match e with
  | None => (true, st)
  | Some _ => if Ttl.isAlive now e then (false, st) else (true, dropKey key st)
  end.

(** [entry] is [None] for the [null] that [remove] passes.  The test
    [entry.ttlMs !== undefined && entry.ttlMs <= 0] is [nonPositiveTtl]. *)
Definition nonPositiveTtl (e : CacheEntry) : bool :=
  match ttlMs e with
  | None => false
  | Some t => t <=? 0
  end.

Definition setInternal (key : CacheKey) (entry : option CacheEntry)
    (st : State) : State :=
  match entry with
  | None =>
      let st1 := with_mirror (JsMap.delete key (mirror st)) st in
      let st2 := driverCall (DriverRemove key) st1 in
      let st3 := invalidateKeyCachesForMutation key st2 in
      queueEmitKey key st3
  | Some e =>
      if nonPositiveTtl e then
        let st1 := with_mirror (JsMap.delete key (mirror st)) st in
        let st2 := driverCall (DriverRemove key) st1 in
        let st3 := invalidateKeyCachesForMutation key st2 in
        queueEmitKey key st3
      else
        let st1 := with_mirror (JsMap.set key e (mirror st)) st in
        let st2 := driverCall (DriverSet key e) st1 in
        let st3 := invalidateKeyCachesForMutation key st2 in
        queueEmitKey key st3
  end.

Definition getEntry (now : Z) (key : CacheKey) (st : State)
    : option CacheEntry * State :=
  match JsMap.get key (mirror st) with
  | None => (None, st)
  | Some e =>
      let (dead, st') := pruneIfDead now key (Some e) st in
      if dead then (None, st') else (Some e, st')
  end.

(** *** Key lists *)

(** The loop of [pruneListInPlace]: [n] iterations are left, [read] and
    [write] are the two indices, [arr] is the array [list] being compacted.
    [list[write++] = k] is an in-range write because [write <= read]. *)
Fixpoint pruneLoop (now : Z) (n read write : nat) (arr : list CacheKey)
    (st : State) : list CacheKey * nat * State :=
  match n with
  | O => (arr, write, st)
  | S n' =>
      match arr !! read with
      | None => (arr, write, st)
      | Some k =>
          match JsMap.get k (mirror st) with
          | None =>
              pruneLoop now n' (S read) write arr
                        (invalidateKeyCachesForMutation k st)
          | Some e =>
              if Ttl.isAlive now (Some e)
              then pruneLoop now n' (S read) (S write) (<[write:=k]> arr) st
              else pruneLoop now n' (S read) write arr (dropKey k st)
          end
      end
  end.

(** Remove dead keys from a cached list by scanning the list only; the
    result is the array after [list.length = write]. *)
Definition pruneListInPlace (now : Z) (arr : list CacheKey) (st : State)
    : list CacheKey * State :=
  let '(l, write, st') := pruneLoop now (length arr) 0 0 arr st in
  (if (write =? length l)%nat then l else take write l, st').

(** The loop of [computeKeysForPrefix] over the snapshot
    [Array.from(mirror.entries())]. *)
Fixpoint computeLoop (now : Z) (prefix : option string)
    (entries : list (CacheKey * CacheEntry)) (out : list CacheKey)
    (st : State) : list CacheKey * State :=
  match entries with
  | [] => (out, st)
  | (k, e) :: rest =>
      if negb (inScope prefix k) then computeLoop now prefix rest out st
      else if negb (Ttl.isAlive now (Some e))
           then computeLoop now prefix rest out (dropKey k st)
           else computeLoop now prefix rest (out ++ [k]) st
  end.

Definition computeKeysForPrefix (now : Z) (prefix : option string)
    (st : State) : list CacheKey * State :=
  computeLoop now prefix (mirror st) [] st.

Definition cacheValid (prefix : string) (st : State) : bool :=
  match JsMap.get prefix (prefixKeysCache st) with
  | Some c => KeyListCache.valid c
  | None => false
  end.

(** [getCachedKeys] when [!prefix]: the list lives in [allKeysCache]. *)
Definition getCachedAllKeys (now : Z) (st : State) : list CacheKey * State :=
  if negb (KeyListCache.valid (allKeysCache st)) then
    let (ks, st1) := computeKeysForPrefix now None st in
    (ks, with_allKeysCache (KeyListCache.mk ks true) st1)
  else
    let (ks, st1) := pruneListInPlace now (KeyListCache.keys (allKeysCache st)) st in
    (ks, with_allKeysCache
           (KeyListCache.mk ks (KeyListCache.valid (allKeysCache st1))) st1).

(** [getCachedKeys] for a truthy prefix: the list lives in the record [c] of
    [prefixKeysCache], made on first use.  [dropKey] only writes the [valid]
    flag of [c]; the array of [c] is written by this function alone. *)
Definition getCachedPrefixKeys (now : Z) (prefix : string) (st : State)
    : list CacheKey * State :=
  let st0 :=
    match JsMap.get prefix (prefixKeysCache st) with
    | Some _ => st
    | None => with_prefixKeysCache
                (JsMap.set prefix (KeyListCache.mk [] false) (prefixKeysCache st)) st
    end in
  let c := match JsMap.get prefix (prefixKeysCache st0) with
           | Some c => c
           | None => KeyListCache.mk [] false
           end in
  if negb (KeyListCache.valid c) then
    let (ks, st1) := computeKeysForPrefix now (Some prefix) st0 in
    (ks, with_prefixKeysCache
           (JsMap.set prefix (KeyListCache.mk ks true) (prefixKeysCache st1)) st1)
  else
    let (ks, st1) := pruneListInPlace now (KeyListCache.keys c) st0 in
    (ks, with_prefixKeysCache
           (JsMap.set prefix (KeyListCache.mk ks (cacheValid prefix st1))
                      (prefixKeysCache st1)) st1).

Definition getCachedKeys (now : Z) (prefix : option string) (st : State)
    : list CacheKey * State :=
  match prefix with
  | None => getCachedAllKeys now st
  | Some p => if String.eqb p "" then getCachedAllKeys now st
              else getCachedPrefixKeys now p st
  end.

(** ** The store object *)

Module Store.

Definition get (now : Z) (key : CacheKey) (st : State) : JsValue * State :=
  let (e, st') := getEntry now key st in
  (match e with Some e => value e | None => VUndefined end, st').

Definition has (now : Z) (key : CacheKey) (st : State) : bool * State :=
  let (e, st') := getEntry now key st in
  (match e with Some _ => true | None => false end, st').

Definition set (now : Z) (key : CacheKey) (v : JsValue) (ttl : option Z)
    (st : State) : State :=
  setInternal key (Some (makeEntry now v ttl)) st.

Definition remove (key : CacheKey) (st : State) : State :=
  setInternal key None st.

Definition keys (now : Z) (prefix : option string) (st : State)
    : list CacheKey * State :=
  getCachedKeys now prefix st.

Definition invalidateEveryPrefixCache (st : State) : State :=
  with_prefixKeysCache
    (List.map (fun pc => (fst pc, invalidate (snd pc))) (prefixKeysCache st)) st.

(** [ks.forEach((k) => driver.remove(k))] *)
Definition driverRemoveEach (ks : list CacheKey) (st : State) : State :=
  fold_left (fun s k => driverCall (DriverRemove k) s) ks st.

Definition queueEmitKeys (ks : list CacheKey) (st : State) : State :=
  fold_left (fun s k => queueEmitKey k s) ks st.

Definition clear (now : Z) (prefix : option string) (st : State) : State :=
  match (if truthy prefix then prefix else None) with
  | None =>
      let (ks, st1) := keys now None st in
      let st2 := if removeMany (driver st1)
                 then driverCall (DriverRemoveMany ks) st1
                 else driverRemoveEach ks st1 in
      let st3 := with_mirror (JsMap.deleteAll ks (mirror st2)) st2 in
      let st4 := invalidateAllKeysCache st3 in
      let st5 := invalidateEveryPrefixCache st4 in
      queueEmitKeys ks st5
  | Some p =>
      let (ks, st1) := keys now (Some p) st in
      let st2 := with_mirror (JsMap.deleteAll ks (mirror st1)) st1 in
      let st3 := if clearPrefix (driver st2)
                 then driverCall (DriverClearPrefix p) st2
                 else if removeMany (driver st2)
                      then driverCall (DriverRemoveMany ks) st2
                      else driverRemoveEach ks st2 in
      let st4 := invalidateAllKeysCache st3 in
      let st5 := invalidatePrefixCache p st4 in
      let st6 := fold_left (fun s k => invalidatePrefixCachesForKey k s) ks st5 in
      queueEmitKeys ks st6
  end.

(** [ttl = None] is an omitted or [undefined] argument: the test of the
    source is [ttlMs === undefined]. *)
Definition touch (now : Z) (key : CacheKey) (ttl : option Z) (st : State)
    : State :=
  let (e, st1) := getEntry now key st in
  match e with
  | None => st1
  | Some e =>
      let ne := {| value := value e;
                   createdAt := now;
                   ttlMs := match ttl with None => ttlMs e | Some t => Some t end |} in
      setInternal key (Some ne) st1
  end.

Definition emit (key : CacheKey) (st : State) : State := queueEmitKey key st.

Definition isReady (st : State) : bool := ready st.

(** Always the same promise; its state is [readyP]. *)
Definition readyPromise (st : State) : option Settlement := readyP st.

Definition listenersOf (k : string) (m : list (string * list Listener))
    : list Listener :=
  match JsMap.get k m with Some s => s | None => [] end.

Definition subscribeKey (key : CacheKey) (cb : Listener) (st : State) : State :=
  with_keyListeners
    (JsMap.set key (JsSet.add Nat.eqb cb (listenersOf key (keyListeners st)))
               (keyListeners st)) st.

(** The function returned by [subscribeKey(key, cb)]. *)
Definition unsubscribeKey (key : CacheKey) (cb : Listener) (st : State) : State :=
  match JsMap.get key (keyListeners st) with
  | None => st
  | Some s =>
      match JsSet.delete Nat.eqb cb s with
      | [] => with_keyListeners (JsMap.delete key (keyListeners st)) st
      | s' => with_keyListeners (JsMap.set key s' (keyListeners st)) st
      end
  end.

Definition subscribePrefix (prefix : string) (cb : Listener) (st : State) : State :=
  with_prefixListeners
    (JsMap.set prefix
               (JsSet.add Nat.eqb cb (listenersOf prefix (prefixListeners st)))
               (prefixListeners st)) st.

Definition unsubscribePrefix (prefix : string) (cb : Listener) (st : State)
    : State :=
  match JsMap.get prefix (prefixListeners st) with
  | None => st
  | Some s =>
      match JsSet.delete Nat.eqb cb s with
      | [] => with_prefixListeners (JsMap.delete prefix (prefixListeners st)) st
      | s' => with_prefixListeners (JsMap.set prefix s' (prefixListeners st)) st
      end
  end.

Definition subscribeAll (cb : Listener) (st : State) : State :=
  with_allListeners (JsSet.add Nat.eqb cb (allListeners st)) st.

Definition unsubscribeAll (cb : Listener) (st : State) : State :=
  with_allListeners (JsSet.delete Nat.eqb cb (allListeners st)) st.

Definition subscribeReady (cb : Listener) (st : State) : State :=
  with_readyListeners (JsSet.add Nat.eqb cb (readyListeners st)) st.

Definition unsubscribeReady (cb : Listener) (st : State) : State :=
  with_readyListeners (JsSet.delete Nat.eqb cb (readyListeners st)) st.

End Store.

(** ** Caller code

    A synchronous piece of caller code, such as the function passed to
    [batch], is the tree of the store calls it makes: each call happens at an
    instant [now] and the code continues according to what the call
    returned; it ends by returning or by throwing; a nested [batch] continues
    one way when its function returned and another way when it threw (the
    caller may catch). *)

Inductive Cmd :=
| CGet (key : CacheKey)
| CHas (key : CacheKey)
| CSet (key : CacheKey) (v : JsValue) (ttl : option Z)
| CRemove (key : CacheKey)
| CKeys (prefix : option string)
| CClear (prefix : option string)
| CTouch (key : CacheKey) (ttl : option Z)
| CEmit (key : CacheKey)
| CIsReady
| CSubscribeKey (key : CacheKey) (cb : Listener)
| CUnsubscribeKey (key : CacheKey) (cb : Listener)
| CSubscribePrefix (prefix : string) (cb : Listener)
| CUnsubscribePrefix (prefix : string) (cb : Listener)
| CSubscribeAll (cb : Listener)
| CUnsubscribeAll (cb : Listener)
| CSubscribeReady (cb : Listener)
| CUnsubscribeReady (cb : Listener).

Inductive Resp :=
| RVoid
| RValue (v : JsValue)
| RBool (b : bool)
| RKeys (ks : list CacheKey).

Definition exec (now : Z) (c : Cmd) (st : State) : Resp * State :=
  match c with
  | CGet key => let (v, st') := Store.get now key st in (RValue v, st')
  | CHas key => let (b, st') := Store.has now key st in (RBool b, st')
  | CSet key v ttl => (RVoid, Store.set now key v ttl st)
  | CRemove key => (RVoid, Store.remove key st)
  | CKeys prefix => let (ks, st') := Store.keys now prefix st in (RKeys ks, st')
  | CClear prefix => (RVoid, Store.clear now prefix st)
  | CTouch key ttl => (RVoid, Store.touch now key ttl st)
  | CEmit key => (RVoid, Store.emit key st)
  | CIsReady => (RBool (Store.isReady st), st)
  | CSubscribeKey key cb => (RVoid, Store.subscribeKey key cb st)
  | CUnsubscribeKey key cb => (RVoid, Store.unsubscribeKey key cb st)
  | CSubscribePrefix p cb => (RVoid, Store.subscribePrefix p cb st)
  | CUnsubscribePrefix p cb => (RVoid, Store.unsubscribePrefix p cb st)
  | CSubscribeAll cb => (RVoid, Store.subscribeAll cb st)
  | CUnsubscribeAll cb => (RVoid, Store.unsubscribeAll cb st)
  | CSubscribeReady cb => (RVoid, Store.subscribeReady cb st)
  | CUnsubscribeReady cb => (RVoid, Store.unsubscribeReady cb st)
  end.

Inductive Prog :=
| PRet
| PThrow
| PCall (now : Z) (c : Cmd) (k : Resp -> Prog)
| PBatch (fn : Prog) (onReturn onThrow : Prog).

Inductive Completion := Returned | Threw.

(** [batchDepth++] *)
Definition enterBatch (st : State) : State :=
  with_batchDepth (S (batchDepth st)) st.

(** [for (const k of keys) emitNow(k)] *)
Definition emitAll (ks : list CacheKey) (st : State) : State :=
  fold_left (fun s k => emitNow k s) ks st.

(** The [finally] block of [batch]. *)
Definition batchFinally (st : State) : State :=
  let st1 := with_batchDepth (Nat.pred (batchDepth st)) st in
  if (batchDepth st1 =? 0)%nat then
    let ks := pendingKeys st1 in
    let st2 := with_pendingKeys [] st1 in
    let st3 := emitAll ks st2 in
    if pendingReadyEmit st3
    then emitReadyNow (with_pendingReadyEmit false st3)
    else st3
  else st1.

(** Running caller code; [PBatch] is [store.batch(fn)] with its
    [try]/[finally]. *)
Fixpoint run (p : Prog) (st : State) : State * Completion :=
  match p with
  | PRet => (st, Returned)
  | PThrow => (st, Threw)
  | PCall now c k => let (r, st') := exec now c st in run (k r) st'
  | PBatch fn onReturn onThrow =>
      let (st1, c) := run fn (enterBatch st) in
      let st2 := batchFinally st1 in
      match c with
      | Returned => run onReturn st2
      | Threw => run onThrow st2
      end
  end.

(** [store.batch(fn)]: the state when the call is over, and whether it
    returned or rethrew what [fn] threw. *)
Definition batch (fn : Prog) (st : State) : State * Completion :=
  let (st1, c) := run fn (enterBatch st) in (batchFinally st1, c).

(** ** [getOrSetAsync] *)

(** What a call of the [fetcher] does: it throws before returning, or it
    returns a promise (which settles later, see [fetchSettles]). *)
Inductive FetcherBehaviour :=
| ThrowsNow (err : JsValue)
| ReturnsPromise.

(** The [opts] argument; an absent [opts] is [noOpts]. *)
Record AsyncOpts := {
  optTtlMs : option Z;
  force : bool
}.

Definition noOpts : AsyncOpts := {| optTtlMs := None; force := false |}.

(** What the async function [getOrSetAsync] returns: a value, so that the
    caller's promise is fulfilled with it, or a promise, whose outcome the
    caller's promise takes. *)
Inductive AsyncResult :=
| ReturnsValue (v : JsValue)
| ReturnsPromiseOf (p : PromiseId).

Definition settle (p : PromiseId) (s : Settlement) (st : State) : State :=
  with_settled (settled st ++ [(p, s)]) st.

Fixpoint settlementOf (p : PromiseId) (l : list (PromiseId * Settlement))
    : option Settlement :=
  match l with
  | [] => None
  | (q, s) :: r => if Nat.eqb q p then Some s else settlementOf p r
  end.

(** The synchronous part of [getOrSetAsync]: the cached-value check, the
    in-flight check, then the async function [p] run up to
    [await fetcher()], and [inFlight.set(key, p)] after it.  When the
    fetcher throws, the [finally] of [p] runs at once. *)
Definition getOrSetAsync (now : Z) (key : CacheKey) (fetcher : Fetcher)
    (beh : FetcherBehaviour) (opts : AsyncOpts) (st : State)
    : AsyncResult * State :=
  let (cached, st1) :=
    if force opts then (VUndefined, st) else Store.get now key st in
  if negb (force opts) && negb (isUndefined cached) then (ReturnsValue cached, st1)
  else
    match JsMap.get key (inFlight st1) with
    | Some existing => (ReturnsPromiseOf existing, st1)
    | None =>
        let p := nextPromise st1 in
        let st2 := with_nextPromise (S p) st1 in
        let st3 := with_fetcherCalls (fetcherCalls st2 ++ [fetcher]) st2 in
        let st4 :=
          match beh with
          | ReturnsPromise =>
              with_awaiting
                (awaiting st3 ++ [{| taskPromise := p; taskKey := key;
                                     taskTtl := optTtlMs opts |}]) st3
          | ThrowsNow err =>
              settle p (Rejected err)
                     (with_inFlight (JsMap.delete key (inFlight st3)) st3)
          end in
        (ReturnsPromiseOf p, with_inFlight (JsMap.set key p (inFlight st4)) st4)
    end.

Fixpoint findTask (p : PromiseId) (l : list FetchTask) : option FetchTask :=
  match l with
  | [] => None
  | t :: r => if Nat.eqb (taskPromise t) p then Some t else findTask p r
  end.

Definition dropTask (p : PromiseId) (l : list FetchTask) : list FetchTask :=
  List.filter (fun t => negb (Nat.eqb (taskPromise t) p)) l.

(** The promise returned by the fetcher settles and the async function [p]
    resumes: on success [this.set(key, v, opts?.ttlMs)] and [return v]; in
    both cases the [finally] block, [inFlight.delete(key)]. *)
Definition fetchSettles (now : Z) (p : PromiseId) (outcome : Settlement)
    (st : State) : State :=
  match findTask p (awaiting st) with
  | None => st
  | Some t =>
      let st1 := with_awaiting (dropTask p (awaiting st)) st in
      match outcome with
      | Fulfilled v =>
          let st2 := Store.set now (taskKey t) v (taskTtl t) st1 in
          let st3 := with_inFlight (JsMap.delete (taskKey t) (inFlight st2)) st2 in
          settle p (Fulfilled v) st3
      | Rejected err =>
          let st2 := with_inFlight (JsMap.delete (taskKey t) (inFlight st1)) st1 in
          settle p (Rejected err) st2
      end
  end.

(** The outcome seen by the caller of [getOrSetAsync]; [None] is pending. *)
Definition callerOutcome (r : AsyncResult) (st : State) : option Settlement :=
  match r with
  | ReturnsValue v => Some (Fulfilled v)
  | ReturnsPromiseOf p => settlementOf p (settled st)
  end.

(** ** Construction and hydration *)

(** [_resolve()] and [_reject(e)]: a promise settles once. *)
Definition settleReady (s : Settlement) (st : State) : State :=
  match readyP st with
  | None => with_readyP (Some s) st
  | Some _ => st
  end.

Definition emptyState (d : CacheDriver) (cleanup : bool) : State :=
  {| driver := d; cleanupExpiredOnHydrate := cleanup;
     mirror := []; keyListeners := []; prefixListeners := [];
     allListeners := []; readyListeners := [];
     batchDepth := 0%nat; pendingKeys := []; pendingReadyEmit := false;
     ready := false; readyP := None; inFlight := [];
     allKeysCache := KeyListCache.mk [] false; prefixKeysCache := [];
     hydrating := false; nextPromise := 0%nat; awaiting := [];
     settled := []; fetcherCalls := []; driverCalls := []; trace := [] |}.

Definition orTrue (o : option bool) : bool :=
  match o with Some b => b | None => true end.

(** The state when [createCache(opts)] returns. *)
Definition createCache (opts : CreateCacheOptions) : State :=
  let st := emptyState (opt_driver opts) (orTrue (opt_cleanupExpiredOnHydrate opts)) in
  if negb (orTrue (opt_hydrate opts))
  then queueEmitReady (settleReady (Fulfilled VUndefined) (with_ready true st))
  else with_hydrating true st.

(** How the two [await]s of the hydration function end: the driver failed
    while listing or fetching, or [rows] arrived. *)
Inductive HydrationOutcome :=
| DriverFailed (err : JsValue)
| Rows (rows : list (CacheKey * option CacheEntry)).

(** The loop inside the [batch] of the hydration function. *)
Fixpoint installRows (now : Z) (rows : list (CacheKey * option CacheEntry))
    (toDelete : list CacheKey) (st : State) : list CacheKey * State :=
  match rows with
  | [] => (toDelete, st)
  | (k, None) :: rest => installRows now rest toDelete st
  | (k, Some e) :: rest =>
      if cleanupExpiredOnHydrate st && negb (Ttl.isAlive now (Some e))
      then installRows now rest (toDelete ++ [k]) st
      else installRows now rest toDelete
                       (with_mirror (JsMap.set k e (mirror st)) st)
  end.

(** The hydration function resumes after its [await]s; it runs once. *)
Definition hydrationSettles (now : Z) (outcome : HydrationOutcome)
    (st : State) : State :=
  if negb (hydrating st) then st else
  let st0 := with_hydrating false st in
  match outcome with
  | DriverFailed err =>
      queueEmitReady (settleReady (Rejected err) (with_ready true st0))
  | Rows rows =>
      let (toDelete, st1) := installRows now rows [] (enterBatch st0) in
      let st2 := batchFinally st1 in
      let st3 :=
        if cleanupExpiredOnHydrate st2 && negb (Nat.eqb (length toDelete) 0)
        then if removeMany (driver st2)
             then driverCall (DriverRemoveMany toDelete) st2
             else Store.driverRemoveEach toDelete st2
        else st2 in
      let st4 := Store.invalidateEveryPrefixCache (invalidateAllKeysCache st3) in
      queueEmitReady (settleReady (Fulfilled VUndefined) (with_ready true st4))
  end.

(** ** Histories *)

(** What can happen to a cache instance, one turn of the event loop at a
    time. *)
Inductive Action :=
| ASync (p : Prog)
| AGetOrSetAsync (now : Z) (key : CacheKey) (fetcher : Fetcher)
                 (beh : FetcherBehaviour) (opts : AsyncOpts)
| AFetchSettles (now : Z) (p : PromiseId) (outcome : Settlement)
| AHydrationSettles (now : Z) (outcome : HydrationOutcome).

Definition step (a : Action) (st : State) : State :=
  match a with
  | ASync p => fst (run p st)
  | AGetOrSetAsync now key fetcher beh opts =>
      snd (getOrSetAsync now key fetcher beh opts st)
  | AFetchSettles now p outcome => fetchSettles now p outcome st
  | AHydrationSettles now outcome => hydrationSettles now outcome st
  end.

Definition steps (h : list Action) (st : State) : State :=
  fold_left (fun s a => step a s) h st.

(** ** Vocabulary of the properties *)

(** The keys of the mirror that are live at [now] and in the scope of
    [prefix], in the mirror's iteration order. *)
Definition liveKeys (now : Z) (prefix : option string)
    (m : list (CacheKey * CacheEntry)) : list CacheKey :=
  List.map fst
    (List.filter (fun kv => inScope prefix (fst kv) && Ttl.isAlive now (Some (snd kv)))
                 m).

(** The keys of the mirror in the scope of [prefix], live or not. *)
Definition scopeKeys (prefix : option string)
    (m : list (CacheKey * CacheEntry)) : list CacheKey :=
  List.map fst (List.filter (fun kv => inScope prefix (fst kv)) m).

(** The cache record that [keys(prefix)] reads, if it exists. *)
Definition cacheFor (prefix : option string) (st : State)
    : option KeyListCache.t :=
  match prefix with
  | None => Some (allKeysCache st)
  | Some p => if String.eqb p "" then Some (allKeysCache st)
              else JsMap.get p (prefixKeysCache st)
  end.

(** The invariant of the key-list caches: the mirror has one entry per
    key, and a cache marked valid lists exactly the keys of the mirror in
    its scope, in the mirror's order. *)
Record KeyListsConsistent (st : State) : Prop := {
  klc_mirror : List.NoDup (JsMap.keysOf (mirror st));
  klc_all : KeyListCache.valid (allKeysCache st) = true ->
            KeyListCache.keys (allKeysCache st) = scopeKeys None (mirror st);
  klc_prefix : forall p c, In (p, c) (prefixKeysCache st) ->
               KeyListCache.valid c = true ->
               KeyListCache.keys c = scopeKeys (Some p) (mirror st)
}.

(** [has(key)] read as [get(key) !== undefined] at one state. *)
Definition hasIsGetDefined (now : Z) (key : CacheKey) (st : State) : Prop :=
  fst (Store.has now key st) = negb (isUndefined (fst (Store.get now key st))).

(** [touch] read as: nothing happens on an absent or dead key, and a live
    entry is replaced by one with the same value, [createdAt = now] and the
    [ttlMs] kept or overwritten. *)
Definition touchReplaces (now : Z) (key : CacheKey) (ttl : option Z)
    (st : State) : Prop :=
  match JsMap.get key (mirror st) with
  | None => Store.touch now key ttl st = st
  | Some e =>
      if Ttl.isAlive now (Some e)
      then JsMap.get key (mirror (Store.touch now key ttl st))
           = Some {| value := value e; createdAt := now;
                     ttlMs := match ttl with None => ttlMs e | Some t => Some t end |}
      else Store.touch now key ttl st = st
  end.

(** The events delivered to listeners between two states of one history. *)
Definition deliveredSince (before after : State) : list Event :=
  drop (length (trace before)) (trace after).

(** Deliveries of a batch read as happening only after the call of [batch]
    is over: none has happened when the call ends. *)
Definition deliversAfterCall (fn : Prog) (st : State) : Prop :=
  deliveredSince st (fst (batch fn st)) = [].

Definition notifiedKeys (evs : list Event) : list CacheKey :=
  List.concat (List.map (fun ev => match ev with Notify k => [k] | _ => [] end) evs).

Definition readyNotifications (evs : list Event) : nat :=
  length (List.filter (fun ev => match ev with NotifyReady => true | _ => false end) evs).

(** Promise identifiers are handed out in order: every promise that is
    parked or settled was made before [nextPromise]. *)
Record PromisesFresh (st : State) : Prop := {
  pf_awaiting : Forall (fun t => (taskPromise t < nextPromise st)%nat) (awaiting st);
  pf_settled : Forall (fun ps => (fst ps < nextPromise st)%nat) (settled st)
}.

(** Readiness and the hydration function go together. *)
Definition ReadinessCoherent (st : State) : Prop :=
  (hydrating st = true /\ ready st = false /\ readyP st = None)
  \/ (hydrating st = false /\ ready st = true /\ exists s, readyP st = Some s).

(** The calls of the other callers of [getOrSetAsync] for one key. *)
Fixpoint callAll (key : CacheKey)
    (calls : list (Z * Fetcher * FetcherBehaviour * AsyncOpts)) (st : State)
    : list AsyncResult * State :=
  match calls with
  | [] => ([], st)
  | (now, f, beh, opts) :: rest =>
      let (r, st1) := getOrSetAsync now key f beh opts st in
      let (rs, st2) := callAll key rest st1 in
      (r :: rs, st2)
  end.

(** The fields of [State] by concern. *)
Definition dataPart (st : State) :=
  (mirror st, allKeysCache st, prefixKeysCache st, driverCalls st).
Definition notifPart (st : State) :=
  (batchDepth st, pendingKeys st, pendingReadyEmit st, trace st).
Definition listenersPart (st : State) :=
  (keyListeners st, prefixListeners st, allListeners st, readyListeners st).
Definition asyncPart (st : State) :=
  (inFlight st, nextPromise st, awaiting st, settled st, fetcherCalls st).
Definition readyPart (st : State) :=
  (ready st, readyP st, hydrating st, driver st, cleanupExpiredOnHydrate st).

(** Inside a batch a step is quiet: it delivers nothing, it keeps the queue
    of pending keys duplicate-free and it leaves the pending ready flag
    alone; at any depth it leaves [batchDepth] where it was. *)
Definition Quiet (st st' : State) : Prop :=
  batchDepth st' = batchDepth st
  /\ ((0 < batchDepth st)%nat ->
      trace st' = trace st
      /\ pendingReadyEmit st' = pendingReadyEmit st
      /\ (List.NoDup (pendingKeys st) -> List.NoDup (pendingKeys st'))).

(** What every synchronous store call satisfies: it is quiet and it leaves
    the in-flight table, the promises and readiness alone. *)
Definition SyncStep (st st' : State) : Prop :=
  Quiet st st' /\ asyncPart st' = asyncPart st /\ readyPart st' = readyPart st.

(** The key has nothing [get] would return at any instant: no entry, or an
    entry whose value is [undefined]. *)
Definition NoValue (key : CacheKey) (st : State) : Prop :=
  match JsMap.get key (mirror st) with
  | None => True
  | Some e => value e = VUndefined
  end.

(** An entry that a listing of [prefix] at [now] drops: in the scope and
    dead. *)
Definition expired (now : Z) (prefix : option string)
    (kv : CacheKey * CacheEntry) : bool :=
  inScope prefix (fst kv) && negb (Ttl.isAlive now (Some (snd kv))).

(** The mirror once a listing of [prefix] at [now] has dropped those. *)
Definition afterExpiry (now : Z) (prefix : option string)
    (m : list (CacheKey * CacheEntry)) : list (CacheKey * CacheEntry) :=
  List.filter (fun kv => negb (expired now prefix kv)) m.

(** [isAlive(mirror.get(k))] *)
Definition aliveIn (now : Z) (m : list (CacheKey * CacheEntry)) (k : CacheKey)
    : bool :=
  Ttl.isAlive now (JsMap.get k m).

(** The mirror once the keys of [arr] that are dead have been dropped. *)
Definition pruneMirror (now : Z) (arr : list CacheKey)
    (m : list (CacheKey * CacheEntry)) : list (CacheKey * CacheEntry) :=
  List.filter (fun kv => negb (existsb (String.eqb (fst kv)) arr)
                         || aliveIn now m (fst kv)) m.

(** Outside a batch nothing is pending. *)
Definition Idle (st : State) : Prop :=
  batchDepth st = 0%nat -> pendingKeys st = [] /\ pendingReadyEmit st = false.

(** A step that, outside a batch, queues nothing. *)
Definition KeepsQueue (st st' : State) : Prop :=
  batchDepth st' = batchDepth st
  /\ (batchDepth st = 0%nat ->
      pendingKeys st' = pendingKeys st
      /\ pendingReadyEmit st' = pendingReadyEmit st).

(** ** More of [ttl.ts] and of the store object *)

Record CacheMeta := {
  metaCreatedAt : Z;
  metaTtlMs : option Z;
  expiresAt : option Z;
  remainingMs : option Z
}.

(** [computeMeta(e)]; [!ttlMs] holds for [undefined] and for [0], and the
    result then has [createdAt] only. *)
Definition computeMeta (now : Z) (e : option CacheEntry) : option CacheMeta :=
  match e with
  | None => None
  | Some e =>
      let noTtl := {| metaCreatedAt := createdAt e; metaTtlMs := None;
                      expiresAt := None; remainingMs := None |} in
      match ttlMs e with
      | None => Some noTtl
      | Some t =>
          if t =? 0 then Some noTtl
          else Some {| metaCreatedAt := createdAt e;
                       metaTtlMs := Some t;
                       expiresAt := Some (createdAt e + t);
                       remainingMs := Some (Z.max 0 (createdAt e + t - now)) |}
      end
  end.

(** The methods of the store object that are no [Cmd]: [meta] acts on the
    state as [get] does, and [update] is a [get] followed by a [set]. *)
Module StoreMore.

(** [meta(key)] reads the clock twice: [isAlive], under [getEntry], at
    [now], and then [computeMeta] at [now']. *)
Definition meta (now now' : Z) (key : CacheKey) (st : State)
    : option CacheMeta * State :=
  let (e, st') := getEntry now key st in (computeMeta now' e, st').

(** [updater] is a function of the previous value; it does not call the
    store and does not throw. *)
Definition update (now : Z) (key : CacheKey) (updater : JsValue -> JsValue)
    (ttl : option Z) (st : State) : JsValue * State :=
  let (prev, st1) := Store.get now key st in
  let next := updater prev in
  (next, Store.set now key next ttl st1).

End StoreMore.

(** ** The memory driver ([drivers/memory.ts])

    Its methods are [async] functions without an [await]: a call has acted on
    the map [m] when it returns its promise. *)

Module MemoryDriver.

(** [m.get(key) ?? null] *)
Definition get (key : CacheKey) (m : list (CacheKey * CacheEntry))
    : option CacheEntry :=
  JsMap.get key m.

Definition set (key : CacheKey) (entry : option CacheEntry)
    (m : list (CacheKey * CacheEntry)) : list (CacheKey * CacheEntry) :=
  match entry with
  | None => JsMap.delete key m
  | Some e => JsMap.set key e m
  end.

Definition remove (key : CacheKey) (m : list (CacheKey * CacheEntry))
    : list (CacheKey * CacheEntry) :=
  JsMap.delete key m.

(** The loop of [keys(prefix)] over [m.keys()]; the test
    [prefix && !k.startsWith(prefix)] is [negb (inScope prefix k)]. *)
Fixpoint keysLoop (prefix : option string) (ks out : list CacheKey)
    : list CacheKey :=
  match ks with
  | [] => out
  | k :: rest =>
      if negb (inScope prefix k) then keysLoop prefix rest out
      else keysLoop prefix rest (out ++ [k])
  end.

Definition keys (prefix : option string) (m : list (CacheKey * CacheEntry))
    : list CacheKey :=
  keysLoop prefix (JsMap.keysOf m) [].

Definition getMany (ks : list CacheKey) (m : list (CacheKey * CacheEntry))
    : list (CacheKey * option CacheEntry) :=
  List.map (fun k => (k, JsMap.get k m)) ks.

Definition removeMany (ks : list CacheKey) (m : list (CacheKey * CacheEntry))
    : list (CacheKey * CacheEntry) :=
  fold_left (fun acc k => JsMap.delete k acc) ks m.

(** [for (const k of Array.from(m.keys())) if (k.startsWith(prefix))
    m.delete(k)] *)
Definition clearPrefix (prefix : string) (m : list (CacheKey * CacheEntry))
    : list (CacheKey * CacheEntry) :=
  fold_left (fun acc k => if startsWith k prefix then JsMap.delete k acc else acc)
            (JsMap.keysOf m) m.

(** One call of the engine, received by the driver. *)
Definition receive (c : DriverCall) (m : list (CacheKey * CacheEntry))
    : list (CacheKey * CacheEntry) :=
  match c with
  | DriverSet k e => set k (Some e) m
  | DriverRemove k => remove k m
  | DriverRemoveMany ks => removeMany ks m
  | DriverClearPrefix p => clearPrefix p m
  end.

(** The map of the driver after the calls of the engine, in order. *)
Definition replay (calls : list DriverCall) (m : list (CacheKey * CacheEntry))
    : list (CacheKey * CacheEntry) :=
  fold_left (fun acc c => receive c acc) calls m.

End MemoryDriver.

(** The driver follows the engine from [st] to [st']: the calls it received
    in between, applied to a copy of the mirror of [st], give the mirror of
    [st']. *)
Definition DriverFollows (st st' : State) : Prop :=
  exists calls, driverCalls st' = driverCalls st ++ calls
                /\ MemoryDriver.replay calls (mirror st) = mirror st'.

(** The rows that the loop of the hydration function writes to the mirror
    and the keys it pushes on [toDelete], in the order of the rows. *)
Definition keptRows (now : Z) (cleanup : bool)
    (rows : list (CacheKey * option CacheEntry)) : list (CacheKey * CacheEntry) :=
  flat_map (fun row => match snd row with
                       | None => []
                       | Some e => if cleanup && negb (Ttl.isAlive now (Some e))
                                   then [] else [(fst row, e)]
                       end) rows.

Definition droppedKeys (now : Z) (cleanup : bool)
    (rows : list (CacheKey * option CacheEntry)) : list CacheKey :=
  flat_map (fun row => match snd row with
                       | None => []
                       | Some e => if cleanup && negb (Ttl.isAlive now (Some e))
                                   then [fst row] else []
                       end) rows.

(** [mirror.set(k, e)] for each pair, in order. *)
Definition setAll (kvs : list (CacheKey * CacheEntry))
    (m : list (CacheKey * CacheEntry)) : list (CacheKey * CacheEntry) :=
  fold_left (fun acc kv => JsMap.set (fst kv) (snd kv) acc) kvs m.

(** A step that raises no ready notification: it leaves the pending ready
    flag alone and runs [emitReadyNow] not once. *)
Definition NoReadyNotice (st st' : State) : Prop :=
  pendingReadyEmit st' = pendingReadyEmit st
  /\ readyNotifications (trace st') = readyNotifications (trace st).

(** ** Cross-tab notification ([sync/broadcast.ts])

    [withBroadcastSync(cache, opts)] where a [BroadcastChannel] exists.  A
    channel delivers a posted message to the other tabs, not to the tab that
    posted it. *)

Module Broadcast.

(** The fields of [ev.data] that [onMsg] reads; a field that is missing is
    [VUndefined]. *)
Record Message := {
  msg_t : JsValue;
  msg_ns : JsValue;
  msg_k : JsValue
}.

(** [v === s] for a string [s]. *)
Definition isString (v : JsValue) (s : string) : bool :=
  match v with
  | VStr s' => String.eqb s' s
  | _ => false
  end.

(** [v ?? s] for the empty string [s]. *)
Definition orEmpty (v : JsValue) : JsValue :=
  match v with
  | VUndefined | VNull => VStr ""
  | _ => v
  end.

(** [onMsg(ev)] in a tab whose namespace is [ns]; [data] is [None] for a
    falsy [ev.data]. *)
Definition onMsg (ns : string) (data : option Message) (st : State) : State :=
  match data with
  | None => st
  | Some msg =>
      if negb (isString (msg_t msg) "cache:emit") then st
      else if negb (isString (orEmpty (msg_ns msg)) ns) then st
      else match msg_k msg with
           | VStr k => Store.emit k st
           | _ => st
           end
  end.

(** The message that [publish(key)] posts. *)
Definition published (ns : string) (key : CacheKey) : Message :=
  {| msg_t := VStr "cache:emit"; msg_ns := VStr ns; msg_k := VStr key |}.

(** The wrapped [set], [update] and [remove]: the call on the cache, then
    [publish(key)]; [posted] is what the tab has posted so far. *)
Definition set (ns : string) (now : Z) (key : CacheKey) (v : JsValue)
    (ttl : option Z) (tab : State * list Message) : State * list Message :=
  (Store.set now key v ttl (fst tab), snd tab ++ [published ns key]).

Definition update (ns : string) (now : Z) (key : CacheKey)
    (updater : JsValue -> JsValue) (ttl : option Z) (tab : State * list Message)
    : JsValue * (State * list Message) :=
  let (v, st') := StoreMore.update now key updater ttl (fst tab) in
  (v, (st', snd tab ++ [published ns key])).

Definition remove (ns : string) (key : CacheKey) (tab : State * list Message)
    : State * list Message :=
  (Store.remove key (fst tab), snd tab ++ [published ns key]).

End Broadcast.

(** A history in which the hydration function has not resumed. *)
Definition beforeHydrationEnds (h : list Action) : bool :=
  forallb (fun a => match a with AHydrationSettles _ _ => false | _ => true end) h.

(** A listener registry holds no empty set. *)
Definition NoEmptySet (m : list (string * list Listener)) : Prop :=
  forall k, JsMap.get k m <> Some [].

Definition RegistriesTidy (st : State) : Prop :=
  NoEmptySet (keyListeners st) /\ NoEmptySet (prefixListeners st).

(** * Properties *)

(** ** Maps *)

Section JsMapFacts.
Context {V : Type}.
Implicit Types (m : list (string * V)) (k : string).

Lemma get_set_eq k (v : V) m : JsMap.get k (JsMap.set k v m) = Some v.
Proof.
  induction m as [|[k' v'] r IH]; simpl.
  - now rewrite String.eqb_refl.
  - destruct (String.eqb k' k) eqn:E; simpl; rewrite E; auto.
Qed.

Lemma get_set_ne k k' (v : V) m :
  k <> k' -> JsMap.get k' (JsMap.set k v m) = JsMap.get k' m.
Proof.
  intros Hne. induction m as [|[k0 v0] r IH]; simpl.
  - destruct (String.eqb k k') eqn:E; auto.
    apply String.eqb_eq in E. contradiction.
  - destruct (String.eqb k0 k) eqn:E; simpl.
    + apply String.eqb_eq in E. subst k0.
      destruct (String.eqb k k') eqn:E'; auto.
      apply String.eqb_eq in E'. contradiction.
    + now rewrite IH.
Qed.

Lemma get_delete_eq k m : JsMap.get k (JsMap.delete k m) = None.
Proof.
  unfold JsMap.delete. induction m as [|[k' v'] r IH]; simpl; auto.
  destruct (String.eqb k' k) eqn:E; simpl; auto. now rewrite E.
Qed.

Lemma get_delete_ne k k' m :
  k <> k' -> JsMap.get k' (JsMap.delete k m) = JsMap.get k' m.
Proof.
  intros Hne. unfold JsMap.delete.
  induction m as [|[k0 v0] r IH]; simpl; auto.
  destruct (String.eqb k0 k) eqn:E; simpl.
  - apply String.eqb_eq in E. subst k0.
    destruct (String.eqb k k') eqn:E'; auto.
    apply String.eqb_eq in E'. contradiction.
  - now rewrite IH.
Qed.

Lemma get_None_delete k m : JsMap.get k m = None -> JsMap.delete k m = m.
Proof.
  unfold JsMap.delete. induction m as [|[k' v'] r IH]; simpl; auto.
  destruct (String.eqb k' k) eqn:E; simpl; [discriminate|].
  intros H. now rewrite IH.
Qed.

Lemma get_Some_In k (v : V) m : JsMap.get k m = Some v -> In (k, v) m.
Proof.
  induction m as [|[k' v'] r IH]; simpl; [discriminate|].
  destruct (String.eqb k' k) eqn:E.
  - apply String.eqb_eq in E. intros [= ->]. subst. now left.
  - intros H. right. auto.
Qed.

Lemma get_None_notin k m : JsMap.get k m = None -> ~ In k (JsMap.keysOf m).
Proof.
  induction m as [|[k' v'] r IH]; simpl; auto.
  destruct (String.eqb k' k) eqn:E; [discriminate|].
  intros H [Hk|Hk]; [|now apply IH].
  subst. now rewrite String.eqb_refl in E.
Qed.

Lemma In_get k (v : V) m :
  List.NoDup (JsMap.keysOf m) -> In (k, v) m -> JsMap.get k m = Some v.
Proof.
  induction m as [|[k' v'] r IH]; simpl; [tauto|].
  intros Hnd [Heq|Hin].
  - injection Heq as -> ->. now rewrite String.eqb_refl.
  - inversion Hnd as [|x l Hnotin Hnd']; subst.
    destruct (String.eqb k' k) eqn:E.
    + apply String.eqb_eq in E. subst k'. exfalso. apply Hnotin.
      change (In k (List.map fst r)).
      apply in_map_iff. now exists (k, v).
    + auto.
Qed.

Lemma In_set k (v : V) m kv :
  In kv (JsMap.set k v m) -> kv = (k, v) \/ In kv m.
Proof.
  induction m as [|[k' v'] r IH]; simpl.
  - intros [H|[]]. now left.
  - destruct (String.eqb k' k) eqn:E; simpl.
    + apply String.eqb_eq in E. subst k'. intros [H|H]; auto.
    + intros [H|H]; auto. destruct (IH H); auto.
Qed.
End JsMapFacts.

(** ** What each closure leaves alone *)

Lemma queueEmitKey_frame k st :
  dataPart (queueEmitKey k st) = dataPart st
  /\ listenersPart (queueEmitKey k st) = listenersPart st
  /\ asyncPart (queueEmitKey k st) = asyncPart st
  /\ readyPart (queueEmitKey k st) = readyPart st
  /\ batchDepth (queueEmitKey k st) = batchDepth st
  /\ pendingReadyEmit (queueEmitKey k st) = pendingReadyEmit st.
Proof. unfold queueEmitKey. destruct (0 <? batchDepth st)%nat; repeat split. Qed.

Lemma invalidateKeyCachesForMutation_frame k st :
  mirror (invalidateKeyCachesForMutation k st) = mirror st
  /\ driverCalls (invalidateKeyCachesForMutation k st) = driverCalls st
  /\ notifPart (invalidateKeyCachesForMutation k st) = notifPart st
  /\ listenersPart (invalidateKeyCachesForMutation k st) = listenersPart st
  /\ asyncPart (invalidateKeyCachesForMutation k st) = asyncPart st
  /\ readyPart (invalidateKeyCachesForMutation k st) = readyPart st.
Proof. repeat split. Qed.

Lemma dropKey_frame k st :
  notifPart (dropKey k st) = notifPart st
  /\ listenersPart (dropKey k st) = listenersPart st
  /\ asyncPart (dropKey k st) = asyncPart st
  /\ readyPart (dropKey k st) = readyPart st.
Proof. repeat split. Qed.

Lemma dropKey_data k st :
  mirror (dropKey k st) = JsMap.delete k (mirror st)
  /\ driverCalls (dropKey k st) = driverCalls st ++ [DriverRemove k]
  /\ allKeysCache (dropKey k st) = invalidate (allKeysCache st)
  /\ prefixKeysCache (dropKey k st)
     = List.map (fun pc => if startsWith k (fst pc)
                           then (fst pc, invalidate (snd pc)) else pc)
                (prefixKeysCache st).
Proof. repeat split. Qed.

Lemma setInternal_frame k e st :
  listenersPart (setInternal k e st) = listenersPart st
  /\ asyncPart (setInternal k e st) = asyncPart st
  /\ readyPart (setInternal k e st) = readyPart st
  /\ batchDepth (setInternal k e st) = batchDepth st
  /\ pendingReadyEmit (setInternal k e st) = pendingReadyEmit st.
Proof.
  unfold setInternal.
  destruct e as [e|]; [destruct (nonPositiveTtl e)|];
    cbv zeta;
    match goal with
    | |- context [queueEmitKey k ?s] =>
        destruct (queueEmitKey_frame k s) as (_ & Hl & Ha & Hr & Hb & Hp);
        rewrite Hl, Ha, Hr, Hb, Hp
    end; repeat split.
Qed.

(** The cached lists matching a key are invalid after
    [invalidatePrefixCachesForKey]; the others are as before. *)
Lemma invalidated_prefix_caches key (caches : list (string * KeyListCache.t)) p c :
  In (p, c) (List.map (fun pc => if startsWith key (fst pc)
                                 then (fst pc, invalidate (snd pc)) else pc)
                      caches) ->
  (startsWith key p = true -> KeyListCache.valid c = false)
  /\ (KeyListCache.valid c = true -> In (p, c) caches /\ startsWith key p = false).
Proof.
  intros Hin. apply in_map_iff in Hin as ([p' c'] & Heq & Hin). simpl in Heq.
  destruct (startsWith key p') eqn:E.
  - injection Heq as <- <-. simpl. split; [auto | discriminate].
  - injection Heq as <- <-. split; [intros H; rewrite H in E; discriminate | auto].
Qed.

(** C5: for every key, value and [ttlMs <= 0], [set(key, value, ttlMs)] is
    [remove(key)]: the two calls end in the same state.  The key leaves the
    mirror and no entry is stored, one [driver.remove(key)] is issued, the
    full key list and every cached prefix list matching the key are marked
    invalid, and one change notification for the key is queued (inside a
    batch) or delivered (outside). *)
Theorem set_nonpositive_ttl_is_remove
    (now : Z) (key : CacheKey) (v : JsValue) (t : Z) (st : State) :
  t <= 0 ->
  let st' := Store.set now key v (Some t) st in
  st' = Store.remove key st
  /\ mirror st' = JsMap.delete key (mirror st)
  /\ JsMap.get key (mirror st') = None
  /\ driverCalls st' = driverCalls st ++ [DriverRemove key]
  /\ KeyListCache.valid (allKeysCache st') = false
  /\ (forall p c, In (p, c) (prefixKeysCache st') ->
        startsWith key p = true -> KeyListCache.valid c = false)
  /\ (if (0 <? batchDepth st)%nat
      then pendingKeys st' = JsSet.add String.eqb key (pendingKeys st)
           /\ trace st' = trace st
      else pendingKeys st' = pendingKeys st
           /\ trace st' = trace st ++ Notify key :: listenerCalls key st).
Proof.
  intros Ht st'. subst st'.
  unfold Store.set, Store.remove, setInternal, makeEntry, nonPositiveTtl.
  cbn [ttlMs]. apply Z.leb_le in Ht. rewrite Ht. cbv zeta.
  unfold queueEmitKey.
  cbn [batchDepth invalidateKeyCachesForMutation invalidatePrefixCachesForKey
       invalidateAllKeysCache driverCall with_mirror with_driverCalls
       with_allKeysCache with_prefixKeysCache].
  destruct (0 <? batchDepth st)%nat; cbn;
    (split; [reflexivity|]); (split; [reflexivity|]);
    (split; [apply get_delete_eq|]); (split; [reflexivity|]);
    (split; [reflexivity|]);
    (split; [|split; reflexivity]);
    intros p c Hin Hs;
    apply (invalidated_prefix_caches key (prefixKeysCache st) p c Hin); exact Hs.
Qed.

Lemma set_nonpositive_ttl_is_remove_witness :
  let st := Store.set 1 "k" (VNum 0) None
              (emptyState (Build_CacheDriver false false false) true) in
  0 <= 0
  /\ Store.set 5 "k" (VNum 1) (Some 0) st = Store.remove "k" st
  /\ JsMap.get "k" (mirror (Store.set 5 "k" (VNum 1) (Some 0) st)) = None.
Proof.
  intros st.
  destruct (set_nonpositive_ttl_is_remove 5 "k" (VNum 1) 0 st) as (H1 & _ & H3 & _);
    [lia|].
  split; [lia|]. split; [exact H1 | exact H3].
Defined.

(** ** Lazy expiry on reads *)

Lemma isAlive_expired now e T :
  ttlMs e = Some T -> T > 0 -> now - createdAt e >= T ->
  Ttl.isAlive now (Some e) = false.
Proof.
  intros HT Hpos Hexp. unfold Ttl.isAlive. rewrite HT.
  destruct (T =? 0) eqn:E; [apply Z.eqb_eq in E; lia|].
  apply Z.ltb_ge. lia.
Qed.

Lemma getEntry_cases now key st :
  match JsMap.get key (mirror st) with
  | None => getEntry now key st = (None, st)
  | Some e => if Ttl.isAlive now (Some e)
              then getEntry now key st = (Some e, st)
              else getEntry now key st = (None, dropKey key st)
  end.
Proof.
  unfold getEntry, pruneIfDead.
  destruct (JsMap.get key (mirror st)) as [e|]; [|reflexivity].
  destruct (Ttl.isAlive now (Some e)); reflexivity.
Qed.

(** C8: when the entry of [key] has [ttlMs = T > 0] and
    [now - createdAt >= T], [get(key)] returns [undefined], deletes the key
    from the mirror, issues one [driver.remove(key)], marks the full key list
    and every cached prefix list matching the key invalid, and leaves the
    other cached lists, the other mirror entries, the listener registries,
    the pending notifications and the delivered events as they were. *)
Theorem get_expired_evicts_silently
    (now : Z) (key : CacheKey) (e : CacheEntry) (T : Z) (st : State) :
  JsMap.get key (mirror st) = Some e ->
  ttlMs e = Some T -> T > 0 -> now - createdAt e >= T ->
  let v := fst (Store.get now key st) in
  let st' := snd (Store.get now key st) in
  v = VUndefined
  /\ mirror st' = JsMap.delete key (mirror st)
  /\ JsMap.get key (mirror st') = None
  /\ (forall k', k' <> key -> JsMap.get k' (mirror st') = JsMap.get k' (mirror st))
  /\ driverCalls st' = driverCalls st ++ [DriverRemove key]
  /\ KeyListCache.valid (allKeysCache st') = false
  /\ (forall p c, In (p, c) (prefixKeysCache st') ->
        (startsWith key p = true -> KeyListCache.valid c = false)
        /\ (KeyListCache.valid c = true -> In (p, c) (prefixKeysCache st)))
  /\ trace st' = trace st
  /\ pendingKeys st' = pendingKeys st
  /\ pendingReadyEmit st' = pendingReadyEmit st
  /\ keyListeners st' = keyListeners st
  /\ prefixListeners st' = prefixListeners st
  /\ allListeners st' = allListeners st
  /\ readyListeners st' = readyListeners st.
Proof.
  intros Hget HT Hpos Hexp v st'. subst v st'.
  unfold Store.get.
  pose proof (getEntry_cases now key st) as Hc. rewrite Hget in Hc.
  rewrite (isAlive_expired now e T HT Hpos Hexp) in Hc. rewrite Hc.
  cbn [fst snd].
  destruct (dropKey_data key st) as (Hm & Hd & Ha & Hp).
  split; [reflexivity|]. split; [exact Hm|].
  split; [rewrite Hm; apply get_delete_eq|].
  split; [intros k' Hne; rewrite Hm; apply get_delete_ne; congruence|].
  split; [exact Hd|]. split; [rewrite Ha; reflexivity|].
  split; [|repeat split].
  intros p c Hin. rewrite Hp in Hin.
  destruct (invalidated_prefix_caches key _ p c Hin) as [H1 H2].
  split; [exact H1 | intros Hv; apply H2, Hv].
Qed.

Lemma get_expired_evicts_silently_witness :
  let st := Store.set 0 "k" (VNum 1) (Some 10)
              (emptyState (Build_CacheDriver false false false) true) in
  fst (Store.get 10 "k" st) = VUndefined
  /\ mirror (snd (Store.get 10 "k" st)) = JsMap.delete "k" (mirror st).
Proof.
  intros st.
  destruct (get_expired_evicts_silently 10 "k" (makeEntry 0 (VNum 1) (Some 10)) 10 st)
    as (H1 & H2 & _); [reflexivity | reflexivity | lia | simpl; lia |].
  split; [exact H1 | exact H2].
Defined.

(** ** [has] and [get] *)

(** C4 (as amended): [has(key)] and [get(key)] end in the same state,
    whichever entry the key has, so they share the eviction of a dead entry;
    [has(key)] is true exactly when the mirror holds an entry for the key
    that is alive, and [get(key)] then returns the value of that entry.  So
    [has(key)] is [get(key) !== undefined] whenever the stored value is not
    [undefined], and [get(key) !== undefined] always implies [has(key)]. *)
Theorem has_is_live_entry (now : Z) (key : CacheKey) (st : State) :
  snd (Store.has now key st) = snd (Store.get now key st)
  /\ (fst (Store.has now key st) = true <->
      exists e, JsMap.get key (mirror st) = Some e
                /\ Ttl.isAlive now (Some e) = true
                /\ fst (Store.get now key st) = value e)
  /\ (fst (Store.get now key st) <> VUndefined -> fst (Store.has now key st) = true)
  /\ ((forall e, JsMap.get key (mirror st) = Some e -> value e <> VUndefined) ->
      hasIsGetDefined now key st).
Proof.
  unfold hasIsGetDefined, Store.has, Store.get.
  pose proof (getEntry_cases now key st) as Hc.
  destruct (JsMap.get key (mirror st)) as [e|] eqn:Hget.
  - destruct (Ttl.isAlive now (Some e)) eqn:Halive; rewrite Hc; cbn [fst snd].
    + split; [reflexivity|]. split; [|split].
      * split; [intros _; exists e; auto | auto].
      * auto.
      * intros Hv. specialize (Hv e eq_refl).
        destruct (value e); try reflexivity. contradiction.
    + split; [reflexivity|]. split; [|split].
      * split; [discriminate|]. intros (e' & [= <-] & Ha & _). congruence.
      * intros H. contradiction.
      * reflexivity.
  - rewrite Hc. cbn [fst snd].
    split; [reflexivity|]. split; [|split].
    + split; [discriminate|]. intros (e' & [=] & _).
    + intros H. contradiction.
    + reflexivity.
Qed.

(** C4, as stated, fails on a key whose stored value is [undefined]: after
    [set("a", undefined)], [has("a")] is true and [get("a")] is
    [undefined]. *)
Lemma has_is_not_get_defined :
  let st := Store.set 0 "a" VUndefined None
              (emptyState (Build_CacheDriver false false false) true) in
  fst (Store.has 5 "a" st) = true
  /\ fst (Store.get 5 "a" st) = VUndefined
  /\ ~ hasIsGetDefined 5 "a" st.
Proof.
  cbv zeta. split; [reflexivity|]. split; [reflexivity|].
  unfold hasIsGetDefined. vm_compute. discriminate.
Qed.

(** ** [touch] *)

(** C6 (as amended): on an absent key [touch] changes nothing; on a dead key
    it evicts the entry the way a read does ([dropKey]: no notification) and
    stops; on a live key it is [set(key, e.value, ttl')] at [now], where
    [ttl'] is the old [ttlMs] when the argument is omitted or [undefined] and
    the argument otherwise.  So the key is removed when [ttl' <= 0], and
    otherwise the entry is replaced by one with the same value,
    [createdAt = now] and [ttlMs = ttl'], persisted with [driver.set] and
    notified as [set] does.  An entry that had a [ttlMs] never comes out of
    [touch] without one. *)
Theorem touch_is_set_on_live_entry
    (now : Z) (key : CacheKey) (ttl : option Z) (st : State) :
  match JsMap.get key (mirror st) with
  | None => Store.touch now key ttl st = st
  | Some e =>
      let ttl' := match ttl with None => ttlMs e | Some t => Some t end in
      let ne := {| value := value e; createdAt := now; ttlMs := ttl' |} in
      if Ttl.isAlive now (Some e) then
        Store.touch now key ttl st = Store.set now key (value e) ttl' st
        /\ (if nonPositiveTtl ne
            then Store.touch now key ttl st = Store.remove key st
            else mirror (Store.touch now key ttl st) = JsMap.set key ne (mirror st)
                 /\ JsMap.get key (mirror (Store.touch now key ttl st)) = Some ne
                 /\ driverCalls (Store.touch now key ttl st)
                    = driverCalls st ++ [DriverSet key ne])
        /\ (forall T e', ttlMs e = Some T ->
              JsMap.get key (mirror (Store.touch now key ttl st)) = Some e' ->
              ttlMs e' <> None)
      else
        Store.touch now key ttl st = dropKey key st
        /\ trace (Store.touch now key ttl st) = trace st
        /\ pendingKeys (Store.touch now key ttl st) = pendingKeys st
  end.
Proof.
  unfold Store.touch.
  pose proof (getEntry_cases now key st) as Hc.
  destruct (JsMap.get key (mirror st)) as [e|] eqn:Hget; [|now rewrite Hc].
  cbv zeta.
  destruct (Ttl.isAlive now (Some e)) eqn:Halive; rewrite Hc; [|repeat split].
  set (ttl' := match ttl with None => ttlMs e | Some t => Some t end).
  set (ne := {| value := value e; createdAt := now; ttlMs := ttl' |}).
  assert (Hmir : forall s, mirror (queueEmitKey key s) = mirror s).
  { intros s. destruct (queueEmitKey_frame key s) as (Hd & _).
    unfold dataPart in Hd. congruence. }
  assert (Hdrv : forall s, driverCalls (queueEmitKey key s) = driverCalls s).
  { intros s. destruct (queueEmitKey_frame key s) as (Hd & _).
    unfold dataPart in Hd. congruence. }
  split; [reflexivity|]. split.
  - unfold Store.remove, setInternal.
    destruct (nonPositiveTtl ne) eqn:Hnp; [reflexivity|].
    cbv zeta. rewrite Hmir, Hdrv. cbn.
    split; [reflexivity|]. split; [apply get_set_eq | reflexivity].
  - intros T e' HT. unfold setInternal.
    destruct (nonPositiveTtl ne) eqn:Hnp; cbv zeta; rewrite Hmir; cbn.
    + rewrite get_delete_eq. discriminate.
    + rewrite get_set_eq. intros [= <-]. cbn. subst ttl'.
      destruct ttl; [discriminate|]. rewrite HT. discriminate.
Qed.

(** C6, as stated, fails twice.  On a live key, [touch(key, 0)] removes the
    entry instead of replacing it; on a dead key, [touch(key)] is not a
    no-op: it evicts the entry and issues a [driver.remove]. *)
Lemma touch_does_not_always_replace :
  let st := Store.set 0 "k" (VNum 1) (Some 10)
              (emptyState (Build_CacheDriver false false false) true) in
  JsMap.get "k" (mirror (Store.touch 5 "k" (Some 0) st)) = None
  /\ ~ touchReplaces 5 "k" (Some 0) st
  /\ driverCalls (Store.touch 20 "k" None st) = driverCalls st ++ [DriverRemove "k"]
  /\ ~ touchReplaces 20 "k" None st.
Proof.
  cbv zeta. split; [reflexivity|]. split; [vm_compute; discriminate|].
  split; [reflexivity|]. vm_compute. discriminate.
Qed.

(** ** [getOrSetAsync] *)

(** C10: when a fetch for [key] is in flight, [getOrSetAsync(key, fetcher,
    {force: true})] returns the promise that is in flight and changes
    nothing: the new fetcher is not called, no promise is made, and the
    mirror is not read. *)
Theorem force_joins_fetch_in_flight
    (now : Z) (key : CacheKey) (fetcher : Fetcher) (beh : FetcherBehaviour)
    (ttl : option Z) (p : PromiseId) (st : State) :
  JsMap.get key (inFlight st) = Some p ->
  let call := getOrSetAsync now key fetcher beh {| optTtlMs := ttl; force := true |} st in
  fst call = ReturnsPromiseOf p
  /\ snd call = st
  /\ fetcherCalls (snd call) = fetcherCalls st.
Proof.
  intros Hin call. subst call. unfold getOrSetAsync. cbn [force negb andb].
  rewrite Hin. repeat split.
Qed.

Lemma force_joins_fetch_in_flight_witness :
  let st := snd (getOrSetAsync 0 "k" 1%nat ReturnsPromise noOpts
                   (emptyState (Build_CacheDriver false false false) true)) in
  JsMap.get "k" (inFlight st) = Some 0%nat
  /\ fst (getOrSetAsync 1 "k" 2%nat ReturnsPromise
            {| optTtlMs := None; force := true |} st) = ReturnsPromiseOf 0%nat
  /\ fetcherCalls (snd (getOrSetAsync 1 "k" 2%nat ReturnsPromise
            {| optTtlMs := None; force := true |} st)) = [1%nat].
Proof.
  intros st. split; [reflexivity|].
  destruct (force_joins_fetch_in_flight 1 "k" 2%nat ReturnsPromise None 0%nat st)
    as (H1 & H2 & H3); [reflexivity|].
  split; [exact H1 | rewrite H3; reflexivity].
Defined.

(** ** Batching *)

Lemma Quiet_refl st : Quiet st st.
Proof. split; auto. Qed.

Lemma Quiet_trans st1 st2 st3 : Quiet st1 st2 -> Quiet st2 st3 -> Quiet st1 st3.
Proof.
  intros [Hd1 H1] [Hd2 H2]. split; [congruence|].
  intros Hpos. destruct (H1 Hpos) as (Ht1 & Hr1 & Hn1).
  rewrite <- Hd1 in Hpos. destruct (H2 Hpos) as (Ht2 & Hr2 & Hn2).
  repeat split; try congruence. auto.
Qed.

Lemma Quiet_of_notifPart st st' : notifPart st' = notifPart st -> Quiet st st'.
Proof.
  unfold notifPart. intros [= Hd Hk Hr Ht].
  split; [exact Hd|]. intros _. rewrite Ht, Hr, Hk. auto.
Qed.

Lemma NoDup_snoc {A : Type} (x : A) (l : list A) :
  ~ In x l -> List.NoDup l -> List.NoDup (l ++ [x]).
Proof.
  induction l as [|y l IH]; intros Hx Hnd; simpl.
  - constructor; [intros []|constructor].
  - inversion Hnd as [|y' l' Hy Hl]; subst. constructor.
    + intros Hin. apply in_app_or in Hin as [Hin|[Heq|[]]]; [contradiction|].
      apply Hx. now left.
    + apply IH; [|exact Hl]. intros Hin. apply Hx. now right.
Qed.

Lemma JsSet_add_NoDup (k : string) (s : list string) :
  List.NoDup s -> List.NoDup (JsSet.add String.eqb k s).
Proof.
  intros Hnd. unfold JsSet.add, JsSet.mem.
  destruct (existsb (String.eqb k) s) eqn:E; [exact Hnd|].
  apply NoDup_snoc; [|exact Hnd].
  intros Hin. assert (existsb (String.eqb k) s = true); [|congruence].
  apply existsb_exists. exists k. split; [exact Hin | apply String.eqb_refl].
Qed.

Lemma queueEmitKey_Quiet k st : Quiet st (queueEmitKey k st).
Proof.
  unfold queueEmitKey, Quiet.
  destruct (0 <? batchDepth st)%nat eqn:E.
  - split; [reflexivity|]. intros _. cbn. repeat split. apply JsSet_add_NoDup.
  - split; [reflexivity|]. intros Hpos. apply Nat.ltb_lt in Hpos. congruence.
Qed.

Lemma setInternal_Quiet k e st : Quiet st (setInternal k e st).
Proof.
  unfold setInternal.
  destruct e as [e|]; [destruct (nonPositiveTtl e)|]; cbv zeta;
    (eapply Quiet_trans; [|apply queueEmitKey_Quiet]);
    apply Quiet_of_notifPart; reflexivity.
Qed.

Lemma pruneLoop_notifPart now n : forall read write arr st,
  notifPart (snd (pruneLoop now n read write arr st)) = notifPart st
  /\ listenersPart (snd (pruneLoop now n read write arr st)) = listenersPart st
  /\ asyncPart (snd (pruneLoop now n read write arr st)) = asyncPart st
  /\ readyPart (snd (pruneLoop now n read write arr st)) = readyPart st.
Proof.
  induction n as [|n IH]; intros read write arr st; [repeat split|].
  cbn [pruneLoop].
  destruct (arr !! read) as [k|]; [|repeat split].
  destruct (JsMap.get k (mirror st)) as [e|].
  - destruct (Ttl.isAlive now (Some e)); [apply IH|].
    destruct (IH (S read) write arr (dropKey k st)) as (H1 & H2 & H3 & H4).
    rewrite H1, H2, H3, H4. repeat split.
  - destruct (IH (S read) write arr (invalidateKeyCachesForMutation k st))
      as (H1 & H2 & H3 & H4).
    rewrite H1, H2, H3, H4. repeat split.
Qed.

Lemma pruneListInPlace_frame now arr st :
  notifPart (snd (pruneListInPlace now arr st)) = notifPart st
  /\ listenersPart (snd (pruneListInPlace now arr st)) = listenersPart st
  /\ asyncPart (snd (pruneListInPlace now arr st)) = asyncPart st
  /\ readyPart (snd (pruneListInPlace now arr st)) = readyPart st.
Proof.
  unfold pruneListInPlace.
  pose proof (pruneLoop_notifPart now (length arr) 0 0 arr st) as H.
  destruct (pruneLoop now (length arr) 0 0 arr st) as [[l w] st']. exact H.
Qed.

Lemma computeLoop_frame now prefix entries : forall out st,
  notifPart (snd (computeLoop now prefix entries out st)) = notifPart st
  /\ listenersPart (snd (computeLoop now prefix entries out st)) = listenersPart st
  /\ asyncPart (snd (computeLoop now prefix entries out st)) = asyncPart st
  /\ readyPart (snd (computeLoop now prefix entries out st)) = readyPart st.
Proof.
  induction entries as [|[k e] rest IH]; intros out st; [repeat split|].
  cbn [computeLoop].
  destruct (negb (inScope prefix k)); [apply IH|].
  destruct (negb (Ttl.isAlive now (Some e))); [|apply IH].
  destruct (IH out (dropKey k st)) as (H1 & H2 & H3 & H4).
  rewrite H1, H2, H3, H4. repeat split.
Qed.

Lemma getCachedKeys_frame now prefix st :
  notifPart (snd (getCachedKeys now prefix st)) = notifPart st
  /\ listenersPart (snd (getCachedKeys now prefix st)) = listenersPart st
  /\ asyncPart (snd (getCachedKeys now prefix st)) = asyncPart st
  /\ readyPart (snd (getCachedKeys now prefix st)) = readyPart st.
Proof.
  assert (Hall : forall s,
    notifPart (snd (getCachedAllKeys now s)) = notifPart s
    /\ listenersPart (snd (getCachedAllKeys now s)) = listenersPart s
    /\ asyncPart (snd (getCachedAllKeys now s)) = asyncPart s
    /\ readyPart (snd (getCachedAllKeys now s)) = readyPart s).
  { intros s. unfold getCachedAllKeys, computeKeysForPrefix.
    destruct (negb (KeyListCache.valid (allKeysCache s))).
    - pose proof (computeLoop_frame now None (mirror s) [] s) as H.
      destruct (computeLoop now None (mirror s) [] s) as [ks s1].
      cbn [snd] in *. exact H.
    - pose proof (pruneListInPlace_frame now (KeyListCache.keys (allKeysCache s)) s) as H.
      destruct (pruneListInPlace now (KeyListCache.keys (allKeysCache s)) s) as [ks s1].
      cbn [snd] in *. exact H. }
  unfold getCachedKeys. destruct prefix as [p|]; [|apply Hall].
  destruct (String.eqb p ""); [apply Hall|].
  unfold getCachedPrefixKeys, computeKeysForPrefix. cbv zeta.
  set (st0 := match JsMap.get p (prefixKeysCache st) with
              | Some _ => st
              | None => with_prefixKeysCache _ st
              end).
  assert (H0 : notifPart st0 = notifPart st /\ listenersPart st0 = listenersPart st
               /\ asyncPart st0 = asyncPart st /\ readyPart st0 = readyPart st).
  { subst st0. destruct (JsMap.get p (prefixKeysCache st)); repeat split. }
  destruct H0 as (E1 & E2 & E3 & E4). rewrite <- E1, <- E2, <- E3, <- E4.
  match goal with |- context [if ?b then _ else _] => destruct b end.
  - pose proof (computeLoop_frame now (Some p) (mirror st0) [] st0) as H.
    destruct (computeLoop now (Some p) (mirror st0) [] st0) as [ks s1].
    cbn [snd] in *. exact H.
  - match goal with |- context [pruneListInPlace now ?l st0] =>
      pose proof (pruneListInPlace_frame now l st0) as H;
      destruct (pruneListInPlace now l st0) as [ks s1] end.
    cbn [snd] in *. exact H.
Qed.

Lemma getEntry_frame now key st :
  notifPart (snd (getEntry now key st)) = notifPart st
  /\ listenersPart (snd (getEntry now key st)) = listenersPart st
  /\ asyncPart (snd (getEntry now key st)) = asyncPart st
  /\ readyPart (snd (getEntry now key st)) = readyPart st.
Proof.
  pose proof (getEntry_cases now key st) as Hc.
  destruct (JsMap.get key (mirror st)) as [e|]; [|rewrite Hc; repeat split].
  destruct (Ttl.isAlive now (Some e)); rewrite Hc; repeat split.
Qed.

Lemma get_frame now key st :
  notifPart (snd (Store.get now key st)) = notifPart st
  /\ listenersPart (snd (Store.get now key st)) = listenersPart st
  /\ asyncPart (snd (Store.get now key st)) = asyncPart st
  /\ readyPart (snd (Store.get now key st)) = readyPart st.
Proof.
  unfold Store.get. pose proof (getEntry_frame now key st) as H.
  destruct (getEntry now key st) as [e s]. exact H.
Qed.

Lemma has_frame now key st :
  notifPart (snd (Store.has now key st)) = notifPart st
  /\ listenersPart (snd (Store.has now key st)) = listenersPart st
  /\ asyncPart (snd (Store.has now key st)) = asyncPart st
  /\ readyPart (snd (Store.has now key st)) = readyPart st.
Proof.
  unfold Store.has. pose proof (getEntry_frame now key st) as H.
  destruct (getEntry now key st) as [e s]. exact H.
Qed.

Lemma queueEmitKeys_Quiet ks : forall st, Quiet st (Store.queueEmitKeys ks st).
Proof.
  unfold Store.queueEmitKeys.
  induction ks as [|k ks IH]; intros st; [apply Quiet_refl|].
  cbn [fold_left]. eapply Quiet_trans; [apply queueEmitKey_Quiet | apply IH].
Qed.

Lemma queueEmitKeys_frame ks : forall st,
  dataPart (Store.queueEmitKeys ks st) = dataPart st
  /\ listenersPart (Store.queueEmitKeys ks st) = listenersPart st
  /\ asyncPart (Store.queueEmitKeys ks st) = asyncPart st
  /\ readyPart (Store.queueEmitKeys ks st) = readyPart st.
Proof.
  unfold Store.queueEmitKeys.
  induction ks as [|k ks IH]; intros st; [repeat split|].
  cbn [fold_left].
  destruct (IH (queueEmitKey k st)) as (H1 & H2 & H3 & H4).
  destruct (queueEmitKey_frame k st) as (G1 & G2 & G3 & G4 & _).
  rewrite H1, H2, H3, H4, G1, G2, G3, G4. repeat split.
Qed.

Lemma driverRemoveEach_frame ks : forall st,
  notifPart (Store.driverRemoveEach ks st) = notifPart st
  /\ listenersPart (Store.driverRemoveEach ks st) = listenersPart st
  /\ asyncPart (Store.driverRemoveEach ks st) = asyncPart st
  /\ readyPart (Store.driverRemoveEach ks st) = readyPart st
  /\ mirror (Store.driverRemoveEach ks st) = mirror st
  /\ allKeysCache (Store.driverRemoveEach ks st) = allKeysCache st
  /\ prefixKeysCache (Store.driverRemoveEach ks st) = prefixKeysCache st.
Proof.
  unfold Store.driverRemoveEach.
  induction ks as [|k ks IH]; intros st; [repeat split|].
  cbn [fold_left].
  destruct (IH (driverCall (DriverRemove k) st)) as (H1 & H2 & H3 & H4 & H5 & H6 & H7).
  rewrite H1, H2, H3, H4, H5, H6, H7. repeat split.
Qed.

Lemma invalidateForKeys_frame ks : forall st,
  notifPart (fold_left (fun s k => invalidatePrefixCachesForKey k s) ks st) = notifPart st
  /\ listenersPart (fold_left (fun s k => invalidatePrefixCachesForKey k s) ks st)
     = listenersPart st
  /\ asyncPart (fold_left (fun s k => invalidatePrefixCachesForKey k s) ks st) = asyncPart st
  /\ readyPart (fold_left (fun s k => invalidatePrefixCachesForKey k s) ks st) = readyPart st
  /\ mirror (fold_left (fun s k => invalidatePrefixCachesForKey k s) ks st) = mirror st
  /\ allKeysCache (fold_left (fun s k => invalidatePrefixCachesForKey k s) ks st)
     = allKeysCache st.
Proof.
  induction ks as [|k ks IH]; intros st; [repeat split|].
  cbn [fold_left].
  destruct (IH (invalidatePrefixCachesForKey k st)) as (H1 & H2 & H3 & H4 & H5 & H6).
  rewrite H1, H2, H3, H4, H5, H6. repeat split.
Qed.

Lemma SyncStep_refl st : SyncStep st st.
Proof. split; [apply Quiet_refl | split; reflexivity]. Qed.

Lemma SyncStep_trans st1 st2 st3 :
  SyncStep st1 st2 -> SyncStep st2 st3 -> SyncStep st1 st3.
Proof.
  intros (Q1 & A1 & R1) (Q2 & A2 & R2).
  split; [eapply Quiet_trans; eauto|]. split; congruence.
Qed.

Lemma SyncStep_of_frame st st' :
  notifPart st' = notifPart st /\ listenersPart st' = listenersPart st
  /\ asyncPart st' = asyncPart st /\ readyPart st' = readyPart st ->
  SyncStep st st'.
Proof.
  intros (H1 & _ & H3 & H4). split; [now apply Quiet_of_notifPart|]. auto.
Qed.

Lemma SyncStep_of_parts st st' :
  notifPart st' = notifPart st -> asyncPart st' = asyncPart st ->
  readyPart st' = readyPart st -> SyncStep st st'.
Proof. intros H1 H3 H4. split; [now apply Quiet_of_notifPart|]. auto. Qed.

Lemma setInternal_SyncStep k e st : SyncStep st (setInternal k e st).
Proof.
  destruct (setInternal_frame k e st) as (_ & Ha & Hr & _).
  split; [apply setInternal_Quiet|]. auto.
Qed.

Lemma queueEmitKeys_SyncStep ks st : SyncStep st (Store.queueEmitKeys ks st).
Proof.
  destruct (queueEmitKeys_frame ks st) as (_ & _ & Ha & Hr).
  split; [apply queueEmitKeys_Quiet|]. auto.
Qed.

Lemma keys_SyncStep now prefix st : SyncStep st (snd (Store.keys now prefix st)).
Proof. apply SyncStep_of_frame, getCachedKeys_frame. Qed.

Lemma clear_SyncStep now prefix st : SyncStep st (Store.clear now prefix st).
Proof.
  unfold Store.clear.
  destruct (if truthy prefix then prefix else None) as [p|].
  - pose proof (keys_SyncStep now (Some p) st) as Hk.
    destruct (Store.keys now (Some p) st) as [ks st1]. cbn [snd] in Hk. cbv zeta.
    eapply SyncStep_trans; [exact Hk|].
    eapply SyncStep_trans; [|apply queueEmitKeys_SyncStep].
    apply SyncStep_of_frame.
    match goal with |- context [fold_left _ ks ?s] =>
      destruct (invalidateForKeys_frame ks s) as (H1 & H2 & H3 & H4 & _) end.
    rewrite H1, H2, H3, H4.
    unfold invalidatePrefixCache.
    match goal with |- context [match ?x with Some _ => _ | None => _ end] =>
      destruct x end;
    cbn [driver with_mirror];
    destruct (clearPrefix (driver st1)); [| destruct (removeMany (driver st1)) | |
      destruct (removeMany (driver st1))];
    try (repeat split; fail);
    match goal with |- context [Store.driverRemoveEach ks ?s] =>
      destruct (driverRemoveEach_frame ks s) as (G1 & G2 & G3 & G4 & _) end;
    cbn; cbn in G1, G2, G3, G4;
    unfold notifPart, listenersPart, asyncPart, readyPart in *; cbn;
    injection G1 as -> -> -> ->; injection G2 as -> -> -> ->;
    injection G3 as -> -> -> -> ->; injection G4 as -> -> -> -> ->;
    repeat split.
  - pose proof (keys_SyncStep now None st) as Hk.
    destruct (Store.keys now None st) as [ks st1]. cbn [snd] in Hk. cbv zeta.
    eapply SyncStep_trans; [exact Hk|].
    eapply SyncStep_trans; [|apply queueEmitKeys_SyncStep].
    apply SyncStep_of_frame.
    destruct (removeMany (driver st1)); [repeat split|].
    destruct (driverRemoveEach_frame ks st1) as (G1 & G2 & G3 & G4 & _).
    unfold notifPart, listenersPart, asyncPart, readyPart in *; cbn.
    injection G1 as -> -> -> ->; injection G2 as -> -> -> ->;
    injection G3 as -> -> -> -> ->; injection G4 as -> -> -> -> ->;
    repeat split.
Qed.

Lemma touch_SyncStep now key ttl st : SyncStep st (Store.touch now key ttl st).
Proof.
  unfold Store.touch.
  pose proof (getEntry_frame now key st) as H.
  destruct (getEntry now key st) as [e st1]. cbn [snd] in H.
  apply SyncStep_of_frame in H.
  destruct e as [e|]; [|exact H].
  eapply SyncStep_trans; [exact H | apply setInternal_SyncStep].
Qed.

Lemma exec_SyncStep now c st : SyncStep st (snd (exec now c st)).
Proof.
  destruct c as [key|key|key v ttl|key|prefix|prefix|key ttl|key|
                 |key cb|key cb|p cb|p cb|cb|cb|cb|cb]; cbn [exec].
  - pose proof (get_frame now key st) as H.
    destruct (Store.get now key st). now apply SyncStep_of_frame.
  - pose proof (has_frame now key st) as H.
    destruct (Store.has now key st). now apply SyncStep_of_frame.
  - apply setInternal_SyncStep.
  - apply setInternal_SyncStep.
  - pose proof (keys_SyncStep now prefix st) as H.
    destruct (Store.keys now prefix st). exact H.
  - apply clear_SyncStep.
  - apply touch_SyncStep.
  - destruct (queueEmitKey_frame key st) as (_ & _ & Ha & Hr & _).
    split; [apply queueEmitKey_Quiet | auto].
  - apply SyncStep_refl.
  - apply SyncStep_of_parts; reflexivity.
  - cbn [snd]. unfold Store.unsubscribeKey.
    destruct (JsMap.get key (keyListeners st)); [|apply SyncStep_refl].
    destruct (JsSet.delete Nat.eqb cb l); apply SyncStep_of_parts; reflexivity.
  - apply SyncStep_of_parts; reflexivity.
  - cbn [snd]. unfold Store.unsubscribePrefix.
    destruct (JsMap.get p (prefixListeners st)); [|apply SyncStep_refl].
    destruct (JsSet.delete Nat.eqb cb l); apply SyncStep_of_parts; reflexivity.
  - apply SyncStep_of_parts; reflexivity.
  - apply SyncStep_of_parts; reflexivity.
  - apply SyncStep_of_parts; reflexivity.
  - apply SyncStep_of_parts; reflexivity.
Qed.

(** The [finally] block of a batch that is not the outermost one. *)
Lemma batchFinally_inner st :
  (1 < batchDepth st)%nat ->
  batchFinally st = with_batchDepth (Nat.pred (batchDepth st)) st.
Proof.
  intros Hd. unfold batchFinally. cbn [batchDepth with_batchDepth].
  destruct (Nat.pred (batchDepth st) =? 0)%nat eqn:E; [|reflexivity].
  apply Nat.eqb_eq in E. lia.
Qed.

Lemma emitAll_frame ks : forall st,
  dataPart (emitAll ks st) = dataPart st
  /\ listenersPart (emitAll ks st) = listenersPart st
  /\ asyncPart (emitAll ks st) = asyncPart st
  /\ readyPart (emitAll ks st) = readyPart st
  /\ batchDepth (emitAll ks st) = batchDepth st
  /\ pendingKeys (emitAll ks st) = pendingKeys st
  /\ pendingReadyEmit (emitAll ks st) = pendingReadyEmit st.
Proof.
  unfold emitAll. induction ks as [|k ks IH]; intros st; [repeat split|].
  cbn [fold_left].
  destruct (IH (emitNow k st)) as (H1 & H2 & H3 & H4 & H5 & H6 & H7).
  rewrite H1, H2, H3, H4, H5, H6, H7. repeat split.
Qed.

Lemma batchFinally_frame st :
  asyncPart (batchFinally st) = asyncPart st
  /\ readyPart (batchFinally st) = readyPart st
  /\ dataPart (batchFinally st) = dataPart st
  /\ listenersPart (batchFinally st) = listenersPart st
  /\ batchDepth (batchFinally st) = Nat.pred (batchDepth st).
Proof.
  unfold batchFinally. cbv zeta.
  match goal with |- context [if ?b then _ else _] => destruct b end;
    [|repeat split].
  match goal with |- context [emitAll ?ks ?s] =>
    destruct (emitAll_frame ks s) as (H1 & H2 & H3 & H4 & H5 & H6 & H7);
    generalize dependent (emitAll ks s) end.
  intros s1 H1 H2 H3 H4 H5 H6 H7.
  unfold asyncPart, readyPart, dataPart, listenersPart in *.
  cbn in H1, H2, H3, H4, H5.
  injection H1 as D1 D2 D3 D4. injection H2 as L1 L2 L3 L4.
  injection H3 as A1 A2 A3 A4 A5. injection H4 as R1 R2 R3 R4 R5.
  destruct (pendingReadyEmit s1); cbn; repeat split; congruence.
Qed.

(** Caller code is a [SyncStep], nested batches included. *)
Lemma run_SyncStep (p : Prog) : forall st, SyncStep st (fst (run p st)).
Proof.
  induction p as [| | now c k IH | fn IHfn onR IHr onT IHt]; intros st.
  - apply SyncStep_refl.
  - apply SyncStep_refl.
  - cbn [run]. pose proof (exec_SyncStep now c st) as He.
    destruct (exec now c st) as [r st']. cbn [snd] in He.
    eapply SyncStep_trans; [exact He | apply IH].
  - cbn [run]. pose proof (IHfn (enterBatch st)) as Hfn.
    destruct (run fn (enterBatch st)) as [st1 c]. cbn [fst] in Hfn.
    assert (Hb : SyncStep st (batchFinally st1)).
    { destruct Hfn as ((Hd & Hq) & Ha & Hr).
      destruct (batchFinally_frame st1) as (Fa & Fr & _ & _ & Fd).
      split; [|split; [rewrite Fa, Ha | rewrite Fr, Hr]; reflexivity].
      split; [rewrite Fd, Hd; reflexivity|].
      intros Hpos.
      destruct Hq as (Ht & Hp & Hn); [cbn; lia|].
      rewrite batchFinally_inner by (rewrite Hd; cbn; lia).
      cbn. rewrite Ht, Hp. repeat split. exact Hn. }
    destruct c; (eapply SyncStep_trans; [exact Hb|]); [apply IHr | apply IHt].
Qed.

Lemma notifiedKeys_app l1 l2 :
  notifiedKeys (l1 ++ l2) = notifiedKeys l1 ++ notifiedKeys l2.
Proof. unfold notifiedKeys. now rewrite map_app, concat_app. Qed.

Lemma notifiedKeys_calls (f : Listener -> Event) (cbs : list Listener) :
  (forall cb, exists arg, f cb = Call cb arg) ->
  notifiedKeys (List.map f cbs) = [].
Proof.
  intros Hf. induction cbs as [|cb cbs IH]; [reflexivity|].
  change (List.map f (cb :: cbs)) with ([f cb] ++ List.map f cbs).
  rewrite notifiedKeys_app, IH. destruct (Hf cb) as [arg ->]. reflexivity.
Qed.

Lemma notifiedKeys_listenerCalls k st : notifiedKeys (listenerCalls k st) = [].
Proof.
  unfold listenerCalls. rewrite !notifiedKeys_app.
  rewrite !notifiedKeys_calls by (intros cb; eexists; reflexivity).
  cbn [app]. rewrite app_nil_r.
  induction (prefixListeners st) as [|[p s] r IH]; [reflexivity|].
  cbn [List.map List.concat fst snd]. rewrite notifiedKeys_app, IH, app_nil_r.
  destruct (startsWith k p); [|reflexivity].
  apply notifiedKeys_calls. intros cb; eexists; reflexivity.
Qed.

Lemma readyNotifications_app l1 l2 :
  readyNotifications (l1 ++ l2) = (readyNotifications l1 + readyNotifications l2)%nat.
Proof. unfold readyNotifications. now rewrite List.filter_app, List.length_app. Qed.

Lemma readyNotifications_calls (f : Listener -> Event) (cbs : list Listener) :
  (forall cb, exists arg, f cb = Call cb arg) ->
  readyNotifications (List.map f cbs) = 0%nat.
Proof.
  intros Hf. induction cbs as [|cb cbs IH]; [reflexivity|].
  change (List.map f (cb :: cbs)) with ([f cb] ++ List.map f cbs).
  rewrite readyNotifications_app, IH. destruct (Hf cb) as [arg ->]. reflexivity.
Qed.

Lemma readyNotifications_listenerCalls k st :
  readyNotifications (listenerCalls k st) = 0%nat.
Proof.
  unfold listenerCalls. rewrite !readyNotifications_app.
  rewrite !readyNotifications_calls by (intros cb; eexists; reflexivity).
  rewrite Nat.add_0_r. cbn [Nat.add].
  induction (prefixListeners st) as [|[p s] r IH]; [reflexivity|].
  cbn [List.map List.concat fst snd]. rewrite readyNotifications_app, IH, Nat.add_0_r.
  destruct (startsWith k p); [|reflexivity].
  apply readyNotifications_calls. intros cb; eexists; reflexivity.
Qed.

(** The flush of a batch: one run of [emitNow] per pending key, in the
    order the keys were queued. *)
Lemma emitAll_trace ks : forall st,
  exists evs, trace (emitAll ks st) = trace st ++ evs
              /\ notifiedKeys evs = ks
              /\ readyNotifications evs = 0%nat.
Proof.
  unfold emitAll. induction ks as [|k ks IH]; intros st; cbn [fold_left].
  - exists []. now rewrite app_nil_r.
  - destruct (IH (emitNow k st)) as (evs & Ht & Hk & Hr).
    exists ((Notify k :: listenerCalls k st) ++ evs).
    rewrite Ht. cbn [emitNow trace with_trace]. rewrite <- app_assoc.
    split; [reflexivity|]. split.
    + rewrite notifiedKeys_app, Hk.
      change (Notify k :: listenerCalls k st) with ([Notify k] ++ listenerCalls k st).
      rewrite notifiedKeys_app, notifiedKeys_listenerCalls. reflexivity.
    + rewrite readyNotifications_app, Hr.
      change (Notify k :: listenerCalls k st) with ([Notify k] ++ listenerCalls k st).
      rewrite readyNotifications_app, readyNotifications_listenerCalls. reflexivity.
Qed.

Lemma deliveredSince_app st st' evs :
  trace st' = trace st ++ evs -> deliveredSince st st' = evs.
Proof. intros H. unfold deliveredSince. rewrite H. apply drop_app_length. Qed.

(** C3 (as amended): whatever [fn] does, and whether it returns or throws,
    a [batch(fn)] called outside any batch delivers nothing while [fn] runs;
    its [finally] block, which runs after [fn] is over and before the call
    of [batch] ends, brings [batchDepth] back to 0 and runs [emitNow] once
    for each key queued during [fn] and for no other key, and it delivers at
    most one ready notification; when [fn] threw, [batch] rethrows after
    that. *)
Theorem batch_flushes_when_fn_is_over (fn : Prog) (st : State) :
  batchDepth st = 0%nat -> pendingKeys st = [] ->
  let mid := fst (run fn (enterBatch st)) in
  let fin := fst (batch fn st) in
  trace mid = trace st
  /\ snd (batch fn st) = snd (run fn (enterBatch st))
  /\ batchDepth fin = 0%nat
  /\ pendingKeys fin = []
  /\ pendingReadyEmit fin = false
  /\ notifiedKeys (deliveredSince st fin) = pendingKeys mid
  /\ List.NoDup (notifiedKeys (deliveredSince st fin))
  /\ (readyNotifications (deliveredSince st fin) <= 1)%nat.
Proof.
  intros Hd Hk mid fin. subst mid fin. unfold batch.
  pose proof (run_SyncStep fn (enterBatch st)) as ((Hd1 & Hq) & _).
  destruct (run fn (enterBatch st)) as [st1 c]. cbn [fst snd] in *.
  destruct Hq as (Ht & Hr & Hn); [cbn; lia|].
  cbn in Hd1, Ht, Hr, Hn. rewrite Hd in Hd1.
  specialize (Hn ltac:(rewrite Hk; constructor)).
  split; [exact Ht|]. split; [reflexivity|].
  unfold batchFinally. cbv zeta. cbn [batchDepth with_batchDepth].
  rewrite Hd1. cbn [Nat.pred Nat.eqb].
  match goal with |- context [emitAll ?ks ?s] =>
    destruct (emitAll_frame ks s) as (_ & _ & _ & _ & F5 & F6 & F7);
    destruct (emitAll_trace ks s) as (evs & E1 & E2 & E3);
    generalize dependent (emitAll ks s) end.
  intros s1 F5 F6 F7 E1. cbn in F5, F6, F7, E1. rewrite Ht in E1.
  destruct (pendingReadyEmit s1) eqn:Hp; cbn.
  - rewrite F5, F6. repeat split.
    + erewrite deliveredSince_app
        by (cbn; rewrite E1, <- app_assoc; reflexivity).
      rewrite notifiedKeys_app, E2.
      change (NotifyReady :: ?l) with ([NotifyReady] ++ l).
      rewrite notifiedKeys_app, notifiedKeys_calls
        by (intros cb; eexists; reflexivity).
      cbn. now rewrite app_nil_r.
    + erewrite deliveredSince_app
        by (cbn; rewrite E1, <- app_assoc; reflexivity).
      rewrite notifiedKeys_app, E2.
      change (NotifyReady :: ?l) with ([NotifyReady] ++ l).
      rewrite notifiedKeys_app, notifiedKeys_calls
        by (intros cb; eexists; reflexivity).
      cbn. now rewrite app_nil_r.
    + erewrite deliveredSince_app
        by (cbn; rewrite E1, <- app_assoc; reflexivity).
      rewrite readyNotifications_app, E3.
      change (NotifyReady :: ?l) with ([NotifyReady] ++ l).
      rewrite readyNotifications_app, readyNotifications_calls
        by (intros cb; eexists; reflexivity).
      cbn. lia.
  - rewrite F5, F6, (deliveredSince_app st s1 evs E1), E2, E3.
    repeat split; auto.
Qed.

Lemma batch_flushes_when_fn_is_over_witness :
  let st := Store.subscribeKey "a" 1%nat
              (emptyState (Build_CacheDriver false false false) true) in
  let fn := PCall 1 (CSet "a" (VNum 1) None) (fun _ =>
            PCall 2 (CSet "b" (VNum 2) None) (fun _ =>
            PCall 3 (CRemove "a") (fun _ => PThrow))) in
  batchDepth st = 0%nat /\ pendingKeys st = []
  /\ trace (fst (run fn (enterBatch st))) = trace st
  /\ batchDepth (fst (batch fn st)) = 0%nat
  /\ notifiedKeys (deliveredSince st (fst (batch fn st))) = ["a"; "b"].
Proof.
  intros st fn.
  destruct (batch_flushes_when_fn_is_over fn st eq_refl eq_refl)
    as (H1 & _ & H3 & _ & _ & H6 & _).
  split; [reflexivity|]. split; [reflexivity|].
  split; [exact H1|]. split; [exact H3|]. rewrite H6. reflexivity.
Defined.

(** C3, as stated, fails on when the notifications are delivered: they are
    delivered by the call of [batch] itself, in its [finally] block, so when
    the call is over the listeners have already been called.  Here
    [set(a)], [set(b)], [remove(a)], [set(a)] run in one batch with a
    listener on [a]. *)
Lemma batch_delivers_before_it_returns :
  let st := Store.subscribeKey "a" 1%nat
              (emptyState (Build_CacheDriver false false false) true) in
  let fn := PCall 1 (CSet "a" (VNum 1) None) (fun _ =>
            PCall 2 (CSet "b" (VNum 2) None) (fun _ =>
            PCall 3 (CRemove "a") (fun _ =>
            PCall 4 (CSet "a" (VNum 3) None) (fun _ => PRet)))) in
  deliveredSince st (fst (batch fn st)) = [Notify "a"; Call 1%nat None; Notify "b"]
  /\ ~ deliversAfterCall fn st.
Proof.
  cbv zeta. split; [reflexivity|].
  unfold deliversAfterCall. vm_compute. discriminate.
Qed.

(** ** Readiness *)

Lemma getOrSetAsync_readyPart now key f beh opts st :
  readyPart (snd (getOrSetAsync now key f beh opts st)) = readyPart st.
Proof.
  unfold getOrSetAsync.
  assert (H : readyPart (snd (if force opts then (VUndefined, st)
                              else Store.get now key st)) = readyPart st).
  { destruct (force opts); [reflexivity|]. apply get_frame. }
  destruct (if force opts then (VUndefined, st) else Store.get now key st)
    as [cached st1]. cbn [snd] in H.
  destruct (negb (force opts) && negb (isUndefined cached)); [exact H|].
  destruct (JsMap.get key (inFlight st1)); [exact H|].
  destruct beh; cbn; exact H.
Qed.

Lemma fetchSettles_readyPart now p outcome st :
  readyPart (fetchSettles now p outcome st) = readyPart st.
Proof.
  unfold fetchSettles. destruct (findTask p (awaiting st)) as [t|]; [|reflexivity].
  destruct outcome as [v|err]; [|reflexivity].
  cbv zeta. unfold Store.set. cbn [readyPart settle with_settled with_inFlight
    ready readyP hydrating driver cleanupExpiredOnHydrate].
  match goal with |- context [setInternal ?k ?e ?s] =>
    destruct (setInternal_frame k e s) as (_ & _ & Hr & _) end.
  exact Hr.
Qed.

Lemma installRows_frame now rows : forall toDelete st,
  notifPart (snd (installRows now rows toDelete st)) = notifPart st
  /\ listenersPart (snd (installRows now rows toDelete st)) = listenersPart st
  /\ asyncPart (snd (installRows now rows toDelete st)) = asyncPart st
  /\ readyPart (snd (installRows now rows toDelete st)) = readyPart st.
Proof.
  induction rows as [|[k [e|]] rest IH]; intros toDelete st; cbn [installRows];
    [repeat split| |apply IH].
  destruct (cleanupExpiredOnHydrate st && negb (Ttl.isAlive now (Some e)));
    [apply IH|].
  destruct (IH toDelete (with_mirror (JsMap.set k e (mirror st)) st))
    as (H1 & H2 & H3 & H4).
  rewrite H1, H2, H3, H4. repeat split.
Qed.

Lemma queueEmitReady_ready st :
  ready (queueEmitReady st) = ready st
  /\ readyP (queueEmitReady st) = readyP st
  /\ hydrating (queueEmitReady st) = hydrating st.
Proof. unfold queueEmitReady. destruct (0 <? batchDepth st)%nat; repeat split. Qed.

(** What the end of hydration does to readiness, whatever else it does. *)
Lemma hydrationSettles_ready now outcome st :
  hydrating st = true -> readyP st = None ->
  let st' := hydrationSettles now outcome st in
  hydrating st' = false /\ ready st' = true
  /\ readyP st' = Some (match outcome with
                        | DriverFailed err => Rejected err
                        | Rows _ => Fulfilled VUndefined
                        end).
Proof.
  intros Hh Hp st'. subst st'. unfold hydrationSettles. rewrite Hh. cbn [negb].
  cbv zeta. destruct outcome as [err|rows].
  - match goal with |- context [queueEmitReady ?s] =>
      destruct (queueEmitReady_ready s) as (-> & -> & ->) end.
    unfold settleReady. cbn. rewrite Hp. repeat split.
  - pose proof (installRows_frame now rows [] (enterBatch (with_hydrating false st)))
      as (_ & _ & _ & Hr).
    destruct (installRows now rows [] (enterBatch (with_hydrating false st)))
      as [toDelete st1]. cbn [snd] in Hr.
    destruct (batchFinally_frame st1) as (_ & Hr2 & _).
    rewrite Hr in Hr2. clear Hr.
    match goal with |- context [queueEmitReady ?s] =>
      destruct (queueEmitReady_ready s) as (-> & -> & ->) end.
    unfold settleReady.
    set (st3 := if _ : bool then _ else batchFinally st1).
    assert (H3 : readyPart st3 = readyPart (batchFinally st1)).
    { subst st3.
      destruct (cleanupExpiredOnHydrate (batchFinally st1)
                && negb (Nat.eqb (length toDelete) 0)); [|reflexivity].
      destruct (removeMany (driver (batchFinally st1))); [reflexivity|].
      apply driverRemoveEach_frame. }
    rewrite Hr2 in H3. unfold readyPart in H3. cbn in H3.
    injection H3 as R1 R2 R3 R4 R5.
    cbn. rewrite R2, Hp. cbn. repeat split. exact R3.
Qed.

Lemma hydrationSettles_once now outcome st :
  hydrating st = false -> hydrationSettles now outcome st = st.
Proof. intros H. unfold hydrationSettles. now rewrite H. Qed.

Lemma step_readyPart a st :
  hydrating st = false -> readyPart (step a st) = readyPart st.
Proof.
  intros Hh. destruct a as [p|now key f beh opts|now p outcome|now outcome];
    cbn [step].
  - apply run_SyncStep.
  - apply getOrSetAsync_readyPart.
  - apply fetchSettles_readyPart.
  - now rewrite hydrationSettles_once.
Qed.

Lemma createCache_coherent opts : ReadinessCoherent (createCache opts).
Proof.
  unfold createCache, ReadinessCoherent.
  destruct (negb (orTrue (opt_hydrate opts))); [right|left]; cbn; eauto.
Qed.

Lemma step_coherent a st : ReadinessCoherent st -> ReadinessCoherent (step a st).
Proof.
  intros [(Hh & Hr & Hp)|(Hh & Hr & s & Hp)].
  - assert (Hsame : forall st', readyPart st' = readyPart st ->
                                ReadinessCoherent st').
    { intros st' E. unfold readyPart in E. injection E as E1 E2 E3 _ _.
      left. rewrite E1, E2, E3. auto. }
    destruct a as [p|now key f beh opts|now p outcome|now outcome]; cbn [step].
    + apply Hsame, run_SyncStep.
    + apply Hsame, getOrSetAsync_readyPart.
    + apply Hsame, fetchSettles_readyPart.
    + destruct (hydrationSettles_ready now outcome st Hh Hp) as (H1 & H2 & H3).
      right. eauto.
  - pose proof (step_readyPart a st Hh) as E.
    unfold readyPart in E. injection E as E1 E2 E3 _ _.
    right. rewrite E1, E2, E3. eauto.
Qed.

Lemma steps_coherent h : forall st,
  ReadinessCoherent st -> ReadinessCoherent (steps h st).
Proof.
  unfold steps. induction h as [|a h IH]; intros st H; [exact H|].
  cbn [fold_left]. apply IH, step_coherent, H.
Qed.

Lemma steps_readyPart h : forall st,
  hydrating st = false -> readyPart (steps h st) = readyPart st.
Proof.
  unfold steps. induction h as [|a h IH]; intros st H; [reflexivity|].
  cbn [fold_left]. pose proof (step_readyPart a st H) as E.
  rewrite IH; [exact E|].
  unfold readyPart in E. injection E as _ _ E3 _ _. congruence.
Qed.

Lemma steps_pending_readyPart h : forall st,
  beforeHydrationEnds h = true -> readyPart (steps h st) = readyPart st.
Proof.
  unfold steps. induction h as [|a h IH]; intros st H; [reflexivity|].
  cbn [fold_left]. cbn [beforeHydrationEnds forallb] in H.
  apply andb_prop in H as [Ha Hh]. rewrite (IH _ Hh).
  destruct a as [p|now key f beh opts|now p outcome|now outcome];
    cbn [step]; [| | |discriminate].
  - apply run_SyncStep.
  - apply getOrSetAsync_readyPart.
  - apply fetchSettles_readyPart.
Qed.

(** C9: in every state [st] reached from [createCache(opts)], readiness is
    pending exactly while the hydration function is parked.  A cache made
    with hydration starts not ready, with its readiness promise pending, and
    stays so as long as the hydration function has not resumed, whatever
    else happens; one made without hydration is ready, with the promise
    fulfilled, from construction.  When hydration ends, [isReady()] becomes
    true and the readiness promise is fulfilled if the rows arrived and
    rejected with the driver's error if listing or fetching failed.  From
    then on, whatever happens ([after]), [isReady()] stays true, the
    readiness promise keeps its outcome, so every caller of [readyPromise()]
    sees the same one, and the hydration function does not run again. *)
Theorem readiness_settles_once
    (opts : CreateCacheOptions) (before after : list Action) :
  let st := steps before (createCache opts) in
  let st' := steps after st in
  ReadinessCoherent st
  /\ (Store.isReady st = true ->
      Store.isReady st' = true /\ Store.readyPromise st' = Store.readyPromise st)
  /\ (forall s, Store.readyPromise st = Some s -> Store.readyPromise st' = Some s)
  /\ (Store.isReady st = false ->
      forall now,
        (forall rows,
            Store.isReady (hydrationSettles now (Rows rows) st) = true
            /\ Store.readyPromise (hydrationSettles now (Rows rows) st)
               = Some (Fulfilled VUndefined))
        /\ (forall err,
            Store.isReady (hydrationSettles now (DriverFailed err) st) = true
            /\ Store.readyPromise (hydrationSettles now (DriverFailed err) st)
               = Some (Rejected err)))
  /\ (Store.isReady st = true ->
      forall now outcome, hydrationSettles now outcome st = st)
  /\ (opt_hydrate opts = Some false ->
      Store.isReady (createCache opts) = true
      /\ Store.readyPromise (createCache opts) = Some (Fulfilled VUndefined))
  /\ (orTrue (opt_hydrate opts) = true ->
      Store.isReady (createCache opts) = false
      /\ Store.readyPromise (createCache opts) = None
      /\ (beforeHydrationEnds before = true ->
          Store.isReady st = false
          /\ Store.readyPromise st = None
          /\ forall now,
               (forall rows,
                   Store.isReady (hydrationSettles now (Rows rows) st) = true
                   /\ Store.readyPromise (hydrationSettles now (Rows rows) st)
                      = Some (Fulfilled VUndefined))
               /\ (forall err,
                   Store.isReady (hydrationSettles now (DriverFailed err) st) = true
                   /\ Store.readyPromise (hydrationSettles now (DriverFailed err) st)
                      = Some (Rejected err)))).
Proof.
  intros st st'.
  pose proof (steps_coherent before _ (createCache_coherent opts)) as Hc.
  fold st in Hc. unfold Store.isReady, Store.readyPromise.
  split; [exact Hc|].
  assert (Hkeep : hydrating st = false -> ready st' = ready st /\ readyP st' = readyP st).
  { intros Hh. pose proof (steps_readyPart after st Hh) as E. fold st' in E.
    unfold readyPart in E. injection E as E1 E2 _ _ _. auto. }
  assert (Hends : ready st = false -> forall now,
            (forall rows,
                ready (hydrationSettles now (Rows rows) st) = true
                /\ readyP (hydrationSettles now (Rows rows) st)
                   = Some (Fulfilled VUndefined))
            /\ (forall err,
                ready (hydrationSettles now (DriverFailed err) st) = true
                /\ readyP (hydrationSettles now (DriverFailed err) st)
                   = Some (Rejected err))).
  { intros Hr now. destruct Hc as [(Hh & _ & Hp)|(_ & Hr' & _)]; [|congruence].
    split.
    + intros rows.
      destruct (hydrationSettles_ready now (Rows rows) st Hh Hp) as (_ & H2 & H3).
      auto.
    + intros err.
      destruct (hydrationSettles_ready now (DriverFailed err) st Hh Hp)
        as (_ & H2 & H3).
      auto. }
  split; [|split; [|split; [exact Hends|split; [|split]]]].
  - intros Hr. destruct Hc as [(_ & Hr' & _)|(Hh & _ & _)]; [congruence|].
    destruct (Hkeep Hh) as [E1 E2]. rewrite E1, E2. auto.
  - intros s Hs. destruct Hc as [(_ & _ & Hp)|(Hh & _ & _)]; [congruence|].
    destruct (Hkeep Hh) as [_ E2]. congruence.
  - intros Hr now outcome. destruct Hc as [(_ & Hr' & _)|(Hh & _ & _)]; [congruence|].
    now apply hydrationSettles_once.
  - intros Ho. unfold createCache. rewrite Ho. cbn. auto.
  - intros Ho.
    assert (E0 : createCache opts
                 = with_hydrating true
                     (emptyState (opt_driver opts)
                                 (orTrue (opt_cleanupExpiredOnHydrate opts)))).
    { unfold createCache. now rewrite Ho. }
    split; [now rewrite E0|]. split; [now rewrite E0|].
    intros Hb. pose proof (steps_pending_readyPart before (createCache opts) Hb) as E.
    fold st in E. unfold readyPart in E. injection E as E1 E2 _ _ _.
    rewrite E0 in E1, E2. cbn in E1, E2.
    split; [exact E1|]. split; [exact E2|]. now apply Hends.
Qed.

Lemma readiness_settles_once_witness :
  let opts := {| opt_driver := Build_CacheDriver true true false;
                 opt_hydrate := None;
                 opt_cleanupExpiredOnHydrate := None |} in
  let before := [ASync (PCall 0 (CSet "a" (VNum 1) None) (fun _ => PRet))] in
  let st := steps before (createCache opts) in
  Store.isReady st = false
  /\ Store.readyPromise st = None
  /\ Store.isReady (hydrationSettles 5 (DriverFailed (VStr "boom")) st) = true
  /\ Store.readyPromise (hydrationSettles 5 (DriverFailed (VStr "boom")) st)
     = Some (Rejected (VStr "boom"))
  /\ Store.readyPromise (hydrationSettles 5 (Rows []) st)
     = Some (Fulfilled VUndefined).
Proof.
  intros opts before st.
  destruct (readiness_settles_once opts before [])
    as (_ & _ & _ & _ & _ & _ & H).
  destruct (H eq_refl) as (_ & _ & H').
  destruct (H' eq_refl) as (H1 & H2 & H3).
  destruct (H3 5) as (Hrows & Herr).
  destruct (Herr (VStr "boom")) as (H4 & H5).
  destruct (Hrows []) as (_ & H6).
  repeat split; assumption.
Defined.

(** ** In-flight de-duplication *)

Lemma get_undefined_NoValue now key st :
  fst (Store.get now key st) = VUndefined ->
  NoValue key (snd (Store.get now key st)).
Proof.
  unfold Store.get, NoValue. pose proof (getEntry_cases now key st) as Hc.
  destruct (JsMap.get key (mirror st)) as [e|] eqn:Hget.
  - destruct (Ttl.isAlive now (Some e)); rewrite Hc; cbn [fst snd].
    + intros Hv. now rewrite Hget.
    + intros _. destruct (dropKey_data key st) as (-> & _).
      now rewrite get_delete_eq.
  - rewrite Hc. cbn [fst snd]. now rewrite Hget.
Qed.

Lemma NoValue_get now key st :
  NoValue key st ->
  fst (Store.get now key st) = VUndefined
  /\ NoValue key (snd (Store.get now key st)).
Proof.
  intros Hn.
  assert (H : fst (Store.get now key st) = VUndefined).
  { unfold Store.get. unfold NoValue in Hn.
    pose proof (getEntry_cases now key st) as Hc.
    destruct (JsMap.get key (mirror st)) as [e|]; [|now rewrite Hc].
    destruct (Ttl.isAlive now (Some e)); now rewrite Hc. }
  split; [exact H | now apply get_undefined_NoValue].
Qed.

Lemma asyncPart_fields st st' :
  asyncPart st' = asyncPart st ->
  inFlight st' = inFlight st /\ nextPromise st' = nextPromise st
  /\ awaiting st' = awaiting st /\ settled st' = settled st
  /\ fetcherCalls st' = fetcherCalls st.
Proof. unfold asyncPart. intros [= -> -> -> -> ->]. repeat split. Qed.

(** A call that finds a fetch in flight, and no value to return, joins it. *)
Lemma getOrSetAsync_joins now key f beh opts p st :
  JsMap.get key (inFlight st) = Some p -> NoValue key st ->
  fst (getOrSetAsync now key f beh opts st) = ReturnsPromiseOf p
  /\ asyncPart (snd (getOrSetAsync now key f beh opts st)) = asyncPart st
  /\ NoValue key (snd (getOrSetAsync now key f beh opts st)).
Proof.
  intros Hin Hn. unfold getOrSetAsync.
  destruct (force opts) eqn:Hf; cbn [negb andb].
  - rewrite Hin. auto.
  - destruct (NoValue_get now key st Hn) as [Hv Hn'].
    pose proof (get_frame now key st) as (_ & _ & Ha & _).
    destruct (Store.get now key st) as [cached st1]. cbn [fst snd] in *.
    subst cached. cbn [isUndefined negb].
    destruct (asyncPart_fields _ _ Ha) as (Hi & _). rewrite Hi, Hin. auto.
Qed.

Lemma callAll_joins key calls : forall p st,
  JsMap.get key (inFlight st) = Some p -> NoValue key st ->
  Forall (fun r => r = ReturnsPromiseOf p) (fst (callAll key calls st))
  /\ asyncPart (snd (callAll key calls st)) = asyncPart st
  /\ NoValue key (snd (callAll key calls st)).
Proof.
  induction calls as [|[[[now f] beh] opts] rest IH]; intros p st Hin Hn;
    cbn [callAll]; [auto|].
  destruct (getOrSetAsync_joins now key f beh opts p st Hin Hn) as (Hr & Ha & Hn1).
  destruct (getOrSetAsync now key f beh opts st) as [r st1]. cbn [fst snd] in *.
  destruct (asyncPart_fields _ _ Ha) as (Hi & _).
  destruct (IH p st1) as (Hrs & Ha2 & Hn2); [congruence | exact Hn1 |].
  destruct (callAll key rest st1) as [rs st2]. cbn [fst snd] in *.
  split; [constructor; auto|]. split; [congruence | exact Hn2].
Qed.

(** A call that finds nothing to return and nothing in flight calls its
    fetcher; when the fetcher returns a promise, the async function is
    parked and its promise is the in-flight entry of the key. *)
Lemma getOrSetAsync_starts now key f ttl frc st :
  JsMap.get key (inFlight st) = None ->
  (frc = true \/ fst (Store.get now key st) = VUndefined) ->
  let st0 := if frc then st else snd (Store.get now key st) in
  let p := nextPromise st in
  let call := getOrSetAsync now key f ReturnsPromise
                            {| optTtlMs := ttl; force := frc |} st in
  fst call = ReturnsPromiseOf p
  /\ inFlight (snd call) = JsMap.set key p (inFlight st)
  /\ nextPromise (snd call) = S p
  /\ awaiting (snd call)
     = awaiting st ++ [{| taskPromise := p; taskKey := key; taskTtl := ttl |}]
  /\ settled (snd call) = settled st
  /\ fetcherCalls (snd call) = fetcherCalls st ++ [f]
  /\ dataPart (snd call) = dataPart st0
  /\ notifPart (snd call) = notifPart st.
Proof.
  intros Hin Hmiss st0 p call. subst st0 p call. unfold getOrSetAsync.
  cbn [force optTtlMs]. destruct frc; cbn [negb andb].
  - rewrite Hin. cbn. repeat split.
  - destruct Hmiss as [|Hv]; [discriminate|].
    pose proof (get_frame now key st) as (Hnp & _ & Ha & _).
    destruct (Store.get now key st) as [cached st1]. cbn [fst snd] in *.
    subst cached. cbn [isUndefined negb].
    destruct (asyncPart_fields _ _ Ha) as (Hi & Hnx & Haw & Hs & Hf).
    rewrite Hi, Hin. cbn. rewrite Hi, Hnx, Haw, Hs, Hf.
    repeat split. exact Hnp.
Qed.

Lemma findTask_fresh p t l :
  taskPromise t = p ->
  Forall (fun t' => (taskPromise t' < p)%nat) l ->
  findTask p (l ++ [t]) = Some t.
Proof.
  intros Ht. induction l as [|t' l IH]; intros Hall; cbn.
  - now rewrite Ht, Nat.eqb_refl.
  - inversion Hall as [|x y Hx Hy]; subst.
    destruct (Nat.eqb (taskPromise t') (taskPromise t)) eqn:E.
    + apply Nat.eqb_eq in E. lia.
    + auto.
Qed.

Lemma settlementOf_fresh p s l :
  Forall (fun ps => (fst ps < p)%nat) l ->
  settlementOf p (l ++ [(p, s)]) = Some s.
Proof.
  induction l as [|[q s'] l IH]; intros Hall; cbn.
  - now rewrite Nat.eqb_refl.
  - inversion Hall as [|x y Hx Hy]; subst. cbn in Hx.
    destruct (Nat.eqb q p) eqn:E; [apply Nat.eqb_eq in E; lia | auto].
Qed.

(** The parked async function resumes: whatever the outcome, the in-flight
    entry of its key is deleted and its promise takes the outcome; on a
    rejection nothing else changes. *)
Lemma fetchSettles_effect now p outcome t st :
  findTask p (awaiting st) = Some t ->
  let st' := fetchSettles now p outcome st in
  inFlight st' = JsMap.delete (taskKey t) (inFlight st)
  /\ settled st' = settled st ++ [(p, outcome)]
  /\ awaiting st' = dropTask p (awaiting st)
  /\ fetcherCalls st' = fetcherCalls st
  /\ nextPromise st' = nextPromise st
  /\ match outcome with
     | Fulfilled v =>
         dataPart st' = dataPart (Store.set now (taskKey t) v (taskTtl t) st)
     | Rejected _ =>
         dataPart st' = dataPart st /\ notifPart st' = notifPart st
         /\ listenersPart st' = listenersPart st
     end.
Proof.
  intros Hf st'. subst st'. unfold fetchSettles. rewrite Hf.
  destruct outcome as [v|err]; [|cbn; repeat split].
  cbv zeta. unfold Store.set.
  match goal with |- context [setInternal ?k ?e (with_awaiting ?a st)] =>
    destruct (setInternal_frame k e (with_awaiting a st)) as (_ & Ha & _);
    assert (Hd : dataPart (setInternal k e (with_awaiting a st))
                 = dataPart (setInternal k e st));
    [|generalize dependent (setInternal k e (with_awaiting a st))]
  end.
  { unfold setInternal.
    destruct (nonPositiveTtl _); cbv zeta;
      repeat match goal with |- context [queueEmitKey ?k ?s] =>
        let H := fresh in
        destruct (queueEmitKey_frame k s) as (H & _); rewrite H; clear H end;
      reflexivity. }
  intros s2 Ha Hd.
  destruct (asyncPart_fields _ _ Ha) as (Hi & Hnx & Haw & Hs & Hfc).
  cbn in Hi, Hnx, Haw, Hs, Hfc. cbn. rewrite Hi, Hnx, Haw, Hs, Hfc.
  repeat split. exact Hd.
Qed.

Lemma findTask_dropTask p l : findTask p (dropTask p l) = None.
Proof.
  unfold dropTask. induction l as [|t l IH]; cbn; [reflexivity|].
  destruct (Nat.eqb (taskPromise t) p) eqn:E; cbn; [exact IH|now rewrite E].
Qed.

Lemma getOrSetAsync_calls_fetcher now key f beh opts st :
  JsMap.get key (inFlight st) = None ->
  (force opts = true \/ fst (Store.get now key st) = VUndefined) ->
  fetcherCalls (snd (getOrSetAsync now key f beh opts st)) = fetcherCalls st ++ [f].
Proof.
  intros Hin Hmiss. unfold getOrSetAsync.
  destruct (force opts) eqn:Hf; cbn [negb andb].
  - rewrite Hin. destruct beh; reflexivity.
  - destruct Hmiss as [|Hv]; [discriminate|].
    pose proof (get_frame now key st) as (_ & _ & Ha & _).
    destruct (Store.get now key st) as [cached st1]. cbn [fst snd] in *.
    subst cached. cbn [isUndefined negb].
    destruct (asyncPart_fields _ _ Ha) as (Hi & _ & _ & _ & Hfc).
    rewrite Hi, Hin. destruct beh; cbn; now rewrite Hfc.
Qed.

(** One fetch for all callers: a call without [force] that finds no value
    and nothing in flight starts the fetch; every call made for the key
    until the fetch settles joins it without calling its own fetcher; when
    the fetcher's promise settles, every caller gets its outcome, the
    in-flight entry is deleted and the async function is gone. *)
Lemma getOrSetAsync_deduplicates
    (st : State) (key : CacheKey) (t1 : Z) (f1 : Fetcher) (ttl : option Z)
    (others : list (Z * Fetcher * FetcherBehaviour * AsyncOpts))
    (t2 : Z) (outcome : Settlement) :
  PromisesFresh st ->
  JsMap.get key (inFlight st) = None ->
  fst (Store.get t1 key st) = VUndefined ->
  let p := nextPromise st in
  let call1 := getOrSetAsync t1 key f1 ReturnsPromise
                             {| optTtlMs := ttl; force := false |} st in
  let joined := callAll key others (snd call1) in
  let st3 := fetchSettles t2 p outcome (snd joined) in
  fst call1 = ReturnsPromiseOf p
  /\ Forall (fun r => r = ReturnsPromiseOf p) (fst joined)
  /\ fetcherCalls (snd joined) = fetcherCalls st ++ [f1]
  /\ fetcherCalls st3 = fetcherCalls st ++ [f1]
  /\ Forall (fun r => callerOutcome r st3 = Some outcome) (fst call1 :: fst joined)
  /\ JsMap.get key (inFlight (snd joined)) = Some p
  /\ JsMap.get key (inFlight st3) = None
  /\ findTask p (awaiting st3) = None
  /\ NoValue key (snd joined)
  /\ match outcome with
     | Fulfilled v =>
         dataPart st3 = dataPart (Store.set t2 key v ttl (snd joined))
     | Rejected _ =>
         dataPart st3 = dataPart (snd joined)
         /\ notifPart st3 = notifPart (snd joined)
         /\ listenersPart st3 = listenersPart (snd joined)
     end.
Proof.
  intros [Hfa Hfs] Hin Hmiss p call1 joined st3.
  destruct (getOrSetAsync_starts t1 key f1 ttl false st Hin (or_intror Hmiss))
    as (Hr1 & Hi1 & Hn1 & Ha1 & Hs1 & Hf1 & Hd1 & _).
  fold call1 in Hr1, Hi1, Hn1, Ha1, Hs1, Hf1, Hd1. fold p in Hr1, Hi1, Hn1, Ha1.
  assert (Hnv1 : NoValue key (snd call1)).
  { pose proof (get_undefined_NoValue t1 key st Hmiss) as Hnv.
    unfold NoValue in *. unfold dataPart in Hd1. injection Hd1 as Hm _ _ _.
    now rewrite Hm. }
  assert (Hget1 : JsMap.get key (inFlight (snd call1)) = Some p).
  { rewrite Hi1. apply get_set_eq. }
  destruct (callAll_joins key others p (snd call1) Hget1 Hnv1) as (Hrs & Ha2 & Hnv2).
  fold joined in Hrs, Ha2, Hnv2.
  destruct (asyncPart_fields _ _ Ha2) as (Hi2 & Hn2 & Haw2 & Hs2 & Hf2).
  set (t := {| taskPromise := p; taskKey := key; taskTtl := ttl |}).
  assert (Hfind : findTask p (awaiting (snd joined)) = Some t).
  { rewrite Haw2, Ha1. now apply findTask_fresh. }
  destruct (fetchSettles_effect t2 p outcome t (snd joined) Hfind)
    as (Ei & Es & Ea & Ef & _ & Ed).
  fold st3 in Ei, Es, Ea, Ef, Ed. cbn [taskKey taskTtl t] in Ei, Ed.
  assert (Hout : callerOutcome (ReturnsPromiseOf p) st3 = Some outcome).
  { cbn [callerOutcome]. rewrite Es, Hs2, Hs1. now apply settlementOf_fresh. }
  split; [exact Hr1|]. split; [exact Hrs|].
  split; [congruence|]. split; [congruence|].
  split.
  { constructor; [now rewrite Hr1|].
    eapply List.Forall_impl; [|exact Hrs]. intros r ->. exact Hout. }
  split; [congruence|].
  split; [rewrite Ei; apply get_delete_eq|].
  split; [rewrite Ea; apply findTask_dropTask|].
  split; [exact Hnv2|]. exact Ed.
Qed.

(** C7: [getOrSetAsync(key, fetcher)] is called with no value for the key
    and nothing in flight, its fetcher returns a promise, other callers
    ([others], with any options) ask for the key meanwhile, and the
    fetcher's promise rejects with [err].  Then every one of these callers
    gets the rejection [err]; the failed fetch leaves the mirror, the driver
    and the listeners alone, so the key still has no value; the in-flight
    entry of the key is gone; and the next [getOrSetAsync(key, ...)],
    whatever its options, calls its fetcher. *)
Theorem fetcher_rejection_reaches_every_caller
    (st : State) (key : CacheKey) (t1 : Z) (f1 : Fetcher) (ttl : option Z)
    (others : list (Z * Fetcher * FetcherBehaviour * AsyncOpts))
    (t2 : Z) (err : JsValue) :
  PromisesFresh st ->
  JsMap.get key (inFlight st) = None ->
  fst (Store.get t1 key st) = VUndefined ->
  let call1 := getOrSetAsync t1 key f1 ReturnsPromise
                             {| optTtlMs := ttl; force := false |} st in
  let joined := callAll key others (snd call1) in
  let st3 := fetchSettles t2 (nextPromise st) (Rejected err) (snd joined) in
  fetcherCalls (snd joined) = fetcherCalls st ++ [f1]
  /\ Forall (fun r => callerOutcome r st3 = Some (Rejected err))
            (fst call1 :: fst joined)
  /\ mirror st3 = mirror (snd joined)
  /\ NoValue key st3
  /\ driverCalls st3 = driverCalls (snd joined)
  /\ trace st3 = trace (snd joined)
  /\ JsMap.get key (inFlight st3) = None
  /\ (forall t3 f3 beh3 opts3,
        fetcherCalls (snd (getOrSetAsync t3 key f3 beh3 opts3 st3))
        = fetcherCalls st3 ++ [f3]).
Proof.
  intros Hfresh Hin Hmiss call1 joined st3.
  destruct (getOrSetAsync_deduplicates st key t1 f1 ttl others t2 (Rejected err)
              Hfresh Hin Hmiss)
    as (_ & _ & Hf & _ & Hout & _ & Hgone & _ & Hnv & Hd & Hn & _).
  fold call1 in Hf, Hout, Hgone, Hnv, Hd, Hn.
  fold joined in Hf, Hout, Hgone, Hnv, Hd, Hn.
  fold st3 in Hout, Hgone, Hd, Hn.
  unfold dataPart in Hd. injection Hd as Hm _ _ Hdc.
  unfold notifPart in Hn. injection Hn as _ _ _ Htr.
  assert (Hnv3 : NoValue key st3) by (unfold NoValue in *; now rewrite Hm).
  split; [exact Hf|]. split; [exact Hout|]. split; [exact Hm|].
  split; [exact Hnv3|]. split; [exact Hdc|]. split; [exact Htr|].
  split; [exact Hgone|].
  intros t3 f3 beh3 opts3. apply getOrSetAsync_calls_fetcher; [exact Hgone|].
  right. now apply NoValue_get.
Qed.

Lemma fetcher_rejection_reaches_every_caller_witness :
  let st := emptyState (Build_CacheDriver false false false) true in
  let call1 := getOrSetAsync 0 "k" 1%nat ReturnsPromise noOpts st in
  let joined := callAll "k" [(1, 2%nat, ReturnsPromise, noOpts);
                             (2, 3%nat, ReturnsPromise,
                              {| optTtlMs := None; force := true |})]
                        (snd call1) in
  let st3 := fetchSettles 3 0%nat (Rejected (VStr "boom")) (snd joined) in
  PromisesFresh st
  /\ fetcherCalls (snd joined) = [1%nat]
  /\ Forall (fun r => callerOutcome r st3 = Some (Rejected (VStr "boom")))
            (fst call1 :: fst joined)
  /\ JsMap.get "k" (inFlight st3) = None.
Proof.
  intros st call1 joined st3.
  assert (Hfresh : PromisesFresh st) by (split; constructor).
  destruct (fetcher_rejection_reaches_every_caller st "k" 0 1%nat None
              [(1, 2%nat, ReturnsPromise, noOpts);
               (2, 3%nat, ReturnsPromise, {| optTtlMs := None; force := true |})]
              3 (VStr "boom") Hfresh eq_refl eq_refl)
    as (H1 & H2 & _ & _ & _ & _ & H7 & _).
  split; [exact Hfresh|]. split; [exact H1|]. split; [exact H2 | exact H7].
Defined.

(** C2, on the code: a fetcher that throws before it returns a promise makes
    the [finally] block of the async function run before
    [inFlight.set(key, p)].  The fetch has failed, its one caller gets the
    rejection, nothing is parked that would delete the entry, and the entry
    stays in [inFlight]: the next call for the key is handed the rejected
    promise and its fetcher is never called. *)
Theorem throwing_fetcher_stays_in_flight :
  let st := createCache {| opt_driver := Build_CacheDriver false false false;
                           opt_hydrate := Some false;
                           opt_cleanupExpiredOnHydrate := None |} in
  let call1 := getOrSetAsync 0 "k" 1%nat (ThrowsNow (VStr "boom")) noOpts st in
  let call2 := getOrSetAsync 1 "k" 2%nat ReturnsPromise noOpts (snd call1) in
  fetcherCalls (snd call1) = [1%nat]
  /\ callerOutcome (fst call1) (snd call1) = Some (Rejected (VStr "boom"))
  /\ awaiting (snd call1) = []
  /\ JsMap.get "k" (inFlight (snd call1)) = Some 0%nat
  /\ fst call2 = ReturnsPromiseOf 0%nat
  /\ callerOutcome (fst call2) (snd call2) = Some (Rejected (VStr "boom"))
  /\ fetcherCalls (snd call2) = [1%nat].
Proof. cbv zeta. repeat split. Qed.

(** Promise identifiers stay fresh along every history. *)
Lemma createCache_fresh opts : PromisesFresh (createCache opts).
Proof.
  unfold createCache.
  destruct (negb (orTrue (opt_hydrate opts))); split; cbn; constructor.
Qed.

Lemma PromisesFresh_of_asyncPart st st' :
  asyncPart st' = asyncPart st -> PromisesFresh st -> PromisesFresh st'.
Proof.
  intros Ha [H1 H2]. destruct (asyncPart_fields _ _ Ha) as (_ & Hn & Haw & Hs & _).
  split; rewrite Hn; [rewrite Haw | rewrite Hs]; assumption.
Qed.

Lemma Forall_lt_S {A : Type} (f : A -> nat) (n : nat) (l : list A) :
  Forall (fun x => (f x < n)%nat) l -> Forall (fun x => (f x < S n)%nat) l.
Proof. intros H. eapply List.Forall_impl; [|exact H]. cbn. intros; lia. Qed.

Lemma getOrSetAsync_fresh now key f beh opts st :
  PromisesFresh st -> PromisesFresh (snd (getOrSetAsync now key f beh opts st)).
Proof.
  intros Hfr. unfold getOrSetAsync.
  assert (H : asyncPart (snd (if force opts then (VUndefined, st)
                              else Store.get now key st)) = asyncPart st).
  { destruct (force opts); [reflexivity|]. apply get_frame. }
  destruct (if force opts then (VUndefined, st) else Store.get now key st)
    as [cached st1]. cbn [snd] in H.
  pose proof (PromisesFresh_of_asyncPart _ _ H Hfr) as [H1 H2].
  destruct (negb (force opts) && negb (isUndefined cached)); [now split|].
  destruct (JsMap.get key (inFlight st1)); [now split|].
  destruct beh; split; cbn.
  - now apply Forall_lt_S.
  - apply Forall_app. split; [now apply (Forall_lt_S fst)|].
    constructor; [cbn; lia | constructor].
  - apply Forall_app. split; [now apply Forall_lt_S|].
    constructor; [cbn; lia | constructor].
  - now apply (Forall_lt_S fst).
Qed.

Lemma findTask_In p l t : findTask p l = Some t -> In t l /\ taskPromise t = p.
Proof.
  induction l as [|t' l IH]; cbn; [discriminate|].
  destruct (Nat.eqb (taskPromise t') p) eqn:E.
  - intros [= ->]. apply Nat.eqb_eq in E. auto.
  - intros H. destruct (IH H). auto.
Qed.

Lemma fetchSettles_fresh now p outcome st :
  PromisesFresh st -> PromisesFresh (fetchSettles now p outcome st).
Proof.
  intros [H1 H2].
  destruct (findTask p (awaiting st)) as [t|] eqn:Hf;
    [|unfold fetchSettles; rewrite Hf; now split].
  destruct (fetchSettles_effect now p outcome t st Hf) as (_ & Es & Ea & _ & En & _).
  destruct (findTask_In _ _ _ Hf) as [Hin Hp].
  split; rewrite En.
  - rewrite Ea. unfold dropTask. apply List.Forall_forall.
    intros x Hx. apply List.filter_In in Hx as [Hx _].
    exact (proj1 (List.Forall_forall _ _) H1 x Hx).
  - rewrite Es. apply Forall_app. split; [exact H2|].
    constructor; [|constructor]. cbn. rewrite <- Hp.
    exact (proj1 (List.Forall_forall _ _) H1 t Hin).
Qed.

Lemma hydrationSettles_asyncPart now outcome st :
  asyncPart (hydrationSettles now outcome st) = asyncPart st.
Proof.
  unfold hydrationSettles. destruct (negb (hydrating st)); [reflexivity|].
  cbv zeta.
  assert (Hq : forall s, asyncPart (queueEmitReady s) = asyncPart s).
  { intros s. unfold queueEmitReady. destruct (0 <? batchDepth s)%nat; reflexivity. }
  assert (Hs : forall x s, asyncPart (settleReady x s) = asyncPart s).
  { intros x s. unfold settleReady. destruct (readyP s); reflexivity. }
  destruct outcome as [err|rows]; [rewrite Hq, Hs; reflexivity|].
  pose proof (installRows_frame now rows [] (enterBatch (with_hydrating false st)))
    as (_ & _ & Ha & _).
  destruct (installRows now rows [] (enterBatch (with_hydrating false st)))
    as [toDelete st1]. cbn [snd] in Ha.
  destruct (batchFinally_frame st1) as (Ha2 & _).
  rewrite Hq, Hs. cbn [asyncPart with_ready Store.invalidateEveryPrefixCache
    invalidateAllKeysCache with_allKeysCache with_prefixKeysCache inFlight
    nextPromise awaiting settled fetcherCalls].
  change (asyncPart
            (if cleanupExpiredOnHydrate (batchFinally st1)
                && negb (Nat.eqb (length toDelete) 0)
             then if removeMany (driver (batchFinally st1))
                  then driverCall (DriverRemoveMany toDelete) (batchFinally st1)
                  else Store.driverRemoveEach toDelete (batchFinally st1)
             else batchFinally st1) = asyncPart st).
  assert (Ha3 : asyncPart (batchFinally st1) = asyncPart st)
    by (rewrite Ha2; exact Ha).
  destruct (cleanupExpiredOnHydrate (batchFinally st1)
            && negb (Nat.eqb (length toDelete) 0)); [|exact Ha3].
  destruct (removeMany (driver (batchFinally st1))); [exact Ha3|].
  destruct (driverRemoveEach_frame toDelete (batchFinally st1)) as (_ & _ & G & _).
  now rewrite G.
Qed.

Lemma steps_fresh h : forall st, PromisesFresh st -> PromisesFresh (steps h st).
Proof.
  unfold steps. induction h as [|a h IH]; intros st H; [exact H|].
  cbn [fold_left]. apply IH.
  destruct a as [p|now key f beh opts|now p outcome|now outcome]; cbn [step].
  - eapply PromisesFresh_of_asyncPart; [apply run_SyncStep | exact H].
  - now apply getOrSetAsync_fresh.
  - now apply fetchSettles_fresh.
  - eapply PromisesFresh_of_asyncPart; [apply hydrationSettles_asyncPart | exact H].
Qed.

(** ** Key lists *)

Lemma inScope_startsWith p k : inScope (Some p) k = startsWith k p.
Proof.
  unfold inScope, startsWith. destruct (String.eqb p "") eqn:E; [|reflexivity].
  apply String.eqb_eq in E. subst p. now destruct k.
Qed.

Lemma keysOf_delete_notin {V : Type} k (m : list (string * V)) :
  ~ In k (JsMap.keysOf m) -> JsMap.delete k m = m.
Proof.
  unfold JsMap.delete, JsMap.keysOf.
  induction m as [|[k' v] r IH]; intros Hn; cbn; [reflexivity|].
  destruct (String.eqb k' k) eqn:E; cbn.
  - apply String.eqb_eq in E. subst. exfalso. apply Hn. now left.
  - rewrite IH; [reflexivity|]. intros H. apply Hn. now right.
Qed.

Lemma NoDup_keysOf_filter {V : Type} (f : string * V -> bool) (m : list (string * V)) :
  List.NoDup (JsMap.keysOf m) -> List.NoDup (JsMap.keysOf (List.filter f m)).
Proof.
  unfold JsMap.keysOf. induction m as [|[k v] r IH]; intros Hnd; cbn; [constructor|].
  inversion Hnd as [|x l Hx Hl]; subst.
  destruct (f (k, v)); cbn; [|auto].
  constructor; [|auto]. intros Hin. apply Hx.
  apply in_map_iff in Hin as (kv & Hk & Hin). apply List.filter_In in Hin as [Hin _].
  apply in_map_iff. eauto.
Qed.

Lemma keysOf_set {V : Type} k (v : V) (m : list (string * V)) :
  JsMap.keysOf (JsMap.set k v m)
  = if JsMap.has k m then JsMap.keysOf m else JsMap.keysOf m ++ [k].
Proof.
  unfold JsMap.keysOf, JsMap.has.
  induction m as [|[k' v'] r IH]; cbn; [reflexivity|].
  destruct (String.eqb k' k) eqn:E; cbn; [reflexivity|].
  rewrite IH. now destruct (JsMap.get k r).
Qed.

Lemma NoDup_keysOf_set {V : Type} k (v : V) (m : list (string * V)) :
  List.NoDup (JsMap.keysOf m) -> List.NoDup (JsMap.keysOf (JsMap.set k v m)).
Proof.
  intros Hnd. rewrite keysOf_set. unfold JsMap.has.
  destruct (JsMap.get k m) eqn:E; [exact Hnd|].
  apply NoDup_snoc; [now apply get_None_notin | exact Hnd].
Qed.

(** Outside the scope of a listing, [set] and [delete] do not change what
    the listing sees. *)
Lemma scopeKeys_delete prefix k (m : list (CacheKey * CacheEntry)) :
  inScope prefix k = false ->
  scopeKeys prefix (JsMap.delete k m) = scopeKeys prefix m.
Proof.
  intros Hs. unfold scopeKeys, JsMap.delete.
  induction m as [|[k' e] r IH]; cbn; [reflexivity|].
  destruct (String.eqb k' k) eqn:E; cbn.
  - apply String.eqb_eq in E. subst. now rewrite Hs.
  - destruct (inScope prefix k'); cbn; now rewrite IH.
Qed.

Lemma scopeKeys_set prefix k e (m : list (CacheKey * CacheEntry)) :
  inScope prefix k = false ->
  scopeKeys prefix (JsMap.set k e m) = scopeKeys prefix m.
Proof.
  intros Hs. unfold scopeKeys.
  induction m as [|[k' e'] r IH]; cbn.
  - now rewrite Hs.
  - destruct (String.eqb k' k) eqn:E; cbn.
    + apply String.eqb_eq in E. subst. now rewrite Hs.
    + destruct (inScope prefix k'); cbn; now rewrite IH.
Qed.

Lemma scopeKeys_deleteAll prefix ks : forall (m : list (CacheKey * CacheEntry)),
  (forall k, In k ks -> inScope prefix k = false) ->
  scopeKeys prefix (JsMap.deleteAll ks m) = scopeKeys prefix m.
Proof.
  unfold JsMap.deleteAll.
  induction ks as [|k ks IH]; intros m Hs; cbn [fold_left]; [reflexivity|].
  rewrite IH by (intros; apply Hs; now right).
  apply scopeKeys_delete, Hs. now left.
Qed.

Lemma NoDup_keysOf_deleteAll {V : Type} ks : forall (m : list (string * V)),
  List.NoDup (JsMap.keysOf m) -> List.NoDup (JsMap.keysOf (JsMap.deleteAll ks m)).
Proof.
  unfold JsMap.deleteAll.
  induction ks as [|k ks IH]; intros m Hnd; cbn [fold_left]; [exact Hnd|].
  apply IH. now apply NoDup_keysOf_filter.
Qed.

(** The consistency of the key lists only looks at the mirror and the
    caches; a state whose valid caches were already valid, over a mirror
    that looks the same in their scope, is consistent too. *)
Lemma klc_step st st' :
  KeyListsConsistent st ->
  List.NoDup (JsMap.keysOf (mirror st')) ->
  (KeyListCache.valid (allKeysCache st') = true ->
   allKeysCache st' = allKeysCache st
   /\ KeyListCache.valid (allKeysCache st) = true
   /\ scopeKeys None (mirror st') = scopeKeys None (mirror st)) ->
  (forall p c, In (p, c) (prefixKeysCache st') -> KeyListCache.valid c = true ->
     In (p, c) (prefixKeysCache st)
     /\ scopeKeys (Some p) (mirror st') = scopeKeys (Some p) (mirror st)) ->
  KeyListsConsistent st'.
Proof.
  intros [Hm Ha Hp] Hnd Hall Hpre. split; [exact Hnd| |].
  - intros Hv. destruct (Hall Hv) as (E & Hv' & Es). rewrite E, Es. auto.
  - intros p c Hin Hv. destruct (Hpre p c Hin Hv) as [Hin' Es]. rewrite Es. eauto.
Qed.

Lemma klc_of_dataPart st st' :
  dataPart st' = dataPart st -> KeyListsConsistent st -> KeyListsConsistent st'.
Proof.
  unfold dataPart. intros [= Em Ea Ep _] [Hm Ha Hp].
  split; rewrite ?Em, ?Ea, ?Ep; auto.
Qed.

Lemma dropKey_klc k st : KeyListsConsistent st -> KeyListsConsistent (dropKey k st).
Proof.
  intros H. destruct (dropKey_data k st) as (Em & _ & Ea & Ep).
  apply (klc_step st); [exact H| | |].
  - rewrite Em. apply NoDup_keysOf_filter, H.
  - rewrite Ea. cbn. discriminate.
  - intros p c Hin Hv. rewrite Ep in Hin.
    destruct (invalidated_prefix_caches k _ p c Hin) as [_ H2].
    destruct (H2 Hv) as [Hin' Hs]. split; [exact Hin'|].
    rewrite Em. apply scopeKeys_delete. now rewrite inScope_startsWith.
Qed.

Lemma invalidateKeyCachesForMutation_klc k st :
  KeyListsConsistent st -> KeyListsConsistent (invalidateKeyCachesForMutation k st).
Proof.
  intros H. apply (klc_step st); [exact H|apply H| |].
  - cbn. discriminate.
  - intros p c Hin Hv.
    destruct (invalidated_prefix_caches k _ p c Hin) as [_ H2].
    destruct (H2 Hv) as [Hin' _]. auto.
Qed.

Tactic Notation "st_cbn" :=
  cbn [mirror allKeysCache prefixKeysCache driverCalls batchDepth pendingKeys
       pendingReadyEmit trace keyListeners prefixListeners allListeners
       readyListeners inFlight nextPromise awaiting settled fetcherCalls
       ready readyP hydrating driver cleanupExpiredOnHydrate
       with_mirror with_allKeysCache with_prefixKeysCache with_driverCalls
       with_batchDepth with_pendingKeys with_pendingReadyEmit with_trace
       with_keyListeners with_prefixListeners with_allListeners
       with_readyListeners with_inFlight with_nextPromise with_awaiting
       with_settled with_fetcherCalls with_ready with_readyP with_hydrating
       invalidateKeyCachesForMutation invalidatePrefixCachesForKey
       invalidateAllKeysCache driverCall invalidate
       KeyListCache.valid KeyListCache.keys fst snd].

Tactic Notation "st_cbn" "in" hyp(H) :=
  cbn [mirror allKeysCache prefixKeysCache driverCalls batchDepth pendingKeys
       pendingReadyEmit trace keyListeners prefixListeners allListeners
       readyListeners inFlight nextPromise awaiting settled fetcherCalls
       ready readyP hydrating driver cleanupExpiredOnHydrate
       with_mirror with_allKeysCache with_prefixKeysCache with_driverCalls
       with_batchDepth with_pendingKeys with_pendingReadyEmit with_trace
       with_keyListeners with_prefixListeners with_allListeners
       with_readyListeners with_inFlight with_nextPromise with_awaiting
       with_settled with_fetcherCalls with_ready with_readyP with_hydrating
       invalidateKeyCachesForMutation invalidatePrefixCachesForKey
       invalidateAllKeysCache driverCall invalidate
       KeyListCache.valid KeyListCache.keys fst snd] in H.

Lemma setInternal_klc k e st :
  KeyListsConsistent st -> KeyListsConsistent (setInternal k e st).
Proof.
  intros H. unfold setInternal.
  destruct e as [e|]; [destruct (nonPositiveTtl e)|]; cbv zeta;
    (eapply klc_of_dataPart; [apply queueEmitKey_frame|]);
    (apply (klc_step st); [exact H| | |]); st_cbn;
    try discriminate;
    try (apply NoDup_keysOf_filter, H); try (apply NoDup_keysOf_set, H);
    intros p c Hin Hv;
    destruct (invalidated_prefix_caches k _ p c Hin) as [_ H2];
    destruct (H2 Hv) as [Hin' Hs]; (split; [exact Hin'|]);
    [apply scopeKeys_delete|apply scopeKeys_set|apply scopeKeys_delete];
    now rewrite inScope_startsWith.
Qed.

Lemma delete_app {V : Type} k (a b : list (string * V)) :
  JsMap.delete k (a ++ b) = JsMap.delete k a ++ JsMap.delete k b.
Proof. unfold JsMap.delete. apply List.filter_app. Qed.

Lemma afterExpiry_app now prefix a b :
  afterExpiry now prefix (a ++ b) = afterExpiry now prefix a ++ afterExpiry now prefix b.
Proof. unfold afterExpiry. apply List.filter_app. Qed.

Lemma keysOf_app {V : Type} (a b : list (string * V)) :
  JsMap.keysOf (a ++ b) = JsMap.keysOf a ++ JsMap.keysOf b.
Proof. unfold JsMap.keysOf. apply List.map_app. Qed.

Lemma keysOf_afterExpiry_incl now prefix m k :
  In k (JsMap.keysOf (afterExpiry now prefix m)) -> In k (JsMap.keysOf m).
Proof.
  unfold JsMap.keysOf, afterExpiry. intros H.
  apply in_map_iff in H as (kv & Hk & Hin). apply List.filter_In in Hin as [Hin _].
  apply in_map_iff. eauto.
Qed.

Lemma afterExpiry_one now prefix kv :
  afterExpiry now prefix [kv] = if expired now prefix kv then [] else [kv].
Proof. unfold afterExpiry. cbn [List.filter]. now destruct (expired now prefix kv). Qed.

(** [computeKeysForPrefix]: the list it returns and the mirror it leaves. *)
Lemma computeLoop_spec now prefix entries : forall pre out st,
  List.NoDup (JsMap.keysOf (pre ++ entries)) ->
  mirror st = afterExpiry now prefix pre ++ entries ->
  fst (computeLoop now prefix entries out st) = out ++ liveKeys now prefix entries
  /\ mirror (snd (computeLoop now prefix entries out st))
     = afterExpiry now prefix (pre ++ entries).
Proof.
  induction entries as [|[k e] rest IH]; intros pre out st Hnd Hm.
  - cbn [computeLoop fst snd]. unfold liveKeys. cbn [List.filter List.map].
    now rewrite !app_nil_r in *.
  - cbn [computeLoop].
    assert (Hnd' : List.NoDup (JsMap.keysOf ((pre ++ [(k, e)]) ++ rest)))
      by now rewrite <- app_assoc.
    rewrite keysOf_app in Hnd. cbn [JsMap.keysOf List.map fst] in Hnd.
    apply List.NoDup_remove_2 in Hnd.
    assert (Hpre : ~ In k (JsMap.keysOf pre)) by (intros H; apply Hnd, in_or_app; auto).
    assert (Hrest : ~ In k (JsMap.keysOf rest)) by (intros H; apply Hnd, in_or_app; auto).
    replace (pre ++ (k, e) :: rest) with ((pre ++ [(k, e)]) ++ rest)
      by now rewrite <- app_assoc.
    assert (Hone := afterExpiry_one now prefix (k, e)).
    unfold expired in Hone. cbn [fst snd] in Hone.
    unfold liveKeys. cbn [List.filter fst snd].
    destruct (inScope prefix k) eqn:Hs; cbn [negb andb] in *.
    + destruct (Ttl.isAlive now (Some e)) eqn:Ha; cbn [negb List.map fst] in *.
      * destruct (IH (pre ++ [(k, e)]) (out ++ [k]) st Hnd') as [H1 H2].
        { rewrite Hm, afterExpiry_app, Hone. now rewrite <- app_assoc. }
        unfold liveKeys in H1. rewrite H1, <- app_assoc. auto.
      * apply (IH (pre ++ [(k, e)]) out (dropKey k st) Hnd').
        destruct (dropKey_data k st) as (-> & _).
        rewrite Hm, afterExpiry_app, Hone, delete_app, app_nil_r.
        rewrite keysOf_delete_notin
          by (intros H; apply Hpre; eapply keysOf_afterExpiry_incl; eauto).
        unfold JsMap.delete at 1. cbn [List.filter fst].
        rewrite String.eqb_refl. cbn [negb].
        f_equal. now apply keysOf_delete_notin.
    + apply (IH (pre ++ [(k, e)]) out st Hnd').
      rewrite Hm, afterExpiry_app, Hone. now rewrite <- app_assoc.
Qed.

Lemma computeLoop_klc now prefix entries : forall out st,
  KeyListsConsistent st ->
  KeyListsConsistent (snd (computeLoop now prefix entries out st)).
Proof.
  induction entries as [|[k e] rest IH]; intros out st H; cbn [computeLoop];
    [exact H|].
  destruct (negb (inScope prefix k)); [now apply IH|].
  destruct (negb (Ttl.isAlive now (Some e))); [|now apply IH].
  apply IH. now apply dropKey_klc.
Qed.

Lemma liveKeys_afterExpiry now prefix m :
  liveKeys now prefix m = scopeKeys prefix (afterExpiry now prefix m).
Proof.
  unfold liveKeys, scopeKeys, afterExpiry.
  induction m as [|[k e] r IH]; [reflexivity|].
  cbn [List.filter]. unfold expired at 1. cbn [fst snd].
  destruct (inScope prefix k) eqn:Hs;
    destruct (Ttl.isAlive now (Some e)) eqn:Ha;
    cbn [andb negb List.filter List.map fst snd]; rewrite ?Hs;
    cbn [List.map fst]; now rewrite IH.
Qed.

Lemma computeKeysForPrefix_spec now prefix st :
  KeyListsConsistent st ->
  fst (computeKeysForPrefix now prefix st) = liveKeys now prefix (mirror st)
  /\ mirror (snd (computeKeysForPrefix now prefix st))
     = afterExpiry now prefix (mirror st)
  /\ KeyListsConsistent (snd (computeKeysForPrefix now prefix st)).
Proof.
  intros H. unfold computeKeysForPrefix.
  destruct (computeLoop_spec now prefix (mirror st) [] [] st) as [H1 H2];
    [apply H | reflexivity |].
  split; [exact H1|]. split; [exact H2|]. now apply computeLoop_klc.
Qed.

(** *** [pruneListInPlace] *)

Lemma aliveIn_delete_dead now k e (m : list (CacheKey * CacheEntry)) k' :
  JsMap.get k m = Some e -> Ttl.isAlive now (Some e) = false ->
  aliveIn now (JsMap.delete k m) k' = aliveIn now m k'.
Proof.
  intros Hg Hd. unfold aliveIn.
  destruct (String.eqb k k') eqn:E.
  - apply String.eqb_eq in E. subst k'. now rewrite get_delete_eq, Hg, Hd.
  - apply String.eqb_neq in E. now rewrite get_delete_ne.
Qed.

Lemma filter_filter {A : Type} (f g : A -> bool) (l : list A) :
  List.filter f (List.filter g l) = List.filter (fun x => g x && f x) l.
Proof.
  induction l as [|x l IH]; cbn; [reflexivity|].
  destruct (g x); cbn; [destruct (f x)|]; now rewrite IH.
Qed.

Lemma filter_all {A : Type} (f : A -> bool) (l : list A) :
  (forall x, In x l -> f x = true) -> List.filter f l = l.
Proof.
  induction l as [|x l IH]; intros H; cbn; [reflexivity|].
  rewrite (H x) by now left. f_equal. apply IH. intros; apply H; now right.
Qed.

(** The write [list[write++] = k] keeps the kept keys in front. *)
Lemma insert_compact (W X R : list CacheKey) (k : CacheKey) :
  exists X', length X' = length X
             /\ <[length W:=k]> (W ++ X ++ k :: R) = (W ++ [k]) ++ X' ++ R.
Proof.
  rewrite insert_app_r_alt by lia. rewrite Nat.sub_diag.
  destruct X as [|x X]; cbn.
  - exists []. now rewrite <- app_assoc.
  - exists (X ++ [k]). split; [rewrite length_app; cbn; lia|].
    now rewrite <- !app_assoc.
Qed.

Lemma pruneMirror_nil now m : pruneMirror now [] m = m.
Proof. unfold pruneMirror. apply filter_all. reflexivity. Qed.

Lemma pruneLoop_spec now : forall R W X st read write arr l w st',
  read = (length W + length X)%nat -> write = length W -> arr = W ++ X ++ R ->
  pruneLoop now (length R) read write arr st = (l, w, st') ->
  take w l = W ++ List.filter (aliveIn now (mirror st)) R
  /\ w = length (W ++ List.filter (aliveIn now (mirror st)) R)
  /\ mirror st' = pruneMirror now R (mirror st)
  /\ (KeyListsConsistent st -> KeyListsConsistent st').
Proof.
  induction R as [|k R IH]; intros W X st read write arr l w st' Hr Hw Ha Hloop.
  - cbn in Hloop. injection Hloop as <- <- <-. subst.
    cbn [List.filter]. rewrite !app_nil_r, take_app_length, pruneMirror_nil. auto.
  - cbn [length pruneLoop] in Hloop.
    assert (Hk : arr !! read = Some k).
    { subst. rewrite app_assoc. apply list_lookup_middle. now rewrite length_app. }
    rewrite Hk in Hloop. cbn [List.filter].
    assert (Hak : aliveIn now (mirror st) k = Ttl.isAlive now (JsMap.get k (mirror st)))
      by reflexivity.
    destruct (JsMap.get k (mirror st)) as [e|] eqn:Hg.
    + destruct (Ttl.isAlive now (Some e)) eqn:Halive; rewrite Hak.
      * destruct (insert_compact W X R k) as (X' & HX & Hins).
        assert (Harr : <[write:=k]> arr = (W ++ [k]) ++ X' ++ R)
          by (rewrite Hw, Ha; exact Hins).
        rewrite Harr in Hloop.
        destruct (IH (W ++ [k]) X' st (S read) (S write)
                     ((W ++ [k]) ++ X' ++ R) l w st')
          as (H1 & H2 & H3 & H4);
          [rewrite length_app, HX; cbn; lia | rewrite length_app; cbn; lia
          | reflexivity | exact Hloop |].
        rewrite <- !app_assoc in H1, H2. cbn [app] in H1, H2.
        split; [exact H1|]. split; [exact H2|]. split; [|exact H4].
        rewrite H3. unfold pruneMirror. apply List.filter_ext_in.
        intros [k' e'] Hin. cbn [fst existsb].
        destruct (String.eqb k' k) eqn:E; [|reflexivity].
        apply String.eqb_eq in E. subst k'. cbn [orb negb].
        unfold aliveIn. rewrite Hg, Halive. now rewrite orb_true_r.
      * destruct (IH W (X ++ [k]) (dropKey k st) (S read) write arr l w st'
                     ltac:(rewrite length_app; cbn; lia) Hw
                     ltac:(now rewrite Ha, <- app_assoc) Hloop)
          as (H1 & H2 & H3 & H4).
        destruct (dropKey_data k st) as (Em & _). rewrite Em in H1, H2, H3.
        assert (Hf : List.filter (aliveIn now (JsMap.delete k (mirror st))) R
                     = List.filter (aliveIn now (mirror st)) R).
        { apply List.filter_ext. intros k'. now apply (aliveIn_delete_dead now k e). }
        rewrite Hf in H1, H2.
        split; [exact H1|]. split; [exact H2|].
        split; [|intros Hc; apply H4; now apply dropKey_klc].
        rewrite H3. unfold pruneMirror.
        rewrite (List.filter_ext _
                   (fun kv => negb (existsb (String.eqb (fst kv)) R)
                              || aliveIn now (mirror st) (fst kv)))
          by (intros kv; now rewrite (aliveIn_delete_dead now k e)).
        unfold JsMap.delete. rewrite filter_filter.
        apply List.filter_ext. intros [k' e']. cbn [fst existsb].
        destruct (String.eqb k' k) eqn:E; cbn [negb andb orb]; [|reflexivity].
        apply String.eqb_eq in E. subst k'. unfold aliveIn. now rewrite Hg, Halive.
    + rewrite Hak. cbn [Ttl.isAlive].
      destruct (IH W (X ++ [k]) (invalidateKeyCachesForMutation k st)
                   (S read) write arr l w st'
                   ltac:(rewrite length_app; cbn; lia) Hw
                   ltac:(now rewrite Ha, <- app_assoc) Hloop)
        as (H1 & H2 & H3 & H4).
      change (mirror (invalidateKeyCachesForMutation k st)) with (mirror st)
        in H1, H2, H3.
      split; [exact H1|]. split; [exact H2|].
      split; [|intros Hc; apply H4; now apply invalidateKeyCachesForMutation_klc].
      rewrite H3. unfold pruneMirror. apply List.filter_ext_in.
      intros [k' e'] Hin. cbn [fst existsb].
      destruct (String.eqb k' k) eqn:E; [|reflexivity].
      apply String.eqb_eq in E. subst k'. exfalso.
      apply (get_None_notin k (mirror st) Hg).
      unfold JsMap.keysOf. apply in_map_iff. now exists (k, e').
Qed.

Lemma pruneListInPlace_spec now arr st :
  fst (pruneListInPlace now arr st) = List.filter (aliveIn now (mirror st)) arr
  /\ mirror (snd (pruneListInPlace now arr st)) = pruneMirror now arr (mirror st)
  /\ (KeyListsConsistent st -> KeyListsConsistent (snd (pruneListInPlace now arr st))).
Proof.
  unfold pruneListInPlace.
  destruct (pruneLoop now (length arr) 0 0 arr st) as [[l w] st'] eqn:Hloop.
  destruct (pruneLoop_spec now arr [] [] st 0%nat 0%nat arr l w st'
              eq_refl eq_refl eq_refl Hloop) as (H1 & H2 & H3 & H4).
  cbn [app] in H1, H2. cbn [fst snd].
  split; [|auto].
  destruct (w =? length l)%nat eqn:E; [|exact H1].
  apply Nat.eqb_eq in E. rewrite <- H1, E. symmetry. apply take_ge. lia.
Qed.

(** *** [getCachedKeys] *)

Lemma filter_map_fst {A B : Type} (f : A -> bool) (l : list (A * B)) :
  List.filter f (List.map fst l) = List.map fst (List.filter (fun kv => f (fst kv)) l).
Proof.
  induction l as [|[a b] l IH]; cbn; [reflexivity|].
  destruct (f a); cbn; now rewrite IH.
Qed.

Lemma aliveIn_entry now (m : list (CacheKey * CacheEntry)) kv :
  List.NoDup (JsMap.keysOf m) -> In kv m ->
  aliveIn now m (fst kv) = Ttl.isAlive now (Some (snd kv)).
Proof.
  intros Hnd Hin. unfold aliveIn. destruct kv as [k e]. cbn [fst snd].
  now rewrite (In_get k e m Hnd Hin).
Qed.

Lemma existsb_scopeKeys prefix (m : list (CacheKey * CacheEntry)) kv :
  In kv m ->
  existsb (String.eqb (fst kv)) (scopeKeys prefix m) = inScope prefix (fst kv).
Proof.
  intros Hin. destruct (inScope prefix (fst kv)) eqn:Hs.
  - apply existsb_exists. exists (fst kv). split; [|apply String.eqb_refl].
    unfold scopeKeys. apply in_map_iff. exists kv. split; [reflexivity|].
    apply List.filter_In. auto.
  - destruct (existsb (String.eqb (fst kv)) (scopeKeys prefix m)) eqn:E;
      [|reflexivity].
    apply existsb_exists in E as (k' & Hk' & Heq).
    apply String.eqb_eq in Heq. subst k'.
    unfold scopeKeys in Hk'. apply in_map_iff in Hk' as (kv' & Hf & Hin').
    apply List.filter_In in Hin' as [_ Hs']. rewrite Hf in Hs'. congruence.
Qed.

(** Pruning the list of the keys in a scope is listing the scope. *)
Lemma prune_scopeKeys now prefix (m : list (CacheKey * CacheEntry)) :
  List.NoDup (JsMap.keysOf m) ->
  List.filter (aliveIn now m) (scopeKeys prefix m) = liveKeys now prefix m
  /\ pruneMirror now (scopeKeys prefix m) m = afterExpiry now prefix m.
Proof.
  intros Hnd. split.
  - unfold scopeKeys, liveKeys. rewrite filter_map_fst, filter_filter. f_equal.
    apply List.filter_ext_in. intros kv Hin. now rewrite (aliveIn_entry now m kv).
  - unfold pruneMirror, afterExpiry, expired. apply List.filter_ext_in.
    intros kv Hin. rewrite (existsb_scopeKeys prefix m kv Hin).
    rewrite (aliveIn_entry now m kv Hnd Hin).
    destruct (inScope prefix (fst kv)), (Ttl.isAlive now (Some (snd kv))); reflexivity.
Qed.

Lemma klc_set_all ks b st :
  KeyListsConsistent st ->
  (b = true -> ks = scopeKeys None (mirror st)) ->
  KeyListsConsistent (with_allKeysCache (KeyListCache.mk ks b) st).
Proof. intros [Hm Ha Hp] H. split; [exact Hm | exact H | exact Hp]. Qed.

Lemma klc_set_prefix p ks b st :
  KeyListsConsistent st ->
  (b = true -> ks = scopeKeys (Some p) (mirror st)) ->
  KeyListsConsistent
    (with_prefixKeysCache (JsMap.set p (KeyListCache.mk ks b) (prefixKeysCache st)) st).
Proof.
  intros [Hm Ha Hp] H. split; [exact Hm | exact Ha |].
  intros q c Hin Hv. cbn [prefixKeysCache with_prefixKeysCache] in Hin.
  apply In_set in Hin as [[= -> ->]|Hin]; [now apply H | now apply Hp].
Qed.

Lemma getCachedAllKeys_spec now st :
  KeyListsConsistent st ->
  fst (getCachedAllKeys now st) = liveKeys now None (mirror st)
  /\ mirror (snd (getCachedAllKeys now st)) = afterExpiry now None (mirror st)
  /\ KeyListsConsistent (snd (getCachedAllKeys now st))
  /\ (KeyListCache.valid (allKeysCache st) = true ->
      fst (getCachedAllKeys now st)
      = List.filter (aliveIn now (mirror st)) (KeyListCache.keys (allKeysCache st))).
Proof.
  intros Hc. unfold getCachedAllKeys.
  destruct (KeyListCache.valid (allKeysCache st)) eqn:Hv; cbn [negb].
  - destruct (pruneListInPlace_spec now (KeyListCache.keys (allKeysCache st)) st)
      as (H1 & H2 & H3).
    destruct (pruneListInPlace now (KeyListCache.keys (allKeysCache st)) st)
      as [ks st1]. cbn [fst snd] in *.
    rewrite (klc_all st Hc Hv) in H1, H2.
    destruct (prune_scopeKeys now None (mirror st) (klc_mirror st Hc)) as [P1 P2].
    rewrite P1 in H1. rewrite P2 in H2.
    split; [exact H1|]. split; [exact H2|]. split.
    + apply klc_set_all; [auto|]. intros _.
      now rewrite H1, H2, liveKeys_afterExpiry.
    + intros _. rewrite H1, (klc_all st Hc Hv). now rewrite P1.
  - destruct (computeKeysForPrefix_spec now None st Hc) as (H1 & H2 & H3).
    destruct (computeKeysForPrefix now None st) as [ks st1]. cbn [fst snd] in *.
    split; [exact H1|]. split; [exact H2|]. split; [|discriminate].
    apply klc_set_all; [exact H3|]. intros _.
    now rewrite H1, H2, liveKeys_afterExpiry.
Qed.

Lemma getCachedPrefixKeys_spec now p st :
  KeyListsConsistent st ->
  fst (getCachedPrefixKeys now p st) = liveKeys now (Some p) (mirror st)
  /\ mirror (snd (getCachedPrefixKeys now p st)) = afterExpiry now (Some p) (mirror st)
  /\ KeyListsConsistent (snd (getCachedPrefixKeys now p st))
  /\ (forall c, JsMap.get p (prefixKeysCache st) = Some c ->
      KeyListCache.valid c = true ->
      fst (getCachedPrefixKeys now p st)
      = List.filter (aliveIn now (mirror st)) (KeyListCache.keys c)).
Proof.
  intros Hc. unfold getCachedPrefixKeys. cbv zeta.
  set (st0 := match JsMap.get p (prefixKeysCache st) with
              | Some _ => st
              | None => with_prefixKeysCache _ st
              end).
  assert (Hc0 : KeyListsConsistent st0).
  { subst st0. destruct (JsMap.get p (prefixKeysCache st)); [exact Hc|].
    apply klc_set_prefix; [exact Hc | discriminate]. }
  assert (Hm0 : mirror st0 = mirror st).
  { subst st0. now destruct (JsMap.get p (prefixKeysCache st)). }
  assert (Hg0 : forall c, JsMap.get p (prefixKeysCache st) = Some c ->
                          JsMap.get p (prefixKeysCache st0) = Some c).
  { intros c Hg. subst st0. now rewrite Hg. }
  assert (Hex : exists c0, JsMap.get p (prefixKeysCache st0) = Some c0).
  { subst st0. destruct (JsMap.get p (prefixKeysCache st)) as [c|] eqn:Hg;
      [eauto|]. st_cbn. rewrite get_set_eq. eauto. }
  destruct Hex as [c0 Hget0]. rewrite Hget0.
  clearbody st0. rewrite <- Hm0.
  destruct (KeyListCache.valid c0) eqn:Hv; cbn [negb].
  - pose proof (klc_prefix st0 Hc0 p c0 (get_Some_In _ _ _ Hget0) Hv) as Hk.
    destruct (pruneListInPlace_spec now (KeyListCache.keys c0) st0) as (H1 & H2 & H3).
    destruct (pruneListInPlace now (KeyListCache.keys c0) st0) as [ks st1].
    cbn [fst snd] in *.
    destruct (prune_scopeKeys now (Some p) (mirror st0) (klc_mirror st0 Hc0))
      as [P1 P2].
    assert (H1' : ks = liveKeys now (Some p) (mirror st0)) by now rewrite H1, Hk.
    assert (H2' : mirror st1 = afterExpiry now (Some p) (mirror st0))
      by now rewrite H2, Hk.
    split; [exact H1'|]. split; [exact H2'|]. split.
    + apply klc_set_prefix; [auto|]. intros _.
      now rewrite H1', H2', liveKeys_afterExpiry.
    + intros c Hg _. apply Hg0 in Hg. rewrite Hget0 in Hg. injection Hg as <-.
      exact H1.
  - destruct (computeKeysForPrefix_spec now (Some p) st0 Hc0) as (H1 & H2 & H3).
    destruct (computeKeysForPrefix now (Some p) st0) as [ks st1]. cbn [fst snd] in *.
    split; [exact H1|]. split; [exact H2|]. split.
    + apply klc_set_prefix; [exact H3|]. intros _.
      now rewrite H1, H2, liveKeys_afterExpiry.
    + intros c Hg Hvc. apply Hg0 in Hg. congruence.
Qed.

Lemma getCachedKeys_spec now prefix st :
  KeyListsConsistent st ->
  fst (getCachedKeys now prefix st) = liveKeys now prefix (mirror st)
  /\ mirror (snd (getCachedKeys now prefix st)) = afterExpiry now prefix (mirror st)
  /\ KeyListsConsistent (snd (getCachedKeys now prefix st))
  /\ (forall c, cacheFor prefix st = Some c -> KeyListCache.valid c = true ->
      fst (getCachedKeys now prefix st)
      = List.filter (aliveIn now (mirror st)) (KeyListCache.keys c)).
Proof.
  intros Hc.
  assert (Hall : forall q, (forall k, inScope q k = true) ->
    cacheFor q st = Some (allKeysCache st) ->
    fst (getCachedAllKeys now st) = liveKeys now q (mirror st)
    /\ mirror (snd (getCachedAllKeys now st)) = afterExpiry now q (mirror st)
    /\ KeyListsConsistent (snd (getCachedAllKeys now st))
    /\ (forall c, cacheFor q st = Some c -> KeyListCache.valid c = true ->
        fst (getCachedAllKeys now st)
        = List.filter (aliveIn now (mirror st)) (KeyListCache.keys c))).
  { intros q Hq Hcf. destruct (getCachedAllKeys_spec now st Hc) as (H1 & H2 & H3 & H4).
    assert (E1 : liveKeys now q (mirror st) = liveKeys now None (mirror st)).
    { unfold liveKeys. f_equal. apply List.filter_ext. intros kv. now rewrite Hq. }
    assert (E2 : afterExpiry now q (mirror st) = afterExpiry now None (mirror st)).
    { unfold afterExpiry, expired. apply List.filter_ext. intros kv. now rewrite Hq. }
    rewrite E1, E2. split; [exact H1|]. split; [exact H2|]. split; [exact H3|].
    intros c Hcc Hv. rewrite Hcf in Hcc. injection Hcc as <-. now apply H4. }
  unfold getCachedKeys. destruct prefix as [p|]; [|now apply Hall].
  destruct (String.eqb p "") eqn:E.
  - apply Hall; [intros k; unfold inScope; now rewrite E|].
    unfold cacheFor. now rewrite E.
  - destruct (getCachedPrefixKeys_spec now p st Hc) as (H1 & H2 & H3 & H4).
    split; [exact H1|]. split; [exact H2|]. split; [exact H3|].
    intros c Hcc Hv. unfold cacheFor in Hcc. rewrite E in Hcc. now apply H4.
Qed.

(** *** The invariant along every operation *)

Lemma getEntry_klc now key st :
  KeyListsConsistent st -> KeyListsConsistent (snd (getEntry now key st)).
Proof.
  intros H. pose proof (getEntry_cases now key st) as Hc.
  destruct (JsMap.get key (mirror st)) as [e|]; [|now rewrite Hc].
  destruct (Ttl.isAlive now (Some e)); rewrite Hc; [exact H|].
  now apply dropKey_klc.
Qed.

Lemma touch_klc now key ttl st :
  KeyListsConsistent st -> KeyListsConsistent (Store.touch now key ttl st).
Proof.
  intros H. unfold Store.touch.
  pose proof (getEntry_klc now key st H) as H1.
  destruct (getEntry now key st) as [[e|] st1]; cbn [snd] in H1; [|exact H1].
  now apply setInternal_klc.
Qed.

Lemma driverStage_data (b1 b2 : bool) ks p st :
  let st' := if b1 then driverCall (DriverClearPrefix p) st
             else if b2 then driverCall (DriverRemoveMany ks) st
                  else Store.driverRemoveEach ks st in
  mirror st' = mirror st /\ allKeysCache st' = allKeysCache st
  /\ prefixKeysCache st' = prefixKeysCache st.
Proof.
  destruct b1; [repeat split|]. destruct b2; [repeat split|].
  cbv zeta. destruct (driverRemoveEach_frame ks st) as (_ & _ & _ & _ & H1 & H2 & H3).
  auto.
Qed.

Lemma invalidatePrefixCache_data p st :
  mirror (invalidatePrefixCache p st) = mirror st
  /\ allKeysCache (invalidatePrefixCache p st) = allKeysCache st
  /\ (forall q c, In (q, c) (prefixKeysCache (invalidatePrefixCache p st)) ->
        KeyListCache.valid c = true -> In (q, c) (prefixKeysCache st)).
Proof.
  unfold invalidatePrefixCache.
  destruct (JsMap.get p (prefixKeysCache st)) as [c0|]; [|auto].
  split; [reflexivity|]. split; [reflexivity|].
  intros q c Hin Hv. cbn [prefixKeysCache with_prefixKeysCache] in Hin.
  apply In_set in Hin as [[= -> ->]|Hin]; [discriminate | exact Hin].
Qed.

Lemma invalidateForKeys_in ks : forall st q c,
  In (q, c) (prefixKeysCache
               (fold_left (fun s k => invalidatePrefixCachesForKey k s) ks st)) ->
  KeyListCache.valid c = true ->
  In (q, c) (prefixKeysCache st) /\ (forall k, In k ks -> startsWith k q = false).
Proof.
  induction ks as [|k ks IH]; intros st q c Hin Hv; cbn [fold_left] in Hin.
  - split; [exact Hin | intros k []].
  - destruct (IH _ q c Hin Hv) as [Hin' Hks].
    cbn [invalidatePrefixCachesForKey prefixKeysCache with_prefixKeysCache] in Hin'.
    destruct (invalidated_prefix_caches k _ q c Hin') as [_ H2].
    destruct (H2 Hv) as [Hin'' Hk]. split; [exact Hin''|].
    intros k' [<-|Hk']; auto.
Qed.

Lemma clear_klc now prefix st :
  KeyListsConsistent st -> KeyListsConsistent (Store.clear now prefix st).
Proof.
  intros Hc. unfold Store.clear, Store.keys.
  destruct (if truthy prefix then prefix else None) as [p|].
  - destruct (getCachedKeys_spec now (Some p) st Hc) as (_ & _ & H3 & _).
    destruct (getCachedKeys now (Some p) st) as [ks st1]. cbn [snd] in H3.
    cbv zeta. eapply klc_of_dataPart; [apply queueEmitKeys_frame|].
    match goal with |- context [invalidatePrefixCache p (invalidateAllKeysCache ?s)] =>
      destruct (driverStage_data (clearPrefix (driver (with_mirror
                  (JsMap.deleteAll ks (mirror st1)) st1)))
                  (removeMany (driver (with_mirror
                  (JsMap.deleteAll ks (mirror st1)) st1))) ks p
                  (with_mirror (JsMap.deleteAll ks (mirror st1)) st1))
        as (D1 & D2 & D3);
      generalize dependent s end.
    intros st3 D1 D2 D3. cbn [mirror allKeysCache prefixKeysCache with_mirror] in D1, D2, D3.
    destruct (invalidatePrefixCache_data p (invalidateAllKeysCache st3))
      as (I1 & I2 & I3).
    destruct (invalidateForKeys_frame ks (invalidatePrefixCache p (invalidateAllKeysCache st3)))
      as (_ & _ & _ & _ & F1 & F2).
    apply (klc_step st1); [exact H3| | |].
    + rewrite F1, I1. st_cbn. rewrite D1. apply NoDup_keysOf_deleteAll, H3.
    + rewrite F2, I2. st_cbn. discriminate.
    + intros q c Hin Hv.
      destruct (invalidateForKeys_in ks _ q c Hin Hv) as [Hin1 Hks].
      apply I3 in Hin1; [|exact Hv]. st_cbn in Hin1. rewrite D3 in Hin1.
      split; [exact Hin1|]. rewrite F1, I1. st_cbn. rewrite D1.
      apply scopeKeys_deleteAll. intros k Hk.
      rewrite inScope_startsWith. now apply Hks.
  - destruct (getCachedKeys_spec now None st Hc) as (_ & _ & H3 & _).
    destruct (getCachedKeys now None st) as [ks st1]. cbn [snd] in H3.
    cbv zeta. eapply klc_of_dataPart; [apply queueEmitKeys_frame|].
    destruct (driverStage_data false (removeMany (driver st1)) ks "" st1)
      as (D1 & D2 & D3). cbv zeta in D1, D2, D3.
    match goal with |- context [if removeMany (driver st1) then ?a else ?b] =>
      change (if false then driverCall (DriverClearPrefix "") st1
              else if removeMany (driver st1) then a else b)
        with (if removeMany (driver st1) then a else b) in D1, D2, D3;
      generalize dependent (if removeMany (driver st1) then a else b) end.
    intros st2 D1 D2 D3.
    apply (klc_step st1); [exact H3| | |].
    + st_cbn. apply NoDup_keysOf_deleteAll. rewrite D1. apply H3.
    + st_cbn. discriminate.
    + intros q c Hin Hv. exfalso. revert Hin Hv.
      unfold Store.invalidateEveryPrefixCache.
      cbn [prefixKeysCache with_prefixKeysCache].
      intros Hin Hv. apply in_map_iff in Hin as ([q' c'] & [= <- <-] & _).
      discriminate.
Qed.

Lemma get_klc now key st :
  KeyListsConsistent st -> KeyListsConsistent (snd (Store.get now key st)).
Proof.
  intros H. unfold Store.get. pose proof (getEntry_klc now key st H) as H1.
  now destruct (getEntry now key st).
Qed.

Lemma exec_klc now c st :
  KeyListsConsistent st -> KeyListsConsistent (snd (exec now c st)).
Proof.
  intros H.
  destruct c as [key|key|key v ttl|key|prefix|prefix|key ttl|key|
                 |key cb|key cb|p cb|p cb|cb|cb|cb|cb]; cbn [exec].
  - pose proof (get_klc now key st H) as H1. now destruct (Store.get now key st).
  - unfold Store.has. pose proof (getEntry_klc now key st H) as H1.
    now destruct (getEntry now key st).
  - now apply setInternal_klc.
  - now apply setInternal_klc.
  - unfold Store.keys. destruct (getCachedKeys_spec now prefix st H) as (_ & _ & H3 & _).
    now destruct (getCachedKeys now prefix st).
  - now apply clear_klc.
  - now apply touch_klc.
  - cbn [snd]. eapply klc_of_dataPart; [apply queueEmitKey_frame | exact H].
  - exact H.
  - eapply klc_of_dataPart; [|exact H]. reflexivity.
  - cbn [snd]. unfold Store.unsubscribeKey.
    destruct (JsMap.get key (keyListeners st)); [|exact H].
    destruct (JsSet.delete Nat.eqb cb l);
      (eapply klc_of_dataPart; [|exact H]); reflexivity.
  - eapply klc_of_dataPart; [|exact H]. reflexivity.
  - cbn [snd]. unfold Store.unsubscribePrefix.
    destruct (JsMap.get p (prefixListeners st)); [|exact H].
    destruct (JsSet.delete Nat.eqb cb l);
      (eapply klc_of_dataPart; [|exact H]); reflexivity.
  - eapply klc_of_dataPart; [|exact H]. reflexivity.
  - eapply klc_of_dataPart; [|exact H]. reflexivity.
  - eapply klc_of_dataPart; [|exact H]. reflexivity.
  - eapply klc_of_dataPart; [|exact H]. reflexivity.
Qed.

Lemma run_klc (p : Prog) : forall st,
  KeyListsConsistent st -> KeyListsConsistent (fst (run p st)).
Proof.
  induction p as [| | now c k IH | fn IHfn onR IHr onT IHt]; intros st H;
    cbn [run]; try exact H.
  - pose proof (exec_klc now c st H) as He.
    destruct (exec now c st) as [r st']. now apply IH.
  - pose proof (IHfn (enterBatch st)) as Hfn.
    destruct (run fn (enterBatch st)) as [st1 c]. cbn [fst] in Hfn.
    assert (Hb : KeyListsConsistent (batchFinally st1)).
    { eapply klc_of_dataPart; [apply batchFinally_frame|].
      apply Hfn. eapply klc_of_dataPart; [|exact H]. reflexivity. }
    destruct c; [now apply IHr | now apply IHt].
Qed.

Lemma getOrSetAsync_klc now key f beh opts st :
  KeyListsConsistent st ->
  KeyListsConsistent (snd (getOrSetAsync now key f beh opts st)).
Proof.
  intros H. unfold getOrSetAsync.
  assert (H1 : KeyListsConsistent (snd (if force opts then (VUndefined, st)
                                         else Store.get now key st))).
  { destruct (force opts); [exact H | now apply get_klc]. }
  destruct (if force opts then (VUndefined, st) else Store.get now key st)
    as [cached st1]. cbn [snd] in H1.
  destruct (negb (force opts) && negb (isUndefined cached)); [exact H1|].
  destruct (JsMap.get key (inFlight st1)); [exact H1|].
  destruct beh; (eapply klc_of_dataPart; [|exact H1]); reflexivity.
Qed.

Lemma fetchSettles_klc now p outcome st :
  KeyListsConsistent st -> KeyListsConsistent (fetchSettles now p outcome st).
Proof.
  intros H. unfold fetchSettles.
  destruct (findTask p (awaiting st)) as [t|]; [|exact H].
  destruct outcome as [v|err].
  - cbv zeta.
    match goal with |- context [with_inFlight _ ?s] =>
      apply (klc_of_dataPart s); [reflexivity|] end.
    apply setInternal_klc. eapply klc_of_dataPart; [|exact H]. reflexivity.
  - eapply klc_of_dataPart; [|exact H]. reflexivity.
Qed.

Lemma installRows_mirror now rows : forall toDelete st,
  List.NoDup (JsMap.keysOf (mirror st)) ->
  List.NoDup (JsMap.keysOf (mirror (snd (installRows now rows toDelete st)))).
Proof.
  induction rows as [|[k [e|]] rest IH]; intros toDelete st H; cbn [installRows];
    [exact H| |now apply IH].
  destruct (cleanupExpiredOnHydrate st && negb (Ttl.isAlive now (Some e)));
    [now apply IH|].
  apply IH. cbn [mirror with_mirror]. now apply NoDup_keysOf_set.
Qed.

(** Hydration ends with every cached list marked invalid. *)
Lemma hydrationSettles_klc now outcome st :
  KeyListsConsistent st -> KeyListsConsistent (hydrationSettles now outcome st).
Proof.
  intros H. unfold hydrationSettles. destruct (negb (hydrating st)); [exact H|].
  cbv zeta.
  assert (Hq : forall s, dataPart (queueEmitReady s) = dataPart s).
  { intros s. unfold queueEmitReady. destruct (0 <? batchDepth s)%nat; reflexivity. }
  assert (Hs : forall x s, dataPart (settleReady x s) = dataPart s).
  { intros x s. unfold settleReady. destruct (readyP s); reflexivity. }
  destruct outcome as [err|rows].
  - eapply klc_of_dataPart; [rewrite Hq, Hs; reflexivity|].
    eapply klc_of_dataPart; [|exact H]. reflexivity.
  - pose proof (installRows_mirror now rows [] (enterBatch (with_hydrating false st))
                  (klc_mirror st H)) as Hm.
    destruct (installRows now rows [] (enterBatch (with_hydrating false st)))
      as [toDelete st1]. cbn [snd] in Hm.
    eapply klc_of_dataPart; [rewrite Hq, Hs; reflexivity|].
    destruct (batchFinally_frame st1) as (_ & _ & Hd & _).
    destruct (driverStage_data false (removeMany (driver (batchFinally st1)))
                toDelete "" (batchFinally st1)) as (D1 & _). cbv zeta in D1.
    split.
    + st_cbn. unfold Store.invalidateEveryPrefixCache. st_cbn.
      unfold dataPart in Hd. injection Hd as Em _ _ _.
      destruct (cleanupExpiredOnHydrate (batchFinally st1)
                && negb (Nat.eqb (length toDelete) 0)).
      * cbn [negb] in D1. rewrite D1, Em. exact Hm.
      * rewrite Em. exact Hm.
    + st_cbn. unfold Store.invalidateEveryPrefixCache. st_cbn. discriminate.
    + intros q c Hin Hv. exfalso. revert Hin.
      st_cbn. unfold Store.invalidateEveryPrefixCache. st_cbn.
      intros Hin. apply in_map_iff in Hin as ([q' c'] & [= <- <-] & _).
      discriminate.
Qed.

Lemma createCache_klc opts : KeyListsConsistent (createCache opts).
Proof.
  unfold createCache.
  destruct (negb (orTrue (opt_hydrate opts)));
    (split; [constructor | discriminate | intros p c []]).
Qed.

Lemma step_klc a st : KeyListsConsistent st -> KeyListsConsistent (step a st).
Proof.
  intros H. destruct a as [p|now key f beh opts|now p outcome|now outcome];
    cbn [step].
  - now apply run_klc.
  - now apply getOrSetAsync_klc.
  - now apply fetchSettles_klc.
  - now apply hydrationSettles_klc.
Qed.

Lemma steps_klc h : forall st,
  KeyListsConsistent st -> KeyListsConsistent (steps h st).
Proof.
  unfold steps. induction h as [|a h IH]; intros st H; [exact H|].
  cbn [fold_left]. apply IH, step_klc, H.
Qed.

Lemma In_liveKeys now prefix (m : list (CacheKey * CacheEntry)) k :
  List.NoDup (JsMap.keysOf m) ->
  In k (liveKeys now prefix m) <->
  exists e, JsMap.get k m = Some e /\ Ttl.isAlive now (Some e) = true
            /\ (forall p, prefix = Some p -> startsWith k p = true).
Proof.
  intros Hnd. unfold liveKeys. rewrite in_map_iff. split.
  - intros ([k' e] & <- & Hin). apply List.filter_In in Hin as [Hin Hf].
    apply andb_true_iff in Hf as [Hs Ha]. cbn [fst snd] in *.
    exists e. split; [now apply In_get|]. split; [exact Ha|].
    intros p ->. now rewrite <- inScope_startsWith.
  - intros (e & Hg & Ha & Hs). exists (k, e). split; [reflexivity|].
    apply List.filter_In. split; [now apply get_Some_In|].
    cbn [fst snd]. rewrite Ha, andb_true_r.
    destruct prefix as [p|]; [|reflexivity].
    rewrite inScope_startsWith. now apply Hs.
Qed.

(** C1: take any history of a cache instance: [set], [remove], [clear],
    [keys] and every other store call, in or out of batches, fetches
    settling, hydration ending.  Then [keys(prefix)], for any prefix or
    none, at any instant [now], returns exactly the keys of the mirror that
    are alive at [now] and start with the prefix, each once, in the
    mirror's order; after the call these are all the keys the mirror has in
    that scope.  And when the call finds its cached list valid and prunes
    it, what it returns is that list without its dead keys, the others in
    the order they had. *)
Theorem keys_lists_exactly_the_live_keys
    (opts : CreateCacheOptions) (history : list Action)
    (now : Z) (prefix : option string) :
  let st := steps history (createCache opts) in
  let ks := fst (Store.keys now prefix st) in
  let st' := snd (Store.keys now prefix st) in
  ks = liveKeys now prefix (mirror st)
  /\ (forall k, In k ks <->
        exists e, JsMap.get k (mirror st) = Some e
                  /\ Ttl.isAlive now (Some e) = true
                  /\ (forall p, prefix = Some p -> startsWith k p = true))
  /\ List.NoDup ks
  /\ ks = scopeKeys prefix (mirror st')
  /\ (forall c, cacheFor prefix st = Some c -> KeyListCache.valid c = true ->
        ks = List.filter (aliveIn now (mirror st)) (KeyListCache.keys c)).
Proof.
  intros st ks st'.
  assert (Hc : KeyListsConsistent st) by apply steps_klc, createCache_klc.
  destruct (getCachedKeys_spec now prefix st Hc) as (H1 & H2 & H3 & H4).
  change (getCachedKeys now prefix st) with (Store.keys now prefix st) in H1, H2, H3, H4.
  fold ks in H1, H4. fold st' in H2, H3.
  split; [exact H1|]. split; [|split; [|split]].
  - intros k. rewrite H1. apply In_liveKeys, Hc.
  - rewrite H1. unfold liveKeys. apply (NoDup_keysOf_filter _ _ (klc_mirror st Hc)).
  - now rewrite H1, H2, liveKeys_afterExpiry.
  - exact H4.
Qed.

(** ** Nothing is pending outside a batch *)

Lemma KeepsQueue_refl st : KeepsQueue st st.
Proof. split; auto. Qed.

Lemma KeepsQueue_trans st1 st2 st3 :
  KeepsQueue st1 st2 -> KeepsQueue st2 st3 -> KeepsQueue st1 st3.
Proof.
  intros [D1 H1] [D2 H2]. split; [congruence|]. intros Hd.
  destruct (H1 Hd) as [A1 B1]. rewrite <- D1 in Hd. destruct (H2 Hd) as [A2 B2].
  split; congruence.
Qed.

Lemma KeepsQueue_of_notifPart st st' :
  notifPart st' = notifPart st -> KeepsQueue st st'.
Proof. unfold notifPart. intros [= Hd Hk Hr _]. split; auto. Qed.

Lemma queueEmitKey_keeps k st : KeepsQueue st (queueEmitKey k st).
Proof.
  unfold queueEmitKey, KeepsQueue.
  destruct (0 <? batchDepth st)%nat eqn:E; (split; [reflexivity|]).
  - intros Hd. rewrite Hd in E. discriminate.
  - intros _. auto.
Qed.

Lemma setInternal_keeps k e st : KeepsQueue st (setInternal k e st).
Proof.
  unfold setInternal.
  destruct e as [e|]; [destruct (nonPositiveTtl e)|]; cbv zeta;
    (eapply KeepsQueue_trans; [|apply queueEmitKey_keeps]);
    apply KeepsQueue_of_notifPart; reflexivity.
Qed.

Lemma queueEmitKeys_keeps ks : forall st, KeepsQueue st (Store.queueEmitKeys ks st).
Proof.
  unfold Store.queueEmitKeys.
  induction ks as [|k ks IH]; intros st; [apply KeepsQueue_refl|].
  cbn [fold_left]. eapply KeepsQueue_trans; [apply queueEmitKey_keeps | apply IH].
Qed.

Lemma driverStage_notifPart (b1 b2 : bool) ks p st :
  notifPart (if b1 then driverCall (DriverClearPrefix p) st
             else if b2 then driverCall (DriverRemoveMany ks) st
                  else Store.driverRemoveEach ks st) = notifPart st.
Proof.
  destruct b1; [reflexivity|]. destruct b2; [reflexivity|].
  apply driverRemoveEach_frame.
Qed.

Lemma invalidatePrefixCache_notifPart p st :
  notifPart (invalidatePrefixCache p st) = notifPart st.
Proof.
  unfold invalidatePrefixCache. now destruct (JsMap.get p (prefixKeysCache st)).
Qed.

Lemma clear_keeps now prefix st : KeepsQueue st (Store.clear now prefix st).
Proof.
  unfold Store.clear, Store.keys.
  destruct (if truthy prefix then prefix else None) as [p|].
  - pose proof (getCachedKeys_frame now (Some p) st) as (Hk & _).
    destruct (getCachedKeys now (Some p) st) as [ks st1]. cbn [snd] in Hk.
    cbv zeta.
    apply (KeepsQueue_trans st st1); [now apply KeepsQueue_of_notifPart|].
    eapply KeepsQueue_trans; [|apply queueEmitKeys_keeps].
    apply KeepsQueue_of_notifPart.
    match goal with |- context [fold_left _ ks ?s] =>
      destruct (invalidateForKeys_frame ks s) as (H1 & _) end.
    rewrite H1, invalidatePrefixCache_notifPart.
    match goal with |- notifPart (invalidateAllKeysCache ?s) = _ =>
      change (notifPart (invalidateAllKeysCache s)) with (notifPart s) end.
    now rewrite driverStage_notifPart.
  - pose proof (getCachedKeys_frame now None st) as (Hk & _).
    destruct (getCachedKeys now None st) as [ks st1]. cbn [snd] in Hk.
    cbv zeta.
    apply (KeepsQueue_trans st st1); [now apply KeepsQueue_of_notifPart|].
    eapply KeepsQueue_trans; [|apply queueEmitKeys_keeps].
    apply KeepsQueue_of_notifPart.
    exact (driverStage_notifPart false (removeMany (driver st1)) ks "" st1).
Qed.

Lemma exec_keeps now c st : KeepsQueue st (snd (exec now c st)).
Proof.
  destruct c as [key|key|key v ttl|key|prefix|prefix|key ttl|key|
                 |key cb|key cb|p cb|p cb|cb|cb|cb|cb]; cbn [exec].
  - pose proof (get_frame now key st) as (H & _).
    destruct (Store.get now key st). now apply KeepsQueue_of_notifPart.
  - pose proof (has_frame now key st) as (H & _).
    destruct (Store.has now key st). now apply KeepsQueue_of_notifPart.
  - apply setInternal_keeps.
  - apply setInternal_keeps.
  - pose proof (getCachedKeys_frame now prefix st) as (H & _).
    unfold Store.keys. destruct (getCachedKeys now prefix st).
    now apply KeepsQueue_of_notifPart.
  - apply clear_keeps.
  - cbn [snd]. unfold Store.touch.
    pose proof (getEntry_frame now key st) as (H & _).
    destruct (getEntry now key st) as [[e|] st1]; cbn [snd] in H;
      [|now apply KeepsQueue_of_notifPart].
    apply (KeepsQueue_trans st st1); [now apply KeepsQueue_of_notifPart|].
    apply setInternal_keeps.
  - apply queueEmitKey_keeps.
  - apply KeepsQueue_refl.
  - apply KeepsQueue_of_notifPart; reflexivity.
  - cbn [snd]. unfold Store.unsubscribeKey.
    destruct (JsMap.get key (keyListeners st)); [|apply KeepsQueue_refl].
    destruct (JsSet.delete Nat.eqb cb l); apply KeepsQueue_of_notifPart; reflexivity.
  - apply KeepsQueue_of_notifPart; reflexivity.
  - cbn [snd]. unfold Store.unsubscribePrefix.
    destruct (JsMap.get p (prefixListeners st)); [|apply KeepsQueue_refl].
    destruct (JsSet.delete Nat.eqb cb l); apply KeepsQueue_of_notifPart; reflexivity.
  - apply KeepsQueue_of_notifPart; reflexivity.
  - apply KeepsQueue_of_notifPart; reflexivity.
  - apply KeepsQueue_of_notifPart; reflexivity.
  - apply KeepsQueue_of_notifPart; reflexivity.
Qed.

Lemma Idle_keeps st st' : KeepsQueue st st' -> Idle st -> Idle st'.
Proof.
  intros [D H] Hi Hd. rewrite D in Hd. destruct (Hi Hd) as [A B].
  destruct (H Hd) as [A' B']. split; congruence.
Qed.

Lemma batchFinally_Idle st : Idle (batchFinally st).
Proof.
  unfold batchFinally, Idle. cbv zeta. cbn [batchDepth with_batchDepth].
  destruct (Nat.pred (batchDepth st) =? 0)%nat eqn:E.
  - intros _.
    match goal with |- context [emitAll ?ks ?s] =>
      destruct (emitAll_frame ks s) as (_ & _ & _ & _ & _ & F6 & F7);
      generalize dependent (emitAll ks s) end.
    intros s1 F6 F7. cbn in F6.
    destruct (pendingReadyEmit s1) eqn:Hp; cbn; auto.
  - intros Hd. cbn in Hd. apply Nat.eqb_neq in E. contradiction.
Qed.

Lemma run_Idle (p : Prog) : forall st, Idle st -> Idle (fst (run p st)).
Proof.
  induction p as [| | now c k IH | fn IHfn onR IHr onT IHt]; intros st H;
    cbn [run]; try exact H.
  - pose proof (exec_keeps now c st) as He.
    destruct (exec now c st) as [r st']. cbn [snd] in He.
    apply IH. eapply Idle_keeps; eauto.
  - destruct (run fn (enterBatch st)) as [st1 c].
    destruct c; [apply IHr | apply IHt]; apply batchFinally_Idle.
Qed.

Lemma getOrSetAsync_notifPart now key f beh opts st :
  notifPart (snd (getOrSetAsync now key f beh opts st)) = notifPart st.
Proof.
  unfold getOrSetAsync.
  assert (H : notifPart (snd (if force opts then (VUndefined, st)
                              else Store.get now key st)) = notifPart st).
  { destruct (force opts); [reflexivity|]. apply get_frame. }
  destruct (if force opts then (VUndefined, st) else Store.get now key st)
    as [cached st1]. cbn [snd] in H.
  destruct (negb (force opts) && negb (isUndefined cached)); [exact H|].
  destruct (JsMap.get key (inFlight st1)); [exact H|].
  destruct beh; cbn; exact H.
Qed.

Lemma fetchSettles_keeps now p outcome st :
  KeepsQueue st (fetchSettles now p outcome st).
Proof.
  unfold fetchSettles.
  destruct (findTask p (awaiting st)) as [t|]; [|apply KeepsQueue_refl].
  destruct outcome as [v|err]; [|apply KeepsQueue_of_notifPart; reflexivity].
  cbv zeta. unfold Store.set.
  match goal with |- context [setInternal ?k ?e ?s] =>
    apply (KeepsQueue_trans st s);
      [apply KeepsQueue_of_notifPart; reflexivity|];
    apply (KeepsQueue_trans s (setInternal k e s));
      [apply setInternal_keeps | apply KeepsQueue_of_notifPart; reflexivity]
  end.
Qed.

Lemma hydrationSettles_idle now outcome st :
  batchDepth st = 0%nat -> Idle st ->
  batchDepth (hydrationSettles now outcome st) = 0%nat
  /\ Idle (hydrationSettles now outcome st).
Proof.
  intros Hd Hi. unfold hydrationSettles.
  destruct (negb (hydrating st)); [auto|]. cbv zeta.
  assert (Hq : forall s, batchDepth s = 0%nat ->
                 batchDepth (queueEmitReady s) = 0%nat
                 /\ pendingKeys (queueEmitReady s) = pendingKeys s
                 /\ pendingReadyEmit (queueEmitReady s) = pendingReadyEmit s).
  { intros s Hs. unfold queueEmitReady. rewrite Hs. cbn. auto. }
  assert (Hs : forall x s, notifPart (settleReady x s) = notifPart s).
  { intros x s. unfold settleReady. destruct (readyP s); reflexivity. }
  destruct (Hi Hd) as [Hk Hr].
  destruct outcome as [err|rows].
  - match goal with |- context [queueEmitReady ?s] =>
      destruct (Hq s) as (Q1 & Q2 & Q3) end.
    { pose proof (Hs (Rejected err) (with_ready true (with_hydrating false st))) as E.
      unfold notifPart in E. injection E as E1 _ _ _. rewrite E1. exact Hd. }
    split; [exact Q1|]. intros _. rewrite Q2, Q3.
    pose proof (Hs (Rejected err) (with_ready true (with_hydrating false st))) as E.
    unfold notifPart in E. injection E as _ E2 E3 _. rewrite E2, E3. auto.
  - pose proof (installRows_frame now rows [] (enterBatch (with_hydrating false st)))
      as (Hn & _).
    destruct (installRows now rows [] (enterBatch (with_hydrating false st)))
      as [toDelete st1]. cbn [snd] in Hn.
    unfold notifPart in Hn. injection Hn as N1 _ _ _. cbn in N1. rewrite Hd in N1.
    pose proof (batchFinally_Idle st1) as Hbi.
    destruct (batchFinally_frame st1) as (_ & _ & _ & _ & Hbd).
    rewrite N1 in Hbd. cbn in Hbd. destruct (Hbi Hbd) as [Bk Br].
    pose proof (driverStage_notifPart false (removeMany (driver (batchFinally st1)))
                  toDelete "" (batchFinally st1)) as Hds.
    match goal with |- context [queueEmitReady (settleReady ?x ?s)] =>
      pose proof (Hs x s) as E; destruct (Hq (settleReady x s)) as (Q1 & Q2 & Q3)
    end.
    { unfold notifPart in E. injection E as E1 _ _ _. rewrite E1. st_cbn.
      unfold Store.invalidateEveryPrefixCache. st_cbn.
      destruct (cleanupExpiredOnHydrate (batchFinally st1)
                && negb (Nat.eqb (length toDelete) 0)); [|exact Hbd].
      unfold notifPart in Hds. injection Hds as D1 _ _ _. cbn [negb] in D1.
      rewrite D1. exact Hbd. }
    split; [exact Q1|]. intros _. rewrite Q2, Q3.
    unfold notifPart in E. injection E as _ E2 E3 _. rewrite E2, E3. st_cbn.
    unfold Store.invalidateEveryPrefixCache. st_cbn.
    destruct (cleanupExpiredOnHydrate (batchFinally st1)
              && negb (Nat.eqb (length toDelete) 0)); [|auto].
    unfold notifPart in Hds. injection Hds as _ D2 D3 _. cbn [negb] in D2, D3.
    rewrite D2, D3. auto.
Qed.

(** Between two turns no batch is open and nothing is pending: the
    hypotheses under which the flush of a batch is stated hold in every
    state a history reaches. *)
Lemma steps_idle opts h :
  let st := steps h (createCache opts) in
  batchDepth st = 0%nat /\ pendingKeys st = [] /\ pendingReadyEmit st = false.
Proof.
  cbv zeta.
  assert (H : forall st, batchDepth st = 0%nat /\ Idle st ->
                         batchDepth (steps h st) = 0%nat /\ Idle (steps h st)).
  { unfold steps. induction h as [|a h IH]; intros st [Hd Hi]; [auto|].
    cbn [fold_left]. apply IH.
    destruct a as [p|now key f beh opts'|now p outcome|now outcome]; cbn [step].
    - pose proof (run_SyncStep p st) as ((D & _) & _).
      split; [congruence | now apply run_Idle].
    - pose proof (getOrSetAsync_notifPart now key f beh opts' st) as E.
      pose proof (KeepsQueue_of_notifPart _ _ E) as [D K].
      split; [congruence | eapply Idle_keeps; eauto; now split].
    - pose proof (fetchSettles_keeps now p outcome st) as [D K].
      split; [congruence | eapply Idle_keeps; eauto; now split].
    - now apply hydrationSettles_idle. }
  destruct (H (createCache opts)) as [Hd Hi].
  { unfold createCache, Idle.
    destruct (negb (orTrue (opt_hydrate opts))); cbn; auto. }
  destruct (Hi Hd). auto.
Qed.

(** ** A history, run *)

(** [set("a:1", 1, 10)] at 0, [set("b", 2)] at 1, [keys("a:")] at 5, then
    [keys("a:")] at 20 when [a:1] has expired, then [keys()]. *)
Example keys_along_a_history :
  let st0 := createCache {| opt_driver := Build_CacheDriver false false false;
                            opt_hydrate := Some false;
                            opt_cleanupExpiredOnHydrate := None |} in
  let st1 := steps [ASync (PCall 0 (CSet "a:1" (VNum 1) (Some 10)) (fun _ =>
                           PCall 1 (CSet "b" (VNum 2) None) (fun _ => PRet)))] st0 in
  let (ks1, st2) := Store.keys 5 (Some "a:") st1 in
  let (ks2, st3) := Store.keys 20 (Some "a:") st2 in
  let (ks3, st4) := Store.keys 21 None st3 in
  ks1 = ["a:1"] /\ ks2 = [] /\ ks3 = ["b"]
  /\ JsMap.keysOf (mirror st4) = ["b"]
  /\ driverCalls st4
     = [DriverSet "a:1" (makeEntry 0 (VNum 1) (Some 10));
        DriverSet "b" (makeEntry 1 (VNum 2) None);
        DriverRemove "a:1"].
Proof. vm_compute. repeat split. Qed.

(** Hydration with one live and one expired row, at [T0 + 1500]. *)
Example hydration_drops_expired_rows :
  let st0 := createCache {| opt_driver := Build_CacheDriver true true false;
                            opt_hydrate := None;
                            opt_cleanupExpiredOnHydrate := None |} in
  let st1 := steps [AHydrationSettles 1500
                      (Rows [("user:1", Some (makeEntry 0 (VStr "A") (Some 1000)));
                             ("user:2", Some (makeEntry 0 (VStr "B") None))])] st0 in
  Store.isReady st0 = false /\ Store.isReady st1 = true
  /\ Store.readyPromise st1 = Some (Fulfilled VUndefined)
  /\ fst (Store.keys 1500 (Some "user:") st1) = ["user:2"]
  /\ fst (Store.get 1500 "user:1" st1) = VUndefined
  /\ driverCalls st1 = [DriverRemoveMany ["user:1"]].
Proof. vm_compute. repeat split. Qed.

(** * More of the code *)

(** * More of the engine *)

(** ** Reads after writes *)

Lemma setInternal_data key entry st :
  mirror (setInternal key entry st)
  = match entry with
    | None => JsMap.delete key (mirror st)
    | Some e => if nonPositiveTtl e then JsMap.delete key (mirror st)
                else JsMap.set key e (mirror st)
    end
  /\ driverCalls (setInternal key entry st)
     = driverCalls st
       ++ [match entry with
           | None => DriverRemove key
           | Some e => if nonPositiveTtl e then DriverRemove key else DriverSet key e
           end].
Proof.
  unfold setInternal.
  destruct entry as [e|]; [destruct (nonPositiveTtl e)|]; cbv zeta;
    match goal with |- context [queueEmitKey key ?s] =>
      destruct (queueEmitKey_frame key s) as (Hd & _) end;
    unfold dataPart in Hd; injection Hd as -> _ _ ->; split; reflexivity.
Qed.

(** What [get] returns, read off the mirror. *)
Lemma get_value now key st :
  fst (Store.get now key st)
  = match JsMap.get key (mirror st) with
    | Some e => if Ttl.isAlive now (Some e) then value e else VUndefined
    | None => VUndefined
    end.
Proof.
  unfold Store.get. pose proof (getEntry_cases now key st) as Hc.
  destruct (JsMap.get key (mirror st)) as [e|]; [|now rewrite Hc].
  destruct (Ttl.isAlive now (Some e)); now rewrite Hc.
Qed.

Lemma isAlive_fresh now now' v ttl :
  match ttl with None => True | Some T => 0 < T /\ now' - now < T end ->
  Ttl.isAlive now' (Some (makeEntry now v ttl)) = true.
Proof.
  unfold Ttl.isAlive, makeEntry. cbn [ttlMs createdAt].
  destruct ttl as [T|]; [|reflexivity]. intros [Hpos Hlt].
  destruct (T =? 0); [reflexivity|]. now apply Z.ltb_lt.
Qed.

(** The entry that [set] stores, when it stores one, and its being alive
    until the TTL has elapsed. *)
Lemma set_stores_live_entry
    (now now' : Z) (key : CacheKey) (v : JsValue) (ttl : option Z) (st : State) :
  match ttl with None => True | Some T => 0 < T /\ now' - now < T end ->
  JsMap.get key (mirror (Store.set now key v ttl st)) = Some (makeEntry now v ttl)
  /\ Ttl.isAlive now' (Some (makeEntry now v ttl)) = true.
Proof.
  intros Httl. split; [|now apply isAlive_fresh].
  assert (Hnp : nonPositiveTtl (makeEntry now v ttl) = false).
  { unfold nonPositiveTtl, makeEntry. cbn [ttlMs]. destruct ttl as [T|]; [|reflexivity].
    apply Z.leb_gt. lia. }
  unfold Store.set.
  destruct (setInternal_data key (Some (makeEntry now v ttl)) st) as [-> _].
  rewrite Hnp. apply get_set_eq.
Qed.

(** X1: Round trip: a value set without a TTL, or with a positive TTL that has
    not elapsed at [now'], is what [get] returns at [now'], and [has] is
    true; the read evicts nothing and changes nothing. *)
Theorem get_after_set
    (now now' : Z) (key : CacheKey) (v : JsValue) (ttl : option Z) (st : State) :
  match ttl with None => True | Some T => 0 < T /\ now' - now < T end ->
  let st1 := Store.set now key v ttl st in
  Store.get now' key st1 = (v, st1)
  /\ Store.has now' key st1 = (true, st1).
Proof.
  intros Httl st1.
  destruct (set_stores_live_entry now now' key v ttl st Httl) as [Hg Ha].
  fold st1 in Hg.
  pose proof (getEntry_cases now' key st1) as Hc. rewrite Hg, Ha in Hc.
  unfold Store.get, Store.has. rewrite Hc.
  split; reflexivity.
Qed.

Lemma get_after_set_witness :
  let st1 := Store.set 0 "k" (VNum 7) (Some 10)
               (emptyState (Build_CacheDriver false false false) true) in
  (0 < 10 /\ 9 - 0 < 10) /\ Store.get 9 "k" st1 = (VNum 7, st1).
Proof.
  intros st1. split; [lia|].
  apply (get_after_set 0 9 "k" (VNum 7) (Some 10)). cbn. lia.
Defined.




(** X3: After [remove(key)], in any state a history reaches: [get] is
    [undefined], [has] is false, [meta] is [null], none of them changes the
    state, and [keys] does not list the key. *)
Theorem reads_after_remove
    (opts : CreateCacheOptions) (history : list Action)
    (now now' : Z) (key : CacheKey) (prefix : option string) :
  let st1 := Store.remove key (steps history (createCache opts)) in
  Store.get now key st1 = (VUndefined, st1)
  /\ Store.has now key st1 = (false, st1)
  /\ StoreMore.meta now now' key st1 = (None, st1)
  /\ ~ In key (fst (Store.keys now prefix st1)).
Proof.
  intros st1.
  assert (Hg : JsMap.get key (mirror st1) = None).
  { subst st1. unfold Store.remove.
    destruct (setInternal_data key None (steps history (createCache opts))) as [-> _].
    apply get_delete_eq. }
  assert (Hc1 : KeyListsConsistent st1).
  { subst st1. apply setInternal_klc, steps_klc, createCache_klc. }
  pose proof (getEntry_cases now key st1) as Hc. rewrite Hg in Hc.
  unfold Store.get, Store.has, StoreMore.meta. rewrite Hc. cbn [computeMeta].
  repeat split.
  unfold Store.keys. destruct (getCachedKeys_spec now prefix st1 Hc1) as (-> & _).
  intros Hin. apply (In_liveKeys now prefix _ key (klc_mirror st1 Hc1)) in Hin.
  destruct Hin as (e & He & _). congruence.
Qed.

Lemma getEntry_value now key st :
  fst (getEntry now key st)
  = match JsMap.get key (mirror st) with
    | Some e => if Ttl.isAlive now (Some e) then Some e else None
    | None => None
    end.
Proof.
  pose proof (getEntry_cases now key st) as Hc.
  destruct (JsMap.get key (mirror st)) as [e|]; [|now rewrite Hc].
  destruct (Ttl.isAlive now (Some e)); now rewrite Hc.
Qed.

Lemma setInternal_other key entry st k' :
  k' <> key ->
  JsMap.get k' (mirror (setInternal key entry st)) = JsMap.get k' (mirror st).
Proof.
  intros Hne. destruct (setInternal_data key entry st) as [-> _].
  destruct entry as [e|]; [destruct (nonPositiveTtl e)|];
    try (apply get_delete_ne; congruence); apply get_set_ne; congruence.
Qed.

(** X4: A write to one key leaves every other key as it was: after [set],
    [remove] or [touch] on [key], [get(k')] and [has(k')] answer as before
    for every [k' <> key], at any instant. *)
Theorem writes_leave_other_keys
    (now now' : Z) (key k' : CacheKey) (v : JsValue) (ttl : option Z) (st : State) :
  k' <> key ->
  (fst (Store.get now' k' (Store.set now key v ttl st)) = fst (Store.get now' k' st)
   /\ fst (Store.has now' k' (Store.set now key v ttl st)) = fst (Store.has now' k' st))
  /\ (fst (Store.get now' k' (Store.remove key st)) = fst (Store.get now' k' st)
      /\ fst (Store.has now' k' (Store.remove key st)) = fst (Store.has now' k' st))
  /\ (fst (Store.get now' k' (Store.touch now key ttl st)) = fst (Store.get now' k' st)
      /\ fst (Store.has now' k' (Store.touch now key ttl st)) = fst (Store.has now' k' st)).
Proof.
  intros Hne.
  assert (Hread : forall s s', JsMap.get k' (mirror s') = JsMap.get k' (mirror s) ->
            fst (Store.get now' k' s') = fst (Store.get now' k' s)
            /\ fst (Store.has now' k' s') = fst (Store.has now' k' s)).
  { intros s s' E. unfold Store.get, Store.has.
    pose proof (getEntry_value now' k' s) as H1.
    pose proof (getEntry_value now' k' s') as H2. rewrite E in H2.
    destruct (getEntry now' k' s) as [e1 s1], (getEntry now' k' s') as [e2 s2].
    cbn [fst] in *. now rewrite H1, H2. }
  split; [apply Hread, setInternal_other, Hne|].
  split; [apply Hread, setInternal_other, Hne|].
  apply Hread. unfold Store.touch.
  pose proof (getEntry_cases now key st) as Hc.
  destruct (JsMap.get key (mirror st)) as [e|] eqn:Hg; [|now rewrite Hc].
  destruct (Ttl.isAlive now (Some e)); rewrite Hc.
  - now apply setInternal_other.
  - destruct (dropKey_data key st) as (-> & _). apply get_delete_ne. congruence.
Qed.

Lemma writes_leave_other_keys_witness :
  let st := Store.set 0 "a" (VNum 1) None
              (emptyState (Build_CacheDriver false false false) true) in
  "a" <> "b"
  /\ fst (Store.get 5 "a" (Store.set 1 "b" (VNum 2) None st)) = VNum 1
  /\ fst (Store.get 5 "a" (Store.remove "b" st)) = VNum 1.
Proof.
  intros st. assert (Hne : "a" <> "b") by discriminate.
  destruct (writes_leave_other_keys 1 5 "b" "a" (VNum 2) None st Hne)
    as ((H1 & _) & (H2 & _) & _).
  split; [exact Hne|]. split; [rewrite H1 | rewrite H2]; reflexivity.
Defined.

(** ** [meta] and [computeMeta] *)

(** X5: [meta(key)] reads the clock twice, in the liveness test at [now] and
    in [computeMeta] at [now'].  It ends in the same state as [get(key)] at
    [now] and is [null] exactly when [has(key)] is false then; otherwise it
    describes the entry of the key, which was live at [now]: without a TTL
    (or with [ttlMs = 0]) it carries [createdAt] only, and with a TTL [T] it
    carries [expiresAt = createdAt + T] and
    [remainingMs = max(0, expiresAt - now')], which is never negative, is
    [0] exactly when the entry has expired by the second reading of the
    clock, and is [expiresAt - now > 0] when both readings give the same
    instant. *)
Theorem meta_describes_live_entry (now now' : Z) (key : CacheKey) (st : State) :
  snd (StoreMore.meta now now' key st) = snd (Store.get now key st)
  /\ (fst (StoreMore.meta now now' key st) = None
      <-> fst (Store.has now key st) = false)
  /\ (forall m, fst (StoreMore.meta now now' key st) = Some m ->
      exists e, JsMap.get key (mirror st) = Some e
        /\ Ttl.isAlive now (Some e) = true
        /\ metaCreatedAt m = createdAt e
        /\ match metaTtlMs m with
           | None => (ttlMs e = None \/ ttlMs e = Some 0)
                     /\ expiresAt m = None /\ remainingMs m = None
           | Some T => ttlMs e = Some T /\ T <> 0
                       /\ expiresAt m = Some (createdAt e + T)
                       /\ remainingMs m = Some (Z.max 0 (createdAt e + T - now'))
                       /\ 0 <= Z.max 0 (createdAt e + T - now')
                       /\ (remainingMs m = Some 0 <-> now' - createdAt e >= T)
                       /\ (now' = now ->
                           remainingMs m = Some (createdAt e + T - now)
                           /\ 0 < createdAt e + T - now)
           end).
Proof.
  unfold StoreMore.meta, Store.get, Store.has.
  pose proof (getEntry_cases now key st) as Hc.
  destruct (JsMap.get key (mirror st)) as [e|] eqn:Hg.
  - destruct (Ttl.isAlive now (Some e)) eqn:Ha; rewrite Hc; cbn [fst snd].
    + split; [reflexivity|]. split.
      * unfold computeMeta. destruct (ttlMs e) as [t|]; [destruct (t =? 0)|];
          split; discriminate.
      * intros m Hm. exists e. split; [reflexivity|]. split; [exact Ha|].
        unfold computeMeta in Hm. unfold Ttl.isAlive in Ha.
        destruct (ttlMs e) as [t|] eqn:Ht.
        -- destruct (t =? 0) eqn:E; injection Hm as <-; cbn.
           ++ apply Z.eqb_eq in E. subst t. auto.
           ++ apply Z.eqb_neq in E. apply Z.ltb_lt in Ha.
              split; [reflexivity|]. split; [reflexivity|]. split; [exact E|].
              split; [reflexivity|]. split; [reflexivity|]. split; [lia|].
              split; [split|].
              ** intros [= H0]. lia.
              ** intros H0. f_equal. lia.
              ** intros ->. split; [f_equal; lia | lia].
        -- injection Hm as <-. cbn. auto.
    + split; [reflexivity|]. split; [split; reflexivity|]. discriminate.
  - rewrite Hc. cbn [fst snd computeMeta].
    split; [reflexivity|]. split; [split; reflexivity|]. discriminate.
Qed.

(** ** [update] *)

(** X6: [update(key, updater, ttlMs)] returns [updater] of what [get(key)]
    returns, and is that [get] followed by [set(key, next, ttlMs)].
    Without a TTL, or with a positive one, [get] then returns the new value;
    with [ttlMs <= 0] the value is still returned to the caller but the key
    is removed from the mirror. *)
Theorem update_is_get_then_set
    (now : Z) (key : CacheKey) (updater : JsValue -> JsValue)
    (ttl : option Z) (st : State) :
  let prev := fst (Store.get now key st) in
  let r := StoreMore.update now key updater ttl st in
  fst r = updater prev
  /\ snd r = Store.set now key (updater prev) ttl (snd (Store.get now key st))
  /\ (match ttl with None => True | Some T => 0 < T end ->
      Store.get now key (snd r) = (updater prev, snd r))
  /\ (forall T, ttl = Some T -> T <= 0 ->
      JsMap.get key (mirror (snd r)) = None
      /\ fst (Store.get now key (snd r)) = VUndefined).
Proof.
  intros prev r. subst prev r. unfold StoreMore.update.
  destruct (Store.get now key st) as [prev st1]. cbn [fst snd].
  split; [reflexivity|]. split; [reflexivity|]. split.
  - intros Httl.
    destruct (set_stores_live_entry now now key (updater prev) ttl st1) as [Hg Ha].
    { destruct ttl as [T|]; [lia | exact I]. }
    pose proof (getEntry_cases now key
                  (Store.set now key (updater prev) ttl st1)) as Hc.
    rewrite Hg, Ha in Hc. unfold Store.get. now rewrite Hc.
  - intros T -> HT.
    assert (Hg : JsMap.get key (mirror (Store.set now key (updater prev) (Some T) st1))
                 = None).
    { unfold Store.set.
      destruct (setInternal_data key (Some (makeEntry now (updater prev) (Some T))) st1)
        as [-> _].
      unfold nonPositiveTtl, makeEntry. cbn [ttlMs].
      apply Z.leb_le in HT. rewrite HT. apply get_delete_eq. }
    split; [exact Hg|]. now rewrite get_value, Hg.
Qed.


(** ** Subscriptions *)

Lemma JsSet_delete_idem (cb : nat) (s : list nat) :
  JsSet.delete Nat.eqb cb (JsSet.delete Nat.eqb cb s) = JsSet.delete Nat.eqb cb s.
Proof.
  unfold JsSet.delete. rewrite filter_filter. apply List.filter_ext.
  intros y. now destruct (negb (Nat.eqb cb y)).
Qed.

Lemma JsSet_delete_notin (cb : nat) (s : list nat) :
  ~ In cb (JsSet.delete Nat.eqb cb s).
Proof.
  unfold JsSet.delete. intros H. apply List.filter_In in H as [_ H].
  now rewrite Nat.eqb_refl in H.
Qed.

Lemma JsSet_delete_absent (cb : nat) (s : list nat) :
  ~ In cb s -> JsSet.delete Nat.eqb cb s = s.
Proof.
  intros H. unfold JsSet.delete. apply filter_all. intros y Hy.
  destruct (Nat.eqb cb y) eqn:E; [|reflexivity].
  apply Nat.eqb_eq in E. subst. contradiction.
Qed.

Lemma JsSet_add_In (cb : nat) (s : list nat) :
  In cb (JsSet.add Nat.eqb cb s).
Proof.
  unfold JsSet.add, JsSet.mem. destruct (existsb (Nat.eqb cb) s) eqn:E.
  - apply existsb_exists in E as (y & Hy & Heq). apply Nat.eqb_eq in Heq. now subst.
  - apply in_or_app. right. now left.
Qed.

Lemma JsSet_add_absent (cb : nat) (s : list nat) :
  ~ In cb s -> JsSet.add Nat.eqb cb s = s ++ [cb].
Proof.
  intros H. unfold JsSet.add, JsSet.mem.
  destruct (existsb (Nat.eqb cb) s) eqn:E; [|reflexivity].
  apply existsb_exists in E as (y & Hy & Heq). apply Nat.eqb_eq in Heq.
  subst. contradiction.
Qed.

Lemma JsMap_set_set {V : Type} k (v w : V) (m : list (string * V)) :
  JsMap.set k v (JsMap.set k w m) = JsMap.set k v m.
Proof.
  induction m as [|[k' v'] r IH]; cbn.
  - now rewrite String.eqb_refl.
  - destruct (String.eqb k' k) eqn:E; cbn; rewrite E; [reflexivity | now rewrite IH].
Qed.

Lemma JsMap_set_same {V : Type} k (v : V) (m : list (string * V)) :
  JsMap.get k m = Some v -> JsMap.set k v m = m.
Proof.
  induction m as [|[k' v'] r IH]; cbn; [discriminate|].
  destruct (String.eqb k' k) eqn:E.
  - now intros [= ->].
  - intros H. now rewrite IH.
Qed.

Lemma JsMap_set_absent {V : Type} k (v : V) (m : list (string * V)) :
  JsMap.get k m = None -> JsMap.set k v m = m ++ [(k, v)].
Proof.
  induction m as [|[k' v'] r IH]; cbn; [reflexivity|].
  destruct (String.eqb k' k) eqn:E; [discriminate|].
  intros H. now rewrite IH.
Qed.

(** Subscribe, then the two steps of the unsubscribe function, on a registry
    map. *)
Lemma registry_unsubscribe_undoes k (cb : nat) (m : list (string * list nat)) :
  ~ In cb (Store.listenersOf k m) -> JsMap.get k m <> Some [] ->
  let m1 := JsMap.set k (JsSet.add Nat.eqb cb (Store.listenersOf k m)) m in
  match JsMap.get k m1 with
  | None => m1
  | Some s => match JsSet.delete Nat.eqb cb s with
              | [] => JsMap.delete k m1
              | s' => JsMap.set k s' m1
              end
  end = m.
Proof.
  unfold Store.listenersOf, Listener in *.
  intros Hnotin Hne. cbv zeta. rewrite get_set_eq.
  rewrite (JsSet_add_absent cb _ Hnotin).
  set (old := match JsMap.get k m with Some s => s | None => [] end) in *.
  assert (Hdel : JsSet.delete Nat.eqb cb (old ++ [cb]) = old).
  { unfold JsSet.delete. rewrite List.filter_app. cbn. rewrite Nat.eqb_refl. cbn.
    rewrite app_nil_r. now apply JsSet_delete_absent. }
  rewrite Hdel. subst old.
  destruct (JsMap.get k m) as [s|] eqn:Hg.
  - destruct s as [|x t]; [congruence|].
    rewrite JsMap_set_set. now apply JsMap_set_same.
  - rewrite (JsMap_set_absent k _ m Hg), delete_app.
    rewrite (get_None_delete k m Hg). unfold JsMap.delete. cbn.
    rewrite String.eqb_refl. cbn. apply app_nil_r.
Qed.

(** X7: Calling an unsubscribe function twice is calling it once, for the four
    kinds of subscription. *)
Theorem unsubscribe_twice_is_once (key : CacheKey) (cb : Listener) (st : State) :
  Store.unsubscribeKey key cb (Store.unsubscribeKey key cb st)
  = Store.unsubscribeKey key cb st
  /\ Store.unsubscribePrefix key cb (Store.unsubscribePrefix key cb st)
     = Store.unsubscribePrefix key cb st
  /\ Store.unsubscribeAll cb (Store.unsubscribeAll cb st) = Store.unsubscribeAll cb st
  /\ Store.unsubscribeReady cb (Store.unsubscribeReady cb st)
     = Store.unsubscribeReady cb st.
Proof.
  unfold Listener in *. split; [|split; [|split]].
  - unfold Store.unsubscribeKey.
    destruct (JsMap.get key (keyListeners st)) as [s|] eqn:Hg; [|now rewrite Hg].
    destruct (JsSet.delete Nat.eqb cb s) as [|x t] eqn:Hd;
      cbn [keyListeners with_keyListeners].
    + now rewrite get_delete_eq.
    + rewrite get_set_eq. rewrite <- Hd, JsSet_delete_idem, Hd.
      now rewrite JsMap_set_set.
  - unfold Store.unsubscribePrefix.
    destruct (JsMap.get key (prefixListeners st)) as [s|] eqn:Hg; [|now rewrite Hg].
    destruct (JsSet.delete Nat.eqb cb s) as [|x t] eqn:Hd;
      cbn [prefixListeners with_prefixListeners].
    + now rewrite get_delete_eq.
    + rewrite get_set_eq. rewrite <- Hd, JsSet_delete_idem, Hd.
      now rewrite JsMap_set_set.
  - unfold Store.unsubscribeAll. cbn [allListeners with_allListeners].
    now rewrite JsSet_delete_idem.
  - unfold Store.unsubscribeReady. cbn [readyListeners with_readyListeners].
    now rewrite JsSet_delete_idem.
Qed.

(** ** The listener registries along a history *)

Lemma driverStage_listenersPart (b1 b2 : bool) ks p st :
  listenersPart (if b1 then driverCall (DriverClearPrefix p) st
                 else if b2 then driverCall (DriverRemoveMany ks) st
                      else Store.driverRemoveEach ks st) = listenersPart st.
Proof.
  destruct b1; [reflexivity|]. destruct b2; [reflexivity|].
  apply driverRemoveEach_frame.
Qed.

Lemma invalidatePrefixCache_listenersPart p st :
  listenersPart (invalidatePrefixCache p st) = listenersPart st.
Proof.
  unfold invalidatePrefixCache.
  now destruct (JsMap.get p (prefixKeysCache st)).
Qed.

Lemma clear_listenersPart now prefix st :
  listenersPart (Store.clear now prefix st) = listenersPart st.
Proof.
  unfold Store.clear, Store.keys.
  pose proof (getCachedKeys_frame now (if truthy prefix then prefix else None) st)
    as (_ & L & _).
  destruct (if truthy prefix then prefix else None) as [p|];
    destruct (getCachedKeys now _ st) as [ks st1]; cbn [fst snd] in *; cbv zeta;
    match goal with |- listenersPart (Store.queueEmitKeys ks ?s) = _ =>
      destruct (queueEmitKeys_frame ks s) as (_ & Q & _); rewrite Q; clear Q end.
  - match goal with |- listenersPart (fold_left _ ks ?s) = _ =>
      destruct (invalidateForKeys_frame ks s) as (_ & F & _) end.
    rewrite F, invalidatePrefixCache_listenersPart.
    change (listenersPart (invalidateAllKeysCache ?s)) with (listenersPart s).
    rewrite (driverStage_listenersPart _ _ ks p). exact L.
  - unfold Store.invalidateEveryPrefixCache.
    change (listenersPart (with_prefixKeysCache ?x (invalidateAllKeysCache ?s)))
      with (listenersPart s).
    change (listenersPart (with_mirror ?x ?s)) with (listenersPart s).
    rewrite (driverStage_listenersPart false _ ks ""). exact L.
Qed.

Lemma touch_listenersPart now key ttl st :
  listenersPart (Store.touch now key ttl st) = listenersPart st.
Proof.
  unfold Store.touch. pose proof (getEntry_frame now key st) as (_ & L & _).
  destruct (getEntry now key st) as [[e|] st1]; cbn [snd] in L; [|exact L].
  destruct (setInternal_frame key
              (Some {| value := value e; createdAt := now;
                       ttlMs := match ttl with None => ttlMs e | Some t => Some t end |})
              st1) as (S & _).
  now rewrite S.
Qed.

Lemma getOrSetAsync_listenersPart now key f beh opts st :
  listenersPart (snd (getOrSetAsync now key f beh opts st)) = listenersPart st.
Proof.
  unfold getOrSetAsync.
  assert (H : listenersPart (snd (if force opts then (VUndefined, st)
                                  else Store.get now key st)) = listenersPart st).
  { destruct (force opts); [reflexivity|]. apply get_frame. }
  destruct (if force opts then (VUndefined, st) else Store.get now key st)
    as [cached st1]. cbn [snd] in H.
  destruct (negb (force opts) && negb (isUndefined cached)); [exact H|].
  destruct (JsMap.get key (inFlight st1)); [exact H|].
  destruct beh; cbn; exact H.
Qed.

Lemma fetchSettles_listenersPart now p outcome st :
  listenersPart (fetchSettles now p outcome st) = listenersPart st.
Proof.
  unfold fetchSettles.
  destruct (findTask p (awaiting st)) as [t|]; [|reflexivity].
  destruct outcome as [v|err]; [|reflexivity].
  cbv zeta. unfold Store.set.
  match goal with |- context [setInternal ?k ?e ?s] =>
    destruct (setInternal_frame k e s) as (S & _);
    change (listenersPart (setInternal k e s) = listenersPart st)
  end.
  rewrite S. reflexivity.
Qed.

Lemma hydrationSettles_listenersPart now outcome st :
  listenersPart (hydrationSettles now outcome st) = listenersPart st.
Proof.
  unfold hydrationSettles. destruct (negb (hydrating st)); [reflexivity|].
  cbv zeta.
  assert (Hq : forall s, listenersPart (queueEmitReady s) = listenersPart s).
  { intros s. unfold queueEmitReady. destruct (0 <? batchDepth s)%nat; reflexivity. }
  assert (Hs : forall x s, listenersPart (settleReady x s) = listenersPart s).
  { intros x s. unfold settleReady. destruct (readyP s); reflexivity. }
  destruct outcome as [err|rows]; [rewrite Hq, Hs; reflexivity|].
  pose proof (installRows_frame now rows [] (enterBatch (with_hydrating false st)))
    as (_ & L & _).
  destruct (installRows now rows [] (enterBatch (with_hydrating false st)))
    as [toDelete st1]. cbn [snd] in L.
  destruct (batchFinally_frame st1) as (_ & _ & _ & L2 & _).
  rewrite Hq, Hs.
  match goal with |- listenersPart (with_ready true (Store.invalidateEveryPrefixCache
                                      (invalidateAllKeysCache ?s))) = _ =>
    change (listenersPart s = listenersPart st) end.
  assert (L3 : listenersPart (batchFinally st1) = listenersPart st)
    by (rewrite L2; exact L).
  destruct (cleanupExpiredOnHydrate (batchFinally st1)
            && negb (Nat.eqb (length toDelete) 0)); [|exact L3].
  destruct (removeMany (driver (batchFinally st1))); [exact L3|].
  destruct (driverRemoveEach_frame toDelete (batchFinally st1)) as (_ & G & _).
  now rewrite G.
Qed.

Lemma tidy_of_listenersPart st st' :
  listenersPart st' = listenersPart st -> RegistriesTidy st -> RegistriesTidy st'.
Proof.
  unfold listenersPart, RegistriesTidy. intros E. injection E as -> -> _ _. auto.
Qed.

Lemma NoEmptySet_set k (s : list Listener) m :
  s <> [] -> NoEmptySet m -> NoEmptySet (JsMap.set k s m).
Proof.
  intros Hs Hm k'. destruct (String.eqb k k') eqn:E.
  - apply String.eqb_eq in E. subst k'. rewrite get_set_eq. congruence.
  - apply String.eqb_neq in E. rewrite get_set_ne by exact E. apply Hm.
Qed.

Lemma NoEmptySet_delete k m : NoEmptySet m -> NoEmptySet (JsMap.delete k m).
Proof.
  intros Hm k'. destruct (String.eqb k k') eqn:E.
  - apply String.eqb_eq in E. subst k'. rewrite get_delete_eq. discriminate.
  - apply String.eqb_neq in E. rewrite get_delete_ne by exact E. apply Hm.
Qed.

Lemma NoEmptySet_subscribe k (cb : Listener) m :
  NoEmptySet m ->
  NoEmptySet (JsMap.set k (JsSet.add Nat.eqb cb (Store.listenersOf k m)) m).
Proof.
  apply NoEmptySet_set. intros E.
  pose proof (JsSet_add_In cb (Store.listenersOf k m)) as H.
  unfold Listener in *. rewrite E in H. destruct H.
Qed.

Lemma NoEmptySet_unsubscribe k (cb : Listener) m :
  NoEmptySet m ->
  NoEmptySet match JsMap.get k m with
             | None => m
             | Some s => match JsSet.delete Nat.eqb cb s with
                         | [] => JsMap.delete k m
                         | x :: t => JsMap.set k (x :: t) m
                         end
             end.
Proof.
  intros Hm. destruct (JsMap.get k m) as [s|]; [|exact Hm].
  destruct (JsSet.delete Nat.eqb cb s) as [|x t].
  - now apply NoEmptySet_delete.
  - apply NoEmptySet_set; [discriminate | exact Hm].
Qed.

Lemma exec_tidy now c st :
  RegistriesTidy st -> RegistriesTidy (snd (exec now c st)).
Proof.
  intros H.
  destruct c as [key|key|key v ttl|key|prefix|prefix|key ttl|key|
                 |key cb|key cb|p cb|p cb|cb|cb|cb|cb]; cbn [exec].
  - pose proof (get_frame now key st) as (_ & L & _).
    destruct (Store.get now key st). eapply tidy_of_listenersPart; eauto.
  - pose proof (has_frame now key st) as (_ & L & _).
    destruct (Store.has now key st). eapply tidy_of_listenersPart; eauto.
  - eapply tidy_of_listenersPart; [apply setInternal_frame | exact H].
  - eapply tidy_of_listenersPart; [apply setInternal_frame | exact H].
  - pose proof (getCachedKeys_frame now prefix st) as (_ & L & _).
    unfold Store.keys. destruct (getCachedKeys now prefix st).
    eapply tidy_of_listenersPart; eauto.
  - eapply tidy_of_listenersPart; [apply clear_listenersPart | exact H].
  - eapply tidy_of_listenersPart; [apply touch_listenersPart | exact H].
  - cbn [snd]. eapply tidy_of_listenersPart; [apply queueEmitKey_frame | exact H].
  - exact H.
  - destruct H as [Hk Hp]. split; [|exact Hp].
    cbn [snd Store.subscribeKey keyListeners with_keyListeners].
    now apply NoEmptySet_subscribe.
  - destruct H as [Hk Hp]. cbn [snd]. unfold Store.unsubscribeKey.
    pose proof (NoEmptySet_unsubscribe key cb (keyListeners st) Hk) as Hu.
    destruct (JsMap.get key (keyListeners st)) as [s|]; [|now split].
    destruct (JsSet.delete Nat.eqb cb s); split; assumption.
  - destruct H as [Hk Hp]. split; [exact Hk|].
    cbn [snd Store.subscribePrefix prefixListeners with_prefixListeners].
    now apply NoEmptySet_subscribe.
  - destruct H as [Hk Hp]. cbn [snd]. unfold Store.unsubscribePrefix.
    pose proof (NoEmptySet_unsubscribe p cb (prefixListeners st) Hp) as Hu.
    destruct (JsMap.get p (prefixListeners st)) as [s|]; [|now split].
    destruct (JsSet.delete Nat.eqb cb s); split; assumption.
  - exact H.
  - exact H.
  - exact H.
  - exact H.
Qed.

Lemma run_tidy (p : Prog) : forall st,
  RegistriesTidy st -> RegistriesTidy (fst (run p st)).
Proof.
  induction p as [| | now c k IH | fn IHfn onR IHr onT IHt]; intros st H;
    cbn [run]; try exact H.
  - pose proof (exec_tidy now c st H) as He.
    destruct (exec now c st) as [r st']. now apply IH.
  - pose proof (IHfn (enterBatch st) H) as Hfn.
    destruct (run fn (enterBatch st)) as [st1 c]. cbn [fst] in Hfn.
    assert (Hb : RegistriesTidy (batchFinally st1)).
    { eapply tidy_of_listenersPart; [apply batchFinally_frame | exact Hfn]. }
    destruct c; [now apply IHr | now apply IHt].
Qed.

Lemma steps_tidy opts h : RegistriesTidy (steps h (createCache opts)).
Proof.
  assert (H0 : RegistriesTidy (createCache opts)).
  { unfold createCache, RegistriesTidy, NoEmptySet.
    destruct (negb (orTrue (opt_hydrate opts))); cbn; split; discriminate. }
  generalize dependent (createCache opts). unfold steps.
  induction h as [|a h IH]; intros st H; cbn [fold_left]; [exact H|].
  apply IH.
  destruct a as [p|now key f beh o|now p outcome|now outcome]; cbn [step].
  - now apply run_tidy.
  - eapply tidy_of_listenersPart; [apply getOrSetAsync_listenersPart | exact H].
  - eapply tidy_of_listenersPart; [apply fetchSettles_listenersPart | exact H].
  - eapply tidy_of_listenersPart; [apply hydrationSettles_listenersPart | exact H].
Qed.

(** X8: In every state a history reaches, subscribing a listener that was not
    registered for the key and then calling the unsubscribe function gives
    back the state: the listener set of the key is what it was, and a set
    that becomes empty leaves the registry, which never holds an empty set.
    The same holds of prefix subscriptions. *)
Theorem unsubscribe_undoes_subscribe
    (opts : CreateCacheOptions) (h : list Action) (key : CacheKey) (cb : Listener) :
  let st := steps h (createCache opts) in
  RegistriesTidy st
  /\ (~ In cb (Store.listenersOf key (keyListeners st)) ->
      Store.unsubscribeKey key cb (Store.subscribeKey key cb st) = st)
  /\ (~ In cb (Store.listenersOf key (prefixListeners st)) ->
      Store.unsubscribePrefix key cb (Store.subscribePrefix key cb st) = st).
Proof.
  intros st. pose proof (steps_tidy opts h) as [Hk Hp]. fold st in Hk, Hp.
  split; [now split|]. split.
  - intros H1.
    pose proof (registry_unsubscribe_undoes key cb (keyListeners st) H1 (Hk key))
      as Hu.
    unfold Store.listenersOf, Listener in *. cbv zeta in Hu.
    unfold Store.unsubscribeKey, Store.subscribeKey.
    cbn [keyListeners with_keyListeners].
    unfold Store.listenersOf, Listener in *.
    rewrite get_set_eq in Hu. rewrite !get_set_eq. revert Hu.
    match goal with
    | |- context [JsSet.delete ?e ?c ?s] => destruct (JsSet.delete e c s)
    end; intros Hu; destruct st;
      unfold with_keyListeners; cbn in *; f_equal; exact Hu.
  - intros H3.
    pose proof (registry_unsubscribe_undoes key cb (prefixListeners st) H3 (Hp key))
      as Hu.
    unfold Store.listenersOf, Listener in *. cbv zeta in Hu.
    unfold Store.unsubscribePrefix, Store.subscribePrefix.
    cbn [prefixListeners with_prefixListeners].
    unfold Store.listenersOf, Listener in *.
    rewrite get_set_eq in Hu. rewrite !get_set_eq. revert Hu.
    match goal with
    | |- context [JsSet.delete ?e ?c ?s] => destruct (JsSet.delete e c s)
    end; intros Hu; destruct st;
      unfold with_prefixListeners; cbn in *; f_equal; exact Hu.
Qed.

Lemma unsubscribe_undoes_subscribe_witness :
  let opts := {| opt_driver := Build_CacheDriver false false false;
                 opt_hydrate := Some false;
                 opt_cleanupExpiredOnHydrate := None |} in
  let h := [ASync (PCall 0 (CSubscribeKey "a" 1%nat)
                    (fun _ => PCall 1 (CSubscribePrefix "a" 2%nat) (fun _ => PRet)))] in
  let st := steps h (createCache opts) in
  Store.unsubscribeKey "a" 2%nat (Store.subscribeKey "a" 2%nat st) = st
  /\ Store.unsubscribeKey "b" 2%nat (Store.subscribeKey "b" 2%nat st) = st.
Proof.
  intros opts h st.
  destruct (unsubscribe_undoes_subscribe opts h "a" 2%nat) as (_ & Ha & _).
  destruct (unsubscribe_undoes_subscribe opts h "b" 2%nat) as (_ & Hb & _).
  split.
  - apply Ha. cbn. intros [H|[]]. discriminate.
  - apply Hb. cbn. intros [].
Defined.

(** ** Who is notified of a write *)

Lemma setInternal_trace k e st :
  batchDepth st = 0%nat ->
  trace (setInternal k e st) = trace st ++ Notify k :: listenerCalls k st.
Proof.
  intros Hd. unfold setInternal.
  destruct e as [e|]; [destruct (nonPositiveTtl e)|];
    cbv zeta; unfold queueEmitKey; st_cbn; rewrite Hd; reflexivity.
Qed.

Lemma In_listenerCalls key st cb arg :
  In (Call cb arg) (listenerCalls key st) <->
  (arg = None /\ In cb (Store.listenersOf key (keyListeners st)))
  \/ (arg = Some key
      /\ ((exists p s, In (p, s) (prefixListeners st)
                       /\ startsWith key p = true /\ In cb s)
          \/ In cb (allListeners st))).
Proof.
  unfold listenerCalls, Store.listenersOf. rewrite !in_app_iff, in_concat.
  rewrite !in_map_iff. split.
  - intros [(x & E & Hx) | [(l & Hl & Hin) | (x & E & Hx)]].
    + injection E as -> <-. left. auto.
    + apply in_map_iff in Hl as ([p s] & <- & Hps). cbn [fst snd] in Hin.
      destruct (startsWith key p) eqn:Hsw; [|destruct Hin].
      apply in_map_iff in Hin as (x & E & Hx). injection E as -> <-.
      right. split; [reflexivity|]. left. exists p, s. auto.
    + injection E as -> <-. right. auto.
  - intros [[-> H] | [-> [(p & s & Hps & Hsw & Hin) | H]]].
    + left. exists cb. auto.
    + right. left.
      exists (List.map (fun cb => Call cb (Some key)) s). split.
      * apply in_map_iff. exists (p, s). cbn [fst snd]. rewrite Hsw. auto.
      * apply in_map_iff. exists cb. auto.
    + right. right. exists cb. auto.
Qed.

(** X9: Outside a batch, [set] and [remove] of [key] call, before they return,
    exactly these listeners: with no argument the listeners subscribed to
    [key]; with [key] as argument the listeners of every subscribed prefix
    that [key] starts with and the global listeners.  Nobody else is called,
    and [emitNow] runs once, for [key]. *)
Theorem write_calls_exactly_the_subscribers
    (now : Z) (key : CacheKey) (v : JsValue) (ttl : option Z) (st : State)
    (cb : Listener) (arg : option CacheKey) :
  batchDepth st = 0%nat ->
  let called st' := In (Call cb arg) (deliveredSince st st') in
  let subscribed :=
    (arg = None /\ In cb (Store.listenersOf key (keyListeners st)))
    \/ (arg = Some key
        /\ ((exists p s, In (p, s) (prefixListeners st)
                         /\ startsWith key p = true /\ In cb s)
            \/ In cb (allListeners st))) in
  (called (Store.set now key v ttl st) <-> subscribed)
  /\ (called (Store.remove key st) <-> subscribed)
  /\ notifiedKeys (deliveredSince st (Store.set now key v ttl st)) = [key]
  /\ notifiedKeys (deliveredSince st (Store.remove key st)) = [key].
Proof.
  intros Hd called subscribed. subst called subscribed.
  unfold Store.set, Store.remove.
  rewrite !(deliveredSince_app st _ _ (setInternal_trace key _ st Hd)).
  change (Notify key :: listenerCalls key st)
    with ([Notify key] ++ listenerCalls key st).
  rewrite notifiedKeys_app, notifiedKeys_listenerCalls.
  rewrite in_app_iff, In_listenerCalls.
  repeat split; try reflexivity; auto.
  all: intros [[H|[]] | H]; [discriminate | exact H].
Qed.

Lemma write_calls_exactly_the_subscribers_witness :
  let st := Store.subscribeKey "a" 7%nat
              (emptyState (Build_CacheDriver false false false) true) in
  In (Call 7%nat None) (deliveredSince st (Store.set 0 "a" (VNum 1) None st)).
Proof.
  intros st.
  apply (write_calls_exactly_the_subscribers 0 "a" (VNum 1) None st 7%nat None);
    [reflexivity|].
  left. split; [reflexivity|]. cbn. auto.
Defined.

(** X10: A listener subscribed to [key] is called by the next [set] of [key]
    outside a batch; a [set] of another key does not call it for [key];
    once its unsubscribe function has run, a [set] of [key] calls it no
    more, whatever was registered before. *)
Theorem subscribeKey_then_unsubscribe
    (now : Z) (key : CacheKey) (v : JsValue) (ttl : option Z) (cb : Listener)
    (st : State) :
  batchDepth st = 0%nat ->
  let st1 := Store.subscribeKey key cb st in
  let st2 := Store.unsubscribeKey key cb st1 in
  In (Call cb None) (deliveredSince st1 (Store.set now key v ttl st1))
  /\ ~ In (Call cb None) (deliveredSince st2 (Store.set now key v ttl st2))
  /\ (forall k', k' <> key ->
        ~ In cb (Store.listenersOf k' (keyListeners st)) ->
        ~ In (Call cb None) (deliveredSince st1 (Store.set now k' v ttl st1))).
Proof.
  intros Hd st1 st2.
  assert (Hd1 : batchDepth st1 = 0%nat) by exact Hd.
  assert (Hd2 : batchDepth st2 = 0%nat).
  { subst st2. unfold Store.unsubscribeKey.
    destruct (JsMap.get key (keyListeners st1)); [|exact Hd].
    destruct (JsSet.delete Nat.eqb cb l); exact Hd. }
  assert (Hcalled : forall k s, batchDepth s = 0%nat ->
            In (Call cb None) (deliveredSince s (Store.set now k v ttl s))
            <-> In cb (Store.listenersOf k (keyListeners s))).
  { intros k s Hs. unfold Store.set.
    rewrite (deliveredSince_app s _ _ (setInternal_trace k _ s Hs)).
    cbn [In]. rewrite In_listenerCalls. split.
    - intros [H | [[_ H] | [H _]]]; [discriminate | exact H | discriminate].
    - intros H. right. left. auto. }
  rewrite !Hcalled by assumption. split; [|split].
  - subst st1. unfold Store.subscribeKey, Store.listenersOf at 1.
    cbn [keyListeners with_keyListeners]. rewrite get_set_eq.
    apply JsSet_add_In.
  - subst st2. unfold Store.unsubscribeKey.
    assert (Hg : JsMap.get key (keyListeners st1)
                 = Some (JsSet.add Nat.eqb cb
                           (Store.listenersOf key (keyListeners st)))).
    { subst st1. unfold Store.subscribeKey.
      cbn [keyListeners with_keyListeners]. apply get_set_eq. }
    rewrite Hg.
    destruct (JsSet.delete Nat.eqb cb
                (JsSet.add Nat.eqb cb (Store.listenersOf key (keyListeners st))))
      as [|x t] eqn:Hdel; unfold Store.listenersOf at 1;
      cbn [keyListeners with_keyListeners].
    + rewrite get_delete_eq. intros [].
    + rewrite get_set_eq, <- Hdel. apply JsSet_delete_notin.
  - intros k' Hne Hnot. rewrite Hcalled by exact Hd1.
    subst st1. unfold Store.subscribeKey.
    unfold Store.listenersOf at 1. cbn [keyListeners with_keyListeners].
    rewrite get_set_ne by congruence. exact Hnot.
Qed.

Lemma subscribeKey_then_unsubscribe_witness :
  let st := emptyState (Build_CacheDriver false false false) true in
  let st1 := Store.subscribeKey "a" 7%nat st in
  In (Call 7%nat None) (deliveredSince st1 (Store.set 0 "a" (VNum 1) None st1)).
Proof.
  intros st st1.
  apply (subscribeKey_then_unsubscribe 0 "a" (VNum 1) None 7%nat st).
  reflexivity.
Defined.

(** ** [clear] *)

Lemma deleteAll_filter {V : Type} ks : forall (m : list (string * V)),
  JsMap.deleteAll ks m
  = List.filter (fun kv => negb (existsb (String.eqb (fst kv)) ks)) m.
Proof.
  unfold JsMap.deleteAll.
  induction ks as [|k ks IH]; intros m; cbn [fold_left existsb].
  - symmetry. now apply filter_all.
  - rewrite IH. unfold JsMap.delete. rewrite filter_filter.
    apply List.filter_ext. intros kv. now rewrite negb_orb.
Qed.

Lemma get_filter_key {V : Type} (f : string -> bool) k (m : list (string * V)) :
  JsMap.get k (List.filter (fun kv => f (fst kv)) m)
  = if f k then JsMap.get k m else None.
Proof.
  induction m as [|[k' v] r IH]; cbn [List.filter JsMap.get fst].
  - now destruct (f k).
  - destruct (String.eqb k' k) eqn:E.
    + apply String.eqb_eq in E. subst k'. revert IH.
      destruct (f k) eqn:F; intros IH; cbn [JsMap.get].
      * now rewrite String.eqb_refl.
      * exact IH.
    + destruct (f k') eqn:F'; cbn [JsMap.get]; [rewrite E|]; exact IH.
Qed.

Lemma liveKeys_inScope now prefix (m : list (CacheKey * CacheEntry)) k :
  In k (liveKeys now prefix m) -> inScope prefix k = true.
Proof.
  unfold liveKeys. intros H. apply in_map_iff in H as (kv & <- & H).
  apply List.filter_In in H as [_ H]. now apply andb_prop in H as [H _].
Qed.

(** Deleting the live keys of a scope from the mirror that the listing left
    empties the scope. *)
Lemma deleteAll_live now prefix (m : list (CacheKey * CacheEntry)) :
  JsMap.deleteAll (liveKeys now prefix m) (afterExpiry now prefix m)
  = List.filter (fun kv => negb (inScope prefix (fst kv))) m.
Proof.
  rewrite deleteAll_filter. unfold afterExpiry. rewrite filter_filter.
  apply List.filter_ext_in. intros kv Hin. unfold expired.
  destruct (inScope prefix (fst kv)) eqn:Hs; cbn [andb negb].
  - destruct (Ttl.isAlive now (Some (snd kv))) eqn:Ha; cbn [andb negb];
      [|reflexivity].
    assert (H : existsb (String.eqb (fst kv)) (liveKeys now prefix m) = true).
    { apply existsb_exists. exists (fst kv). split; [|apply String.eqb_refl].
      unfold liveKeys. apply in_map. apply List.filter_In. split; [exact Hin|].
      now rewrite Hs, Ha. }
    now rewrite H.
  - destruct (existsb (String.eqb (fst kv)) (liveKeys now prefix m)) eqn:H;
      [|reflexivity].
    apply existsb_exists in H as (k & Hk & E). apply String.eqb_eq in E. subst k.
    apply liveKeys_inScope in Hk. congruence.
Qed.

Lemma inScope_falsy prefix k :
  truthy prefix = false -> inScope prefix k = true.
Proof.
  destruct prefix as [p|]; [|reflexivity]. cbn.
  destruct (String.eqb p ""); [reflexivity | discriminate].
Qed.

Lemma clear_mirror now prefix st :
  KeyListsConsistent st ->
  mirror (Store.clear now prefix st)
  = List.filter (fun kv => negb (inScope prefix (fst kv))) (mirror st).
Proof.
  intros Hc. unfold Store.clear, Store.keys.
  destruct (truthy prefix) eqn:Ht.
  - destruct prefix as [p|]; [|discriminate].
    destruct (getCachedKeys_spec now (Some p) st Hc) as (H1 & H2 & _).
    destruct (getCachedKeys now (Some p) st) as [ks st1]. cbn [fst snd] in H1, H2.
    cbv zeta.
    match goal with |- context [Store.queueEmitKeys ks ?s] =>
      destruct (queueEmitKeys_frame ks s) as (Q & _) end.
    apply (f_equal (fun d => fst (fst (fst d)))) in Q.
    unfold dataPart in Q. cbn [fst] in Q. rewrite Q.
    match goal with |- context [fold_left _ ks ?s] =>
      destruct (invalidateForKeys_frame ks s) as (_ & _ & _ & _ & F & _) end.
    rewrite F.
    match goal with |- context [invalidatePrefixCache p ?s] =>
      destruct (invalidatePrefixCache_data p s) as (I & _) end.
    rewrite I. st_cbn.
    destruct (driverStage_data (clearPrefix (driver st1)) (removeMany (driver st1))
                ks p (with_mirror (JsMap.deleteAll ks (mirror st1)) st1)) as (D & _).
    cbv zeta in D. rewrite D. st_cbn. rewrite H1, H2. apply deleteAll_live.
  - destruct (getCachedKeys_spec now None st Hc) as (H1 & H2 & _).
    destruct (getCachedKeys now None st) as [ks st1]. cbn [fst snd] in H1, H2.
    cbv zeta.
    match goal with |- context [Store.queueEmitKeys ks ?s] =>
      destruct (queueEmitKeys_frame ks s) as (Q & _) end.
    apply (f_equal (fun d => fst (fst (fst d)))) in Q.
    unfold dataPart in Q. cbn [fst] in Q. rewrite Q.
    unfold Store.invalidateEveryPrefixCache. st_cbn.
    destruct (driverStage_data false (removeMany (driver st1)) ks "" st1) as (D & _).
    cbv zeta in D. rewrite D, H1, H2, deleteAll_live.
    apply List.filter_ext. intros kv.
    now rewrite (inScope_falsy prefix (fst kv) Ht).
Qed.

Lemma queueEmitKeys_emitAll ks : forall st,
  batchDepth st = 0%nat -> Store.queueEmitKeys ks st = emitAll ks st.
Proof.
  unfold Store.queueEmitKeys, emitAll.
  induction ks as [|k ks IH]; intros st Hd; cbn [fold_left]; [reflexivity|].
  unfold queueEmitKey at 2. rewrite Hd. cbn [Nat.ltb Nat.leb].
  apply IH. exact Hd.
Qed.

Lemma clear_notifPart_before now prefix st :
  exists s, Store.clear now prefix st
            = Store.queueEmitKeys
                (fst (Store.keys now (if truthy prefix then prefix else None) st)) s
            /\ notifPart s = notifPart st.
Proof.
  unfold Store.clear, Store.keys.
  pose proof (getCachedKeys_frame now (if truthy prefix then prefix else None) st)
    as (N & _).
  destruct (if truthy prefix then prefix else None) as [p|];
    destruct (getCachedKeys now _ st) as [ks st1]; cbn [fst snd] in *; cbv zeta;
    eexists; (split; [reflexivity|]).
  - match goal with |- notifPart (fold_left _ ks ?s) = _ =>
      destruct (invalidateForKeys_frame ks s) as (F & _) end.
    rewrite F, invalidatePrefixCache_notifPart.
    change (notifPart (invalidateAllKeysCache ?s)) with (notifPart s).
    rewrite (driverStage_notifPart _ _ ks p). exact N.
  - unfold Store.invalidateEveryPrefixCache.
    change (notifPart (with_prefixKeysCache ?x (invalidateAllKeysCache ?s)))
      with (notifPart s).
    change (notifPart (with_mirror ?x ?s)) with (notifPart s).
    rewrite (driverStage_notifPart false _ ks ""). exact N.
Qed.

(** X11: In every state a history reaches, [clear(prefix)] empties the scope of
    [prefix] (every key for an absent or empty prefix): the entries of the
    scope, live or expired, leave the mirror and every other entry stays as
    it was.  Outside a batch the change is notified once per key that was
    live, in the mirror's order; the keys that had expired go silently. *)
Theorem clear_empties_the_scope
    (opts : CreateCacheOptions) (h : list Action) (now : Z)
    (prefix : option string) :
  let st := steps h (createCache opts) in
  let st' := Store.clear now prefix st in
  mirror st' = List.filter (fun kv => negb (inScope prefix (fst kv))) (mirror st)
  /\ (forall k now', inScope prefix k = true ->
        Store.has now' k st' = (false, st') /\ Store.get now' k st' = (VUndefined, st'))
  /\ (forall k, inScope prefix k = false ->
        JsMap.get k (mirror st') = JsMap.get k (mirror st))
  /\ notifiedKeys (deliveredSince st st') = liveKeys now prefix (mirror st).
Proof.
  intros st st'.
  pose proof (steps_klc h _ (createCache_klc opts)) as Hc. fold st in Hc.
  pose proof (steps_idle opts h) as (Hd & _ & _). cbv zeta in Hd. fold st in Hd.
  pose proof (clear_mirror now prefix st Hc) as Hm. fold st' in Hm.
  split; [exact Hm|]. split; [|split].
  - intros k now' Hs.
    assert (Hg : JsMap.get k (mirror st') = None).
    { rewrite Hm, (get_filter_key (fun k => negb (inScope prefix k))), Hs.
      reflexivity. }
    unfold Store.has, Store.get, getEntry. now rewrite Hg.
  - intros k Hs.
    rewrite Hm, (get_filter_key (fun k => negb (inScope prefix k))), Hs.
    reflexivity.
  - destruct (clear_notifPart_before now prefix st) as (s & E & N).
    fold st' in E. unfold notifPart in N. injection N as N1 _ _ N4.
    rewrite queueEmitKeys_emitAll in E by congruence.
    destruct (emitAll_trace
                (fst (Store.keys now (if truthy prefix then prefix else None) st)) s)
      as (evs & T1 & T2 & _).
    rewrite <- E, N4 in T1. rewrite (deliveredSince_app st st' evs T1), T2.
    unfold Store.keys.
    destruct (getCachedKeys_spec now (if truthy prefix then prefix else None) st Hc)
      as (H1 & _).
    rewrite H1. destruct (truthy prefix) eqn:Ht; [reflexivity|].
    unfold liveKeys. f_equal. apply List.filter_ext. intros kv.
    now rewrite (inScope_falsy prefix (fst kv) Ht).
Qed.

(** ** The driver follows the mirror *)

Lemma replay_app calls1 calls2 (m : list (CacheKey * CacheEntry)) :
  MemoryDriver.replay (calls1 ++ calls2) m
  = MemoryDriver.replay calls2 (MemoryDriver.replay calls1 m).
Proof. unfold MemoryDriver.replay. apply fold_left_app. Qed.

Lemma DriverFollows_refl st : DriverFollows st st.
Proof. exists []. split; [now rewrite app_nil_r | reflexivity]. Qed.

Lemma DriverFollows_trans st1 st2 st3 :
  DriverFollows st1 st2 -> DriverFollows st2 st3 -> DriverFollows st1 st3.
Proof.
  intros (c1 & D1 & M1) (c2 & D2 & M2). exists (c1 ++ c2). split.
  - now rewrite D2, D1, app_assoc.
  - now rewrite replay_app, M1.
Qed.

Lemma DriverFollows_same st st' :
  mirror st' = mirror st -> driverCalls st' = driverCalls st ->
  DriverFollows st st'.
Proof.
  intros Hm Hd. exists []. split; [now rewrite app_nil_r | now rewrite Hm].
Qed.

Lemma DriverFollows_of_dataPart st st' :
  dataPart st' = dataPart st -> DriverFollows st st'.
Proof.
  unfold dataPart. intros E. injection E as E1 _ _ E4.
  now apply DriverFollows_same.
Qed.

Lemma dropKey_follows k st : DriverFollows st (dropKey k st).
Proof.
  destruct (dropKey_data k st) as (Hm & Hd & _).
  exists [DriverRemove k]. split; [exact Hd | now rewrite Hm].
Qed.

Lemma setInternal_follows k e st : DriverFollows st (setInternal k e st).
Proof.
  destruct (setInternal_data k e st) as (Hm & Hd).
  eexists. split; [exact Hd|]. rewrite Hm.
  destruct e as [e|]; [destruct (nonPositiveTtl e)|]; reflexivity.
Qed.

Lemma getEntry_follows now key st :
  DriverFollows st (snd (getEntry now key st)).
Proof.
  pose proof (getEntry_cases now key st) as Hc.
  destruct (JsMap.get key (mirror st)) as [e|];
    [destruct (Ttl.isAlive now (Some e))|]; rewrite Hc; cbn [snd];
    try apply DriverFollows_refl.
  apply dropKey_follows.
Qed.

Lemma pruneLoop_follows now n : forall read write arr st,
  DriverFollows st (snd (pruneLoop now n read write arr st)).
Proof.
  induction n as [|n IH]; intros read write arr st; cbn [pruneLoop];
    [apply DriverFollows_refl|].
  destruct (arr !! read) as [k|]; [|apply DriverFollows_refl].
  destruct (JsMap.get k (mirror st)) as [e|].
  - destruct (Ttl.isAlive now (Some e)); [apply IH|].
    eapply DriverFollows_trans; [apply dropKey_follows | apply IH].
  - eapply DriverFollows_trans; [|apply IH].
    destruct (invalidateKeyCachesForMutation_frame k st) as (Hm & Hd & _).
    now apply DriverFollows_same.
Qed.

Lemma pruneListInPlace_follows now arr st :
  DriverFollows st (snd (pruneListInPlace now arr st)).
Proof.
  unfold pruneListInPlace.
  pose proof (pruneLoop_follows now (length arr) 0 0 arr st) as H.
  destruct (pruneLoop now (length arr) 0 0 arr st) as [[l w] st'].
  exact H.
Qed.

Lemma computeLoop_follows now prefix entries : forall out st,
  DriverFollows st (snd (computeLoop now prefix entries out st)).
Proof.
  induction entries as [|[k e] rest IH]; intros out st; cbn [computeLoop];
    [apply DriverFollows_refl|].
  destruct (negb (inScope prefix k)); [apply IH|].
  destruct (negb (Ttl.isAlive now (Some e))); [|apply IH].
  eapply DriverFollows_trans; [apply dropKey_follows | apply IH].
Qed.

Lemma getCachedKeys_follows now prefix st :
  DriverFollows st (snd (getCachedKeys now prefix st)).
Proof.
  assert (Hall : DriverFollows st (snd (getCachedAllKeys now st))).
  { unfold getCachedAllKeys, computeKeysForPrefix.
    destruct (negb (KeyListCache.valid (allKeysCache st))).
    - pose proof (computeLoop_follows now None (mirror st) [] st) as H.
      destruct (computeLoop now None (mirror st) [] st) as [ks st1].
      cbn [snd] in *. eapply DriverFollows_trans; [exact H|].
      now apply DriverFollows_same.
    - pose proof (pruneListInPlace_follows now
                    (KeyListCache.keys (allKeysCache st)) st) as H.
      destruct (pruneListInPlace now (KeyListCache.keys (allKeysCache st)) st)
        as [ks st1].
      cbn [snd] in *. eapply DriverFollows_trans; [exact H|].
      now apply DriverFollows_same. }
  unfold getCachedKeys. destruct prefix as [p|]; [|exact Hall].
  destruct (String.eqb p ""); [exact Hall|].
  unfold getCachedPrefixKeys. cbv zeta.
  set (st0 := match JsMap.get p (prefixKeysCache st) with
              | Some _ => st
              | None => with_prefixKeysCache
                          (JsMap.set p (KeyListCache.mk [] false)
                                     (prefixKeysCache st)) st
              end).
  assert (H0 : DriverFollows st st0).
  { subst st0. destruct (JsMap.get p (prefixKeysCache st));
      [apply DriverFollows_refl | now apply DriverFollows_same]. }
  clearbody st0.
  destruct (negb (KeyListCache.valid
                    match JsMap.get p (prefixKeysCache st0) with
                    | Some c => c
                    | None => KeyListCache.mk [] false
                    end)).
  - unfold computeKeysForPrefix.
    pose proof (computeLoop_follows now (Some p) (mirror st0) [] st0) as H.
    destruct (computeLoop now (Some p) (mirror st0) [] st0) as [ks st1].
    cbn [snd] in *. eapply DriverFollows_trans; [exact H0|].
    eapply DriverFollows_trans; [exact H|]. now apply DriverFollows_same.
  - match goal with |- context [pruneListInPlace now ?arr st0] =>
      pose proof (pruneListInPlace_follows now arr st0) as H;
      destruct (pruneListInPlace now arr st0) as [ks st1] end.
    cbn [snd] in *. eapply DriverFollows_trans; [exact H0|].
    eapply DriverFollows_trans; [exact H|]. now apply DriverFollows_same.
Qed.

Lemma clearPrefix_filter p : forall (m : list (CacheKey * CacheEntry)),
  MemoryDriver.clearPrefix p m
  = List.filter (fun kv => negb (startsWith (fst kv) p)) m.
Proof.
  intros m. unfold MemoryDriver.clearPrefix.
  assert (H : forall ks (acc : list (CacheKey * CacheEntry)),
            fold_left (fun acc k => if startsWith k p then JsMap.delete k acc else acc)
                      ks acc
            = List.filter (fun kv => negb (existsb (String.eqb (fst kv))
                                             (List.filter (fun k => startsWith k p) ks)))
                          acc).
  { induction ks as [|k ks IH]; intros acc; cbn [fold_left List.filter].
    - symmetry. now apply filter_all.
    - rewrite IH. destruct (startsWith k p); [|reflexivity].
      unfold JsMap.delete. rewrite filter_filter. cbn [existsb].
      apply List.filter_ext. intros kv. now rewrite negb_orb. }
  rewrite H. apply List.filter_ext_in. intros kv Hin. f_equal.
  destruct (startsWith (fst kv) p) eqn:Hs.
  - apply existsb_exists. exists (fst kv). split; [|apply String.eqb_refl].
    apply List.filter_In. split; [|exact Hs].
    unfold JsMap.keysOf. now apply in_map.
  - destruct (existsb _ _) eqn:E; [|reflexivity].
    apply existsb_exists in E as (k & Hk & Heq). apply String.eqb_eq in Heq.
    subst k. apply List.filter_In in Hk as [_ Hk]. congruence.
Qed.

Lemma replay_removes ks : forall (m : list (CacheKey * CacheEntry)),
  MemoryDriver.replay (List.map DriverRemove ks) m = JsMap.deleteAll ks m.
Proof.
  unfold MemoryDriver.replay, JsMap.deleteAll.
  induction ks as [|k ks IH]; intros m; cbn [List.map fold_left]; [reflexivity|].
  apply IH.
Qed.

Lemma driverRemoveEach_calls ks : forall st,
  driverCalls (Store.driverRemoveEach ks st)
  = driverCalls st ++ List.map DriverRemove ks.
Proof.
  unfold Store.driverRemoveEach.
  induction ks as [|k ks IH]; intros st; cbn [fold_left List.map].
  - now rewrite app_nil_r.
  - rewrite IH. cbn [driverCall driverCalls with_driverCalls].
    now rewrite <- app_assoc.
Qed.

(** The three ways [clear] tells the driver, each followed on a mirror
    that the listing has left without expired entries in the scope. *)
Lemma driverStage_follows now prefix (b1 b2 : bool) (m : list (CacheKey * CacheEntry)) st p :
  (b1 = true -> prefix = Some p /\ String.eqb p "" = false) ->
  let ks := liveKeys now prefix m in
  let st' := if b1 then driverCall (DriverClearPrefix p) st
             else if b2 then driverCall (DriverRemoveMany ks) st
                  else Store.driverRemoveEach ks st in
  exists calls, driverCalls st' = driverCalls st ++ calls
                /\ MemoryDriver.replay calls (afterExpiry now prefix m)
                   = JsMap.deleteAll ks (afterExpiry now prefix m).
Proof.
  intros Hb ks st'. subst st'. destruct b1; [|destruct b2].
  - exists [DriverClearPrefix p]. split; [reflexivity|].
    destruct (Hb eq_refl) as [-> Hp].
    cbn [MemoryDriver.replay fold_left MemoryDriver.receive].
    subst ks. rewrite clearPrefix_filter, deleteAll_live.
    unfold afterExpiry. rewrite filter_filter. apply List.filter_ext.
    intros kv. unfold expired. rewrite inScope_startsWith.
    destruct (startsWith (fst kv) p); cbn [andb negb]; [|reflexivity].
    now rewrite andb_false_r.
  - exists [DriverRemoveMany ks]. split; reflexivity.
  - exists (List.map DriverRemove ks). split.
    + apply driverRemoveEach_calls.
    + apply replay_removes.
Qed.

Lemma invalidateForKeys_driverCalls ks : forall st,
  driverCalls (fold_left (fun s k => invalidatePrefixCachesForKey k s) ks st)
  = driverCalls st.
Proof.
  induction ks as [|k ks IH]; intros st; cbn [fold_left]; [reflexivity|].
  now rewrite IH.
Qed.

Lemma invalidatePrefixCache_driverCalls p st :
  driverCalls (invalidatePrefixCache p st) = driverCalls st.
Proof.
  unfold invalidatePrefixCache.
  now destruct (JsMap.get p (prefixKeysCache st)).
Qed.

Lemma queueEmitKeys_driverCalls ks st :
  driverCalls (Store.queueEmitKeys ks st) = driverCalls st.
Proof.
  destruct (queueEmitKeys_frame ks st) as (Q & _).
  apply (f_equal snd) in Q. exact Q.
Qed.

Lemma clear_follows now prefix st :
  KeyListsConsistent st -> DriverFollows st (Store.clear now prefix st).
Proof.
  intros Hc. pose proof (clear_mirror now prefix st Hc) as Hm.
  remember (if truthy prefix then prefix else None) as q eqn:Eq.
  assert (Hq : List.filter (fun kv => negb (inScope prefix (fst kv))) (mirror st)
               = List.filter (fun kv => negb (inScope q (fst kv))) (mirror st)).
  { subst q. destruct (truthy prefix) eqn:Ht; [reflexivity|].
    apply List.filter_ext. intros kv.
    now rewrite (inScope_falsy prefix (fst kv) Ht). }
  rewrite Hq, <- (deleteAll_live now q) in Hm. revert Hm.
  unfold Store.clear, Store.keys. rewrite <- Eq.
  pose proof (getCachedKeys_follows now q st) as H0.
  destruct (getCachedKeys_spec now q st Hc) as (H1 & H2 & _).
  destruct q as [p|].
  - assert (Hp : String.eqb p "" = false).
    { destruct (truthy prefix) eqn:Ht; [|discriminate]. subst prefix.
      cbn in Ht. now destruct (String.eqb p ""). }
    destruct (getCachedKeys now (Some p) st) as [ks st1].
    cbn [fst snd] in H0, H1, H2. subst ks. cbv zeta. intros Hm.
    apply (DriverFollows_trans st st1); [exact H0|].
    destruct (driverStage_follows now (Some p) (clearPrefix (driver st1))
                (removeMany (driver st1)) (mirror st)
                (with_mirror (JsMap.deleteAll (liveKeys now (Some p) (mirror st))
                                              (mirror st1)) st1) p)
      as (calls & D & R); [auto|].
    exists calls. split.
    + rewrite queueEmitKeys_driverCalls, invalidateForKeys_driverCalls,
        invalidatePrefixCache_driverCalls.
      exact D.
    + rewrite Hm, H2. exact R.
  - destruct (getCachedKeys now None st) as [ks st1].
    cbn [fst snd] in H0, H1, H2. subst ks. cbv zeta. intros Hm.
    apply (DriverFollows_trans st st1); [exact H0|].
    destruct (driverStage_follows now None false (removeMany (driver st1))
                (mirror st) st1 "")
      as (calls & D & R); [discriminate|].
    exists calls. split.
    + rewrite queueEmitKeys_driverCalls. exact D.
    + rewrite Hm, H2. exact R.
Qed.

Lemma touch_follows now key ttl st : DriverFollows st (Store.touch now key ttl st).
Proof.
  unfold Store.touch. pose proof (getEntry_follows now key st) as H.
  destruct (getEntry now key st) as [[e|] st1]; cbn [snd] in H; [|exact H].
  eapply DriverFollows_trans; [exact H | apply setInternal_follows].
Qed.

Lemma exec_follows now c st :
  KeyListsConsistent st -> DriverFollows st (snd (exec now c st)).
Proof.
  intros Hc.
  destruct c as [key|key|key v ttl|key|prefix|prefix|key ttl|key|
                 |key cb|key cb|p cb|p cb|cb|cb|cb|cb]; cbn [exec].
  - unfold Store.get. pose proof (getEntry_follows now key st) as H.
    now destruct (getEntry now key st).
  - unfold Store.has. pose proof (getEntry_follows now key st) as H.
    now destruct (getEntry now key st).
  - apply setInternal_follows.
  - apply setInternal_follows.
  - unfold Store.keys. pose proof (getCachedKeys_follows now prefix st) as H.
    now destruct (getCachedKeys now prefix st).
  - now apply clear_follows.
  - apply touch_follows.
  - cbn [snd]. apply DriverFollows_of_dataPart, queueEmitKey_frame.
  - apply DriverFollows_refl.
  - now apply DriverFollows_same.
  - cbn [snd]. unfold Store.unsubscribeKey.
    destruct (JsMap.get key (keyListeners st)); [|apply DriverFollows_refl].
    destruct (JsSet.delete Nat.eqb cb l); now apply DriverFollows_same.
  - now apply DriverFollows_same.
  - cbn [snd]. unfold Store.unsubscribePrefix.
    destruct (JsMap.get p (prefixListeners st)); [|apply DriverFollows_refl].
    destruct (JsSet.delete Nat.eqb cb l); now apply DriverFollows_same.
  - now apply DriverFollows_same.
  - now apply DriverFollows_same.
  - now apply DriverFollows_same.
  - now apply DriverFollows_same.
Qed.

Lemma run_follows (p : Prog) : forall st,
  KeyListsConsistent st -> DriverFollows st (fst (run p st)).
Proof.
  induction p as [| | now c k IH | fn IHfn onR IHr onT IHt]; intros st H;
    cbn [run]; try apply DriverFollows_refl.
  - pose proof (exec_klc now c st H) as Hk.
    pose proof (exec_follows now c st H) as He.
    destruct (exec now c st) as [r st']. cbn [snd] in Hk, He.
    eapply DriverFollows_trans; [exact He | now apply IH].
  - assert (He : KeyListsConsistent (enterBatch st)).
    { eapply klc_of_dataPart; [|exact H]. reflexivity. }
    pose proof (IHfn (enterBatch st) He) as Hfn.
    pose proof (run_klc fn (enterBatch st) He) as Hk.
    destruct (run fn (enterBatch st)) as [st1 c]. cbn [fst] in Hfn, Hk.
    assert (Hb : KeyListsConsistent (batchFinally st1)).
    { eapply klc_of_dataPart; [apply batchFinally_frame | exact Hk]. }
    assert (Hf : DriverFollows st (batchFinally st1)).
    { apply (DriverFollows_trans st (enterBatch st));
        [now apply DriverFollows_same|].
      apply (DriverFollows_trans _ st1); [exact Hfn|].
      apply DriverFollows_of_dataPart, batchFinally_frame. }
    destruct c; (eapply DriverFollows_trans; [exact Hf|]);
      [now apply IHr | now apply IHt].
Qed.

Lemma getOrSetAsync_follows now key f beh opts st :
  DriverFollows st (snd (getOrSetAsync now key f beh opts st)).
Proof.
  unfold getOrSetAsync.
  assert (H1 : DriverFollows st (snd (if force opts then (VUndefined, st)
                                      else Store.get now key st))).
  { destruct (force opts); [apply DriverFollows_refl|].
    unfold Store.get. pose proof (getEntry_follows now key st) as H.
    now destruct (getEntry now key st). }
  destruct (if force opts then (VUndefined, st) else Store.get now key st)
    as [cached st1]. cbn [snd] in H1.
  destruct (negb (force opts) && negb (isUndefined cached)); [exact H1|].
  destruct (JsMap.get key (inFlight st1)); [exact H1|].
  destruct beh; (eapply DriverFollows_trans; [exact H1|]);
    now apply DriverFollows_same.
Qed.

Lemma fetchSettles_follows now p outcome st :
  DriverFollows st (fetchSettles now p outcome st).
Proof.
  unfold fetchSettles.
  destruct (findTask p (awaiting st)) as [t|]; [|apply DriverFollows_refl].
  destruct outcome as [v|err]; [|now apply DriverFollows_same].
  cbv zeta. unfold Store.set.
  match goal with |- context [setInternal ?k ?e ?s] =>
    apply (DriverFollows_trans st s); [now apply DriverFollows_same|];
    apply (DriverFollows_trans s (setInternal k e s));
      [apply setInternal_follows | now apply DriverFollows_same]
  end.
Qed.

Lemma step_follows a st :
  KeyListsConsistent st -> hydrating st = false -> DriverFollows st (step a st).
Proof.
  intros Hc Hh.
  destruct a as [p|now key f beh opts|now p outcome|now outcome]; cbn [step].
  - now apply run_follows.
  - apply getOrSetAsync_follows.
  - apply fetchSettles_follows.
  - unfold hydrationSettles. rewrite Hh. apply DriverFollows_refl.
Qed.

Lemma steps_follows h : forall st,
  KeyListsConsistent st -> hydrating st = false -> DriverFollows st (steps h st).
Proof.
  unfold steps. induction h as [|a h IH]; intros st Hc Hh; cbn [fold_left];
    [apply DriverFollows_refl|].
  eapply DriverFollows_trans; [now apply step_follows|].
  apply IH; [now apply step_klc|].
  pose proof (step_readyPart a st Hh) as E. unfold readyPart in E.
  injection E as _ _ E _ _. congruence.
Qed.

(** X12: The write-through is exact.  In a cache made without hydration, over a
    driver that starts empty and treats the calls as the memory driver does,
    the driver's map is the mirror after every history, entry for entry and
    in the same order: with [set] and [remove], with the evictions of expired
    entries that reads and listings make, and with the three ways [clear]
    has of telling the driver ([clearPrefix], [removeMany] or one [remove]
    per key). *)
Theorem driver_holds_the_mirror (opts : CreateCacheOptions) (h : list Action) :
  opt_hydrate opts = Some false ->
  let st := steps h (createCache opts) in
  MemoryDriver.replay (driverCalls st) [] = mirror st.
Proof.
  intros Ho st.
  assert (H0 : hydrating (createCache opts) = false
               /\ mirror (createCache opts) = []
               /\ driverCalls (createCache opts) = []).
  { unfold createCache. rewrite Ho. cbn. auto. }
  destruct H0 as (Hh & Hm & Hd).
  destruct (steps_follows h (createCache opts) (createCache_klc opts) Hh)
    as (calls & D & R).
  fold st in D, R. rewrite D, Hd, Hm in *. exact R.
Qed.

Lemma driver_holds_the_mirror_witness :
  let opts := {| opt_driver := Build_CacheDriver true true true;
                 opt_hydrate := Some false;
                 opt_cleanupExpiredOnHydrate := None |} in
  let h := [ASync (PCall 0 (CSet "a:1" (VNum 1) (Some 10))
                    (fun _ => PCall 1 (CSet "b" (VNum 2) None)
                    (fun _ => PCall 20 (CGet "a:1")
                    (fun _ => PCall 21 (CClear (Some "b")) (fun _ => PRet)))))] in
  MemoryDriver.replay (driverCalls (steps h (createCache opts))) []
  = mirror (steps h (createCache opts)).
Proof.
  intros opts h. apply (driver_holds_the_mirror opts h). reflexivity.
Defined.

(** ** Hydration *)

Lemma installRows_spec now rows : forall toDelete st,
  fst (installRows now rows toDelete st)
  = toDelete ++ droppedKeys now (cleanupExpiredOnHydrate st) rows
  /\ mirror (snd (installRows now rows toDelete st))
     = setAll (keptRows now (cleanupExpiredOnHydrate st) rows) (mirror st)
  /\ driverCalls (snd (installRows now rows toDelete st)) = driverCalls st.
Proof.
  induction rows as [|[k [e|]] rest IH]; intros toDelete st;
    cbn [installRows keptRows droppedKeys flat_map fst snd].
  - rewrite app_nil_r. repeat split.
  - destruct (cleanupExpiredOnHydrate st && negb (Ttl.isAlive now (Some e))) eqn:E.
    + destruct (IH (toDelete ++ [k]) st) as (H1 & H2 & H3).
      rewrite H1, H2, H3, <- app_assoc. repeat split.
    + destruct (IH toDelete (with_mirror (JsMap.set k e (mirror st)) st))
        as (H1 & H2 & H3).
      rewrite H1, H2, H3. repeat split.
  - apply IH.
Qed.

Lemma batchFinally_empty st :
  batchDepth st = 1%nat -> pendingKeys st = [] -> pendingReadyEmit st = false ->
  batchFinally st = with_pendingKeys [] (with_batchDepth 0%nat st).
Proof.
  intros Hd Hk Hr. unfold batchFinally. cbv zeta.
  cbn [batchDepth with_batchDepth pendingKeys]. rewrite Hd, Hk.
  cbn [Nat.pred Nat.eqb emitAll fold_left pendingReadyEmit with_pendingKeys
       with_batchDepth].
  now rewrite Hr.
Qed.

(** What the hydration function does when the rows arrive and nothing is
    pending. *)
Lemma hydrationSettles_rows now rows st :
  hydrating st = true -> batchDepth st = 0%nat ->
  pendingKeys st = [] -> pendingReadyEmit st = false ->
  let st' := hydrationSettles now (Rows rows) st in
  let dropped := droppedKeys now (cleanupExpiredOnHydrate st) rows in
  mirror st' = setAll (keptRows now (cleanupExpiredOnHydrate st) rows) (mirror st)
  /\ driverCalls st'
     = driverCalls st
       ++ (if cleanupExpiredOnHydrate st && negb (Nat.eqb (length dropped) 0)
           then if removeMany (driver st) then [DriverRemoveMany dropped]
                else List.map DriverRemove dropped
           else [])
  /\ trace st'
     = trace st ++ NotifyReady
                   :: List.map (fun cb => Call cb None) (readyListeners st).
Proof.
  intros Hh Hd Hk Hr st' dropped. subst st' dropped.
  unfold hydrationSettles. rewrite Hh. cbn [negb]. cbv zeta.
  destruct (installRows_spec now rows [] (enterBatch (with_hydrating false st)))
    as (S1 & S2 & S3).
  destruct (installRows_frame now rows [] (enterBatch (with_hydrating false st)))
    as (F1 & F2 & _ & F4).
  destruct (installRows now rows [] (enterBatch (with_hydrating false st)))
    as [toDelete st1].
  cbn [fst snd] in S1, S2, S3, F1, F2, F4. cbn [app] in S1.
  unfold notifPart in F1. injection F1 as N1 N2 N3 N4.
  unfold listenersPart in F2. injection F2 as _ _ _ L4.
  unfold readyPart in F4. injection F4 as _ R2 _ R4 R5.
  st_cbn in S1. st_cbn in S2. st_cbn in S3. st_cbn in N1. st_cbn in N2.
  st_cbn in N3. st_cbn in N4. st_cbn in L4. st_cbn in R2. st_cbn in R4.
  st_cbn in R5.
  cbn [enterBatch batchDepth with_batchDepth with_hydrating] in N1.
  rewrite Hd in N1. rewrite Hk in N2. rewrite Hr in N3.
  rewrite (batchFinally_empty st1 N1 N2 N3).
  st_cbn. rewrite R5, R4. subst toDelete.
  set (dropped := droppedKeys now (cleanupExpiredOnHydrate st) rows).
  set (s2 := with_pendingKeys [] (with_batchDepth 0%nat st1)).
  assert (Hstage : forall s3,
    s3 = (if cleanupExpiredOnHydrate st && negb (Nat.eqb (length dropped) 0)
          then if removeMany (driver st)
               then driverCall (DriverRemoveMany dropped) s2
               else Store.driverRemoveEach dropped s2
          else s2) ->
    mirror s3 = mirror st1 /\ trace s3 = trace st1
    /\ readyListeners s3 = readyListeners st1 /\ batchDepth s3 = 0%nat
    /\ driverCalls s3
       = driverCalls st1
         ++ (if cleanupExpiredOnHydrate st && negb (Nat.eqb (length dropped) 0)
             then if removeMany (driver st) then [DriverRemoveMany dropped]
                  else List.map DriverRemove dropped
             else [])).
  { intros s3 ->.
    destruct (cleanupExpiredOnHydrate st && negb (Nat.eqb (length dropped) 0));
      [destruct (removeMany (driver st))|].
    - repeat split.
    - destruct (driverRemoveEach_frame dropped s2) as (A1 & A2 & _ & _ & A5 & _).
      unfold notifPart in A1. injection A1 as B1 _ _ B4.
      unfold listenersPart in A2. injection A2 as _ _ _ B5.
      rewrite A5, B1, B4, B5, driverRemoveEach_calls. repeat split.
    - subst s2. st_cbn. rewrite app_nil_r. repeat split. }
  match goal with |- context [invalidateAllKeysCache ?s] =>
    destruct (Hstage s eq_refl) as (G1 & G2 & G3 & G4 & G5);
    generalize dependent s end.
  intros s3 G1 G2 G3 G4 G5.
  assert (Hq : forall s, batchDepth s = 0%nat ->
            mirror (queueEmitReady s) = mirror s
            /\ driverCalls (queueEmitReady s) = driverCalls s
            /\ trace (queueEmitReady s)
               = trace s ++ NotifyReady
                            :: List.map (fun cb => Call cb None) (readyListeners s)).
  { intros s Hs. unfold queueEmitReady. rewrite Hs. repeat split. }
  assert (Hs : forall x s, mirror (settleReady x s) = mirror s
                           /\ driverCalls (settleReady x s) = driverCalls s
                           /\ trace (settleReady x s) = trace s
                           /\ readyListeners (settleReady x s) = readyListeners s
                           /\ batchDepth (settleReady x s) = batchDepth s).
  { intros x s. unfold settleReady. destruct (readyP s); repeat split. }
  match goal with |- context [queueEmitReady (settleReady ?x ?s)] =>
    destruct (Hs x s) as (E1 & E2 & E3 & E4 & E5);
    destruct (Hq (settleReady x s)) as (Q1 & Q2 & Q3)
  end.
  { rewrite E5. unfold Store.invalidateEveryPrefixCache. st_cbn. exact G4. }
  rewrite Q1, Q2, Q3, E1, E2, E3, E4.
  unfold Store.invalidateEveryPrefixCache. st_cbn.
  rewrite G1, G2, G3, G5, S2, S3, N4, L4. repeat split.
Qed.

Lemma get_notin {V : Type} k (m : list (string * V)) :
  ~ In k (JsMap.keysOf m) -> JsMap.get k m = None.
Proof.
  intros H. destruct (JsMap.get k m) as [v|] eqn:E; [|reflexivity].
  exfalso. apply H. apply get_Some_In in E. unfold JsMap.keysOf.
  apply in_map_iff. now exists (k, v).
Qed.

Lemma get_setAll_notin k kvs : forall (m : list (CacheKey * CacheEntry)),
  ~ In k (List.map fst kvs) -> JsMap.get k (setAll kvs m) = JsMap.get k m.
Proof.
  unfold setAll.
  induction kvs as [|[k' e'] r IH]; intros m H; cbn [fold_left fst snd];
    [reflexivity|].
  cbn [List.map fst In] in H. rewrite IH by tauto.
  apply get_set_ne. intros ->. tauto.
Qed.

Lemma get_setAll_in k e kvs : forall (m : list (CacheKey * CacheEntry)),
  List.NoDup (List.map fst kvs) -> In (k, e) kvs ->
  JsMap.get k (setAll kvs m) = Some e.
Proof.
  induction kvs as [|[k' e'] r IH]; intros m Hnd Hin; [destruct Hin|].
  cbn [List.map fst] in Hnd. inversion Hnd as [|x l Hnotin Hnd']; subst.
  destruct Hin as [[= -> ->]|Hin].
  - change (setAll ((k, e) :: r) m) with (setAll r (JsMap.set k e m)).
    rewrite get_setAll_notin by exact Hnotin. apply get_set_eq.
  - change (setAll ((k', e') :: r) m) with (setAll r (JsMap.set k' e' m)).
    now apply IH.
Qed.

Lemma keptRows_keys now cleanup rows k :
  In k (List.map fst (keptRows now cleanup rows)) -> In k (List.map fst rows).
Proof.
  induction rows as [|[k' [e'|]] r IH]; cbn [keptRows flat_map fst snd List.map];
    [auto| |intros H; right; now apply IH].
  destruct (cleanup && negb (Ttl.isAlive now (Some e'))); cbn [app List.map fst];
    [intros H; right; now apply IH|].
  intros [H|H]; [now left | right; now apply IH].
Qed.

Lemma keptRows_NoDup now cleanup rows :
  List.NoDup (List.map fst rows) ->
  List.NoDup (List.map fst (keptRows now cleanup rows)).
Proof.
  induction rows as [|[k' [e'|]] r IH]; cbn [keptRows flat_map fst snd List.map];
    intros Hnd; [constructor| |];
    inversion Hnd as [|x l Hnotin Hnd']; subst; [|now apply IH].
  destruct (cleanup && negb (Ttl.isAlive now (Some e'))); cbn [app List.map fst];
    [now apply IH|].
  constructor; [|now apply IH].
  intros H. apply Hnotin. eapply keptRows_keys. exact H.
Qed.

Lemma In_keptRows now cleanup rows k e :
  In (k, e) (keptRows now cleanup rows)
  <-> In (k, Some e) rows /\ cleanup && negb (Ttl.isAlive now (Some e)) = false.
Proof.
  unfold keptRows. rewrite in_flat_map. split.
  - intros ([k' [e'|]] & Hin & H); cbn [fst snd] in H; [|destruct H].
    destruct (cleanup && negb (Ttl.isAlive now (Some e'))) eqn:E; [destruct H|].
    destruct H as [[= -> ->]|[]]. auto.
  - intros [Hin E]. exists (k, Some e). split; [exact Hin|].
    cbn [fst snd]. rewrite E. now left.
Qed.

(** X13: When the rows of the driver arrive, the hydration function writes every
    row it keeps (a row with an entry that is live, or any row with an entry
    when [cleanupExpiredOnHydrate] is off) over whatever the mirror holds for
    that key, also over an entry written while hydration was pending, and
    leaves the keys that have no row alone.  It runs [emitNow] for no key: the
    listeners called are the ready listeners, once each, after one ready
    notification. *)
Theorem hydration_overwrites_silently
    (opts : CreateCacheOptions) (h : list Action) (now : Z)
    (rows : list (CacheKey * option CacheEntry)) :
  let st := steps h (createCache opts) in
  let st' := hydrationSettles now (Rows rows) st in
  Store.isReady st = false ->
  deliveredSince st st'
  = NotifyReady :: List.map (fun cb => Call cb None) (readyListeners st)
  /\ notifiedKeys (deliveredSince st st') = []
  /\ (List.NoDup (List.map fst rows) ->
      forall k e, In (k, Some e) rows ->
        cleanupExpiredOnHydrate st = false \/ Ttl.isAlive now (Some e) = true ->
        JsMap.get k (mirror st') = Some e)
  /\ (forall k, ~ In k (List.map fst rows) ->
        JsMap.get k (mirror st') = JsMap.get k (mirror st)).
Proof.
  intros st st' Hr.
  pose proof (steps_coherent h _ (createCache_coherent opts)) as Hc. fold st in Hc.
  pose proof (steps_idle opts h) as (Hd & Hk & Hp). cbv zeta in Hd, Hk, Hp.
  fold st in Hd, Hk, Hp.
  assert (Hh : hydrating st = true).
  { unfold Store.isReady in Hr.
    destruct Hc as [(Hh & _)|(_ & Hr' & _)]; [exact Hh | congruence]. }
  destruct (hydrationSettles_rows now rows st Hh Hd Hk Hp) as (M & _ & T).
  fold st' in M, T.
  rewrite (deliveredSince_app st st' _ T).
  split; [reflexivity|]. split; [|split].
  - change (NotifyReady :: ?l) with ([NotifyReady] ++ l).
    rewrite notifiedKeys_app, notifiedKeys_calls
      by (intros cb; eexists; reflexivity).
    reflexivity.
  - intros Hnd k e Hin Hkeep. rewrite M.
    apply get_setAll_in; [now apply keptRows_NoDup|].
    apply In_keptRows. split; [exact Hin|].
    destruct Hkeep as [-> | ->]; [reflexivity | apply andb_false_r].
  - intros k Hnot. rewrite M. apply get_setAll_notin.
    intros H. apply Hnot. eapply keptRows_keys. exact H.
Qed.

Lemma hydration_overwrites_silently_witness :
  let opts := {| opt_driver := Build_CacheDriver true true false;
                 opt_hydrate := None;
                 opt_cleanupExpiredOnHydrate := None |} in
  let h := [ASync (PCall 0 (CSet "a" (VNum 1) None) (fun _ => PRet))] in
  let st := steps h (createCache opts) in
  let rows := [("a", Some (makeEntry 0 (VNum 5) None))] in
  notifiedKeys (deliveredSince st (hydrationSettles 3 (Rows rows) st)) = [].
Proof.
  intros opts h st rows.
  apply (hydration_overwrites_silently opts h 3 rows). reflexivity.
Defined.

Lemma keysLoop_spec prefix ks : forall out,
  MemoryDriver.keysLoop prefix ks out = out ++ List.filter (inScope prefix) ks.
Proof.
  induction ks as [|k ks IH]; intros out; cbn [MemoryDriver.keysLoop List.filter].
  - now rewrite app_nil_r.
  - destruct (inScope prefix k); cbn [negb]; rewrite IH; [|reflexivity].
    now rewrite <- app_assoc.
Qed.

(** What [getMany(keys())] reads from the memory driver: every entry, in
    the order of the map. *)
Lemma memory_rows (m : list (CacheKey * CacheEntry)) :
  List.NoDup (JsMap.keysOf m) ->
  MemoryDriver.getMany (MemoryDriver.keys None m) m
  = List.map (fun kv => (fst kv, Some (snd kv))) m.
Proof.
  intros Hnd. unfold MemoryDriver.getMany, MemoryDriver.keys.
  rewrite keysLoop_spec. cbn [app].
  rewrite filter_all by reflexivity.
  unfold JsMap.keysOf. rewrite List.map_map. apply List.map_ext_in.
  intros [k e] Hin. cbn [fst snd]. f_equal. now apply In_get.
Qed.

Lemma keptRows_memory now cleanup (m : list (CacheKey * CacheEntry)) :
  keptRows now cleanup (List.map (fun kv => (fst kv, Some (snd kv))) m)
  = List.filter (fun kv => negb (cleanup && negb (Ttl.isAlive now (Some (snd kv))))) m.
Proof.
  unfold keptRows. induction m as [|[k e] r IH]; [reflexivity|].
  cbn [List.map flat_map List.filter fst snd] in *.
  destruct (cleanup && negb (Ttl.isAlive now (Some e))); cbn [negb app];
    now rewrite IH.
Qed.

Lemma droppedKeys_memory now cleanup (m : list (CacheKey * CacheEntry)) :
  droppedKeys now cleanup (List.map (fun kv => (fst kv, Some (snd kv))) m)
  = List.map fst
      (List.filter (fun kv => cleanup && negb (Ttl.isAlive now (Some (snd kv)))) m).
Proof.
  unfold droppedKeys. induction m as [|[k e] r IH]; [reflexivity|].
  cbn [List.map flat_map List.filter fst snd] in *.
  destruct (cleanup && negb (Ttl.isAlive now (Some e))); cbn [app List.map fst];
    now rewrite IH.
Qed.

Lemma setAll_fresh kvs : forall (m : list (CacheKey * CacheEntry)),
  List.NoDup (JsMap.keysOf (m ++ kvs)) -> setAll kvs m = m ++ kvs.
Proof.
  unfold setAll.
  induction kvs as [|[k e] r IH]; intros m Hnd; cbn [fold_left fst snd].
  - now rewrite app_nil_r.
  - assert (Hg : JsMap.get k m = None).
    { apply get_notin. intros Hin. rewrite keysOf_app in Hnd.
      apply List.NoDup_remove_2 in Hnd. apply Hnd. apply in_or_app. now left. }
    rewrite (JsMap_set_absent k e m Hg), IH.
    + now rewrite <- app_assoc.
    + now rewrite <- app_assoc.
Qed.

(** Deleting the keys of the entries that fail a test leaves the entries
    that pass it. *)
Lemma deleteAll_failing (f : CacheKey * CacheEntry -> bool)
    (m : list (CacheKey * CacheEntry)) :
  List.NoDup (JsMap.keysOf m) ->
  JsMap.deleteAll (List.map fst (List.filter f m)) m
  = List.filter (fun kv => negb (f kv)) m.
Proof.
  intros Hnd. rewrite deleteAll_filter. apply List.filter_ext_in.
  intros [k e] Hin. f_equal. cbn [fst].
  destruct (f (k, e)) eqn:F.
  - apply existsb_exists. exists k. split; [|apply String.eqb_refl].
    apply in_map_iff. exists (k, e). split; [reflexivity|].
    apply List.filter_In. auto.
  - destruct (existsb _ _) eqn:E; [|reflexivity].
    apply existsb_exists in E as (k' & Hk' & Heq). apply String.eqb_eq in Heq.
    subst k'. apply in_map_iff in Hk' as ([k2 e2] & Hk2 & Hin2).
    cbn [fst] in Hk2. subst k2. apply List.filter_In in Hin2 as [Hin2 F2].
    pose proof (In_get k e m Hnd Hin) as G1.
    pose proof (In_get k e2 m Hnd Hin2) as G2.
    congruence.
Qed.

(** X14: Hydration from a memory driver when nothing is written before it
    ends.  The cache is made over a memory driver that holds [m0]; between
    [createCache] and the end of hydration the store may be called
    ([pre]), but without a write: the mirror is still empty and the driver
    has received no call, so that the rows the hydration function reads are
    [getMany(keys())] of [m0].  Then, when hydration ends, the mirror holds
    the entries of [m0] that are live (all of them if
    [cleanupExpiredOnHydrate] is off), in the driver's order, and from then
    on, after every history, the driver's map is the mirror: the removal of
    the expired rows and every later write reach the driver.  (After a
    write in that window neither holds in general, see
    [write_before_hydration_ends].) *)
Theorem hydrated_cache_matches_driver
    (opts : CreateCacheOptions) (pre : list Action)
    (m0 : list (CacheKey * CacheEntry)) (now : Z) (h : list Action) :
  let st0 := steps pre (createCache opts) in
  orTrue (opt_hydrate opts) = true ->
  beforeHydrationEnds pre = true ->
  mirror st0 = [] ->
  driverCalls st0 = [] ->
  List.NoDup (JsMap.keysOf m0) ->
  let rows := MemoryDriver.getMany (MemoryDriver.keys None m0) m0 in
  let st1 := hydrationSettles now (Rows rows) st0 in
  let st := steps h st1 in
  mirror st1
  = List.filter (fun kv => negb (orTrue (opt_cleanupExpiredOnHydrate opts))
                           || Ttl.isAlive now (Some (snd kv))) m0
  /\ MemoryDriver.replay (driverCalls st) m0 = mirror st.
Proof.
  intros st0 Ho Hpre Hm0 Hd0 Hnd rows st1 st.
  pose proof (steps_pending_readyPart pre (createCache opts) Hpre) as E.
  fold st0 in E.
  assert (E0 : createCache opts
               = with_hydrating true
                   (emptyState (opt_driver opts)
                               (orTrue (opt_cleanupExpiredOnHydrate opts)))).
  { unfold createCache. now rewrite Ho. }
  rewrite E0 in E. unfold readyPart in E. cbn in E.
  injection E as _ Hrp Hh Hdr Hcl.
  pose proof (steps_idle opts pre) as (Hbd & Hpk & Hpr).
  cbv zeta in Hbd, Hpk, Hpr. fold st0 in Hbd, Hpk, Hpr.
  destruct (hydrationSettles_rows now rows st0 Hh Hbd Hpk Hpr) as (M & D & _).
  fold st1 in M, D. subst rows. rewrite (memory_rows m0 Hnd) in *.
  rewrite keptRows_memory in M. rewrite droppedKeys_memory in D.
  rewrite Hm0, Hcl in M. rewrite Hd0, Hcl, Hdr in D. cbn [app] in D.
  set (c := orTrue (opt_cleanupExpiredOnHydrate opts)) in *.
  set (dead := fun kv : CacheKey * CacheEntry =>
                 c && negb (Ttl.isAlive now (Some (snd kv)))) in *.
  assert (Hm : mirror st1 = List.filter (fun kv => negb (dead kv)) m0).
  { rewrite M. apply setAll_fresh. cbn [app]. now apply NoDup_keysOf_filter. }
  assert (Hcoh : MemoryDriver.replay (driverCalls st1) m0 = mirror st1).
  { rewrite Hm, D, <- (deleteAll_failing dead m0 Hnd).
    destruct (c && negb (Nat.eqb (length (List.map fst (List.filter dead m0))) 0))
      eqn:E.
    - destruct (removeMany (opt_driver opts)); [reflexivity | apply replay_removes].
    - destruct c; cbn [andb] in E.
      + apply negb_false_iff, Nat.eqb_eq in E.
        destruct (List.map fst (List.filter dead m0)); [reflexivity | discriminate].
      + subst dead. cbn [andb].
        assert (En : List.filter (fun _ : CacheKey * CacheEntry => false) m0 = []).
        { clear. induction m0 as [|x r IH]; [reflexivity | exact IH]. }
        rewrite En. reflexivity. }
  split.
  - rewrite Hm. apply List.filter_ext. intros kv. subst dead. cbv beta.
    rewrite negb_andb. now rewrite negb_involutive.
  - assert (Hk : KeyListsConsistent st1).
    { apply hydrationSettles_klc, steps_klc, createCache_klc. }
    assert (Hh1 : hydrating st1 = false).
    { now apply (hydrationSettles_ready now _ st0). }
    destruct (steps_follows h st1 Hk Hh1) as (calls & Dc & R).
    fold st in Dc, R. now rewrite Dc, replay_app, Hcoh.
Qed.

Lemma hydrated_cache_matches_driver_witness :
  let opts := {| opt_driver := Build_CacheDriver true true false;
                 opt_hydrate := None;
                 opt_cleanupExpiredOnHydrate := None |} in
  let pre := [ASync (PCall 0 (CSubscribeKey "user:1" 1%nat)
                      (fun _ => PCall 1 (CGet "user:1") (fun _ => PRet)))] in
  let m0 := [("user:1", makeEntry 0 (VStr "A") (Some 1000));
             ("user:2", makeEntry 0 (VStr "B") None)] in
  let rows := MemoryDriver.getMany (MemoryDriver.keys None m0) m0 in
  let st1 := hydrationSettles 1500 (Rows rows) (steps pre (createCache opts)) in
  let st := steps [ASync (PCall 1600 (CSet "user:3" (VStr "C") None) (fun _ => PRet))]
                  st1 in
  mirror st1 = [("user:2", makeEntry 0 (VStr "B") None)]
  /\ MemoryDriver.replay (driverCalls st) m0 = mirror st.
Proof.
  intros opts pre m0 rows st1 st.
  apply (hydrated_cache_matches_driver opts pre m0 1500
           [ASync (PCall 1600 (CSet "user:3" (VStr "C") None) (fun _ => PRet))]).
  - reflexivity.
  - reflexivity.
  - reflexivity.
  - reflexivity.
  - unfold JsMap.keysOf. cbn [List.map fst].
    constructor; [intros [H|[]]; discriminate|].
    constructor; [intros []|constructor].
Defined.

(** A write between the reading of the rows and the end of hydration.  The
    driver holds an expired row for the key [a], and [a] is set after the
    rows were read.  Hydration skips the expired row, so the mirror keeps the
    new entry, and then tells the driver to remove [a]: the driver ends up
    empty.  With a live row for [a] and a write to [b], mirror and driver
    hold the same entries in different orders. *)
Example write_before_hydration_ends :
  let opts := {| opt_driver := Build_CacheDriver true true true;
                 opt_hydrate := None;
                 opt_cleanupExpiredOnHydrate := None |} in
  let old := [("a", makeEntry 0 (VStr "old") (Some 10))] in
  let st0 := steps [ASync (PCall 50 (CSet "a" (VStr "new") None) (fun _ => PRet))]
                   (createCache opts) in
  let st1 := hydrationSettles 60
               (Rows (MemoryDriver.getMany (MemoryDriver.keys None old) old)) st0 in
  let live := [("a", makeEntry 0 (VStr "A") None)] in
  let st0' := steps [ASync (PCall 50 (CSet "b" (VStr "B") None) (fun _ => PRet))]
                    (createCache opts) in
  let st1' := hydrationSettles 60
                (Rows (MemoryDriver.getMany (MemoryDriver.keys None live) live)) st0' in
  mirror st1 = [("a", makeEntry 50 (VStr "new") None)]
  /\ MemoryDriver.replay (driverCalls st1) old = []
  /\ JsMap.keysOf (mirror st1') = ["b"; "a"]
  /\ JsMap.keysOf (MemoryDriver.replay (driverCalls st1') live) = ["a"; "b"].
Proof. vm_compute. repeat split. Qed.

(** ** The ready notification *)

Lemma NoReadyNotice_refl st : NoReadyNotice st st.
Proof. split; reflexivity. Qed.

Lemma NoReadyNotice_trans st1 st2 st3 :
  NoReadyNotice st1 st2 -> NoReadyNotice st2 st3 -> NoReadyNotice st1 st3.
Proof. intros [A B] [C D]. split; congruence. Qed.

Lemma NoReadyNotice_of_notifPart st st' :
  notifPart st' = notifPart st -> NoReadyNotice st st'.
Proof.
  unfold notifPart. intros E. injection E as _ _ E3 E4. split; congruence.
Qed.

Lemma queueEmitKey_noReady k st : NoReadyNotice st (queueEmitKey k st).
Proof.
  unfold queueEmitKey. destruct (0 <? batchDepth st)%nat; split; try reflexivity.
  cbn [emitNow trace with_trace].
  change (Notify k :: listenerCalls k st) with ([Notify k] ++ listenerCalls k st).
  rewrite !readyNotifications_app, readyNotifications_listenerCalls.
  cbn. lia.
Qed.

Lemma setInternal_noReady k e st : NoReadyNotice st (setInternal k e st).
Proof.
  unfold setInternal.
  destruct e as [e|]; [destruct (nonPositiveTtl e)|]; cbv zeta;
    match goal with |- NoReadyNotice st (queueEmitKey k ?s) =>
      apply (NoReadyNotice_trans st s);
        [apply NoReadyNotice_of_notifPart; reflexivity
        | apply queueEmitKey_noReady]
    end.
Qed.

Lemma queueEmitKeys_noReady ks : forall st,
  NoReadyNotice st (Store.queueEmitKeys ks st).
Proof.
  unfold Store.queueEmitKeys.
  induction ks as [|k ks IH]; intros st; cbn [fold_left];
    [apply NoReadyNotice_refl|].
  eapply NoReadyNotice_trans; [apply queueEmitKey_noReady | apply IH].
Qed.

Lemma exec_noReady now c st : NoReadyNotice st (snd (exec now c st)).
Proof.
  destruct c as [key|key|key v ttl|key|prefix|prefix|key ttl|key|
                 |key cb|key cb|p cb|p cb|cb|cb|cb|cb]; cbn [exec].
  - pose proof (get_frame now key st) as (H & _).
    destruct (Store.get now key st). now apply NoReadyNotice_of_notifPart.
  - pose proof (has_frame now key st) as (H & _).
    destruct (Store.has now key st). now apply NoReadyNotice_of_notifPart.
  - apply setInternal_noReady.
  - apply setInternal_noReady.
  - pose proof (getCachedKeys_frame now prefix st) as (H & _).
    unfold Store.keys. destruct (getCachedKeys now prefix st).
    now apply NoReadyNotice_of_notifPart.
  - cbn [snd]. destruct (clear_notifPart_before now prefix st) as (s & -> & N).
    apply (NoReadyNotice_trans st s);
      [now apply NoReadyNotice_of_notifPart | apply queueEmitKeys_noReady].
  - cbn [snd]. unfold Store.touch.
    pose proof (getEntry_frame now key st) as (H & _).
    destruct (getEntry now key st) as [[e|] st1]; cbn [snd] in H;
      [|now apply NoReadyNotice_of_notifPart].
    apply (NoReadyNotice_trans st st1); [now apply NoReadyNotice_of_notifPart|].
    apply setInternal_noReady.
  - apply queueEmitKey_noReady.
  - apply NoReadyNotice_refl.
  - apply NoReadyNotice_of_notifPart; reflexivity.
  - cbn [snd]. unfold Store.unsubscribeKey.
    destruct (JsMap.get key (keyListeners st)); [|apply NoReadyNotice_refl].
    destruct (JsSet.delete Nat.eqb cb l); apply NoReadyNotice_of_notifPart; reflexivity.
  - apply NoReadyNotice_of_notifPart; reflexivity.
  - cbn [snd]. unfold Store.unsubscribePrefix.
    destruct (JsMap.get p (prefixListeners st)); [|apply NoReadyNotice_refl].
    destruct (JsSet.delete Nat.eqb cb l); apply NoReadyNotice_of_notifPart; reflexivity.
  - apply NoReadyNotice_of_notifPart; reflexivity.
  - apply NoReadyNotice_of_notifPart; reflexivity.
  - apply NoReadyNotice_of_notifPart; reflexivity.
  - apply NoReadyNotice_of_notifPart; reflexivity.
Qed.

Lemma batchFinally_noReady st :
  pendingReadyEmit st = false -> NoReadyNotice st (batchFinally st).
Proof.
  intros Hp. unfold batchFinally. cbv zeta. cbn [batchDepth with_batchDepth].
  destruct (Nat.pred (batchDepth st) =? 0)%nat; [|split; reflexivity].
  match goal with |- context [emitAll ?ks ?s] =>
    destruct (emitAll_frame ks s) as (_ & _ & _ & _ & _ & _ & F7);
    destruct (emitAll_trace ks s) as (evs & E1 & _ & E3);
    generalize dependent (emitAll ks s) end.
  intros s1 F7 E1. cbn in F7, E1. rewrite Hp in F7. rewrite F7.
  split; [congruence|]. rewrite E1, readyNotifications_app, E3. lia.
Qed.

Lemma run_noReady (p : Prog) : forall st,
  pendingReadyEmit st = false -> NoReadyNotice st (fst (run p st)).
Proof.
  induction p as [| | now c k IH | fn IHfn onR IHr onT IHt]; intros st Hp;
    cbn [run]; try apply NoReadyNotice_refl.
  - pose proof (exec_noReady now c st) as He.
    destruct (exec now c st) as [r st']. cbn [snd] in He.
    eapply NoReadyNotice_trans; [exact He|]. apply IH.
    destruct He as [He _]. congruence.
  - pose proof (IHfn (enterBatch st) Hp) as Hfn.
    destruct (run fn (enterBatch st)) as [st1 c]. cbn [fst] in Hfn.
    assert (Hp1 : pendingReadyEmit st1 = false).
    { destruct Hfn as [H _]. rewrite H. exact Hp. }
    assert (Hb : NoReadyNotice st (batchFinally st1)).
    { apply (NoReadyNotice_trans st (enterBatch st)); [split; reflexivity|].
      apply (NoReadyNotice_trans _ st1);
        [exact Hfn | now apply batchFinally_noReady]. }
    assert (Hp2 : pendingReadyEmit (batchFinally st1) = false).
    { destruct Hb as [H _]. rewrite H. exact Hp. }
    destruct c; (eapply NoReadyNotice_trans; [exact Hb|]);
      [now apply IHr | now apply IHt].
Qed.

Lemma fetchSettles_noReady now p outcome st :
  NoReadyNotice st (fetchSettles now p outcome st).
Proof.
  unfold fetchSettles.
  destruct (findTask p (awaiting st)) as [t|]; [|apply NoReadyNotice_refl].
  destruct outcome as [v|err]; [|apply NoReadyNotice_of_notifPart; reflexivity].
  cbv zeta. unfold Store.set.
  match goal with |- context [setInternal ?k ?e ?s] =>
    apply (NoReadyNotice_trans st s);
      [apply NoReadyNotice_of_notifPart; reflexivity|];
    apply (NoReadyNotice_trans s (setInternal k e s));
      [apply setInternal_noReady | apply NoReadyNotice_of_notifPart; reflexivity]
  end.
Qed.

Lemma steps_snoc h a st : steps (h ++ [a]) st = step a (steps h st).
Proof. unfold steps. now rewrite fold_left_app. Qed.

Lemma hydrationSettles_failed now err st :
  hydrating st = true -> batchDepth st = 0%nat ->
  trace (hydrationSettles now (DriverFailed err) st)
  = trace st ++ NotifyReady
                :: List.map (fun cb => Call cb None) (readyListeners st).
Proof.
  intros Hh Hd. unfold hydrationSettles. rewrite Hh. cbn [negb]. cbv zeta.
  unfold queueEmitReady, settleReady.
  destruct (readyP (with_ready true (with_hydrating false st))); st_cbn;
    rewrite Hd; reflexivity.
Qed.

(** X15: Over every history the ready notification is delivered exactly once,
    at the moment the cache becomes ready: not before, and not again
    afterwards, whatever is written, cleared, batched or fetched.  Without
    hydration that moment is inside [createCache], before anybody can have
    subscribed. *)
Theorem ready_is_notified_once (opts : CreateCacheOptions) (h : list Action) :
  let st := steps h (createCache opts) in
  readyNotifications (trace st) = (if Store.isReady st then 1 else 0)%nat
  /\ (opt_hydrate opts = Some false ->
      trace (createCache opts) = [NotifyReady]).
Proof.
  cbv zeta. unfold Store.isReady. split.
  - induction h as [|a h IH] using rev_ind.
    + unfold steps, createCache. cbn [fold_left].
      destruct (negb (orTrue (opt_hydrate opts))); reflexivity.
    + rewrite steps_snoc.
      pose proof (steps_idle opts h) as (Hd & Hk & Hp). cbv zeta in Hd, Hk, Hp.
      pose proof (steps_coherent h _ (createCache_coherent opts)) as Hc.
      set (st := steps h (createCache opts)) in *.
      destruct a as [p|now key f beh o|now p outcome|now outcome]; cbn [step].
      * destruct (run_noReady p st Hp) as [_ ->].
        pose proof (run_SyncStep p st) as (_ & _ & R).
        unfold readyPart in R. injection R as -> _ _ _ _. exact IH.
      * pose proof (getOrSetAsync_notifPart now key f beh o st) as N.
        pose proof (getOrSetAsync_readyPart now key f beh o st) as R.
        unfold notifPart in N. injection N as _ _ _ ->.
        unfold readyPart in R. injection R as -> _ _ _ _. exact IH.
      * destruct (fetchSettles_noReady now p outcome st) as [_ ->].
        pose proof (fetchSettles_readyPart now p outcome st) as R.
        unfold readyPart in R. injection R as -> _ _ _ _. exact IH.
      * destruct Hc as [(Hh & Hr & Hrp)|(Hh & Hr & _)].
        -- destruct (hydrationSettles_ready now outcome st Hh Hrp) as (_ & -> & _).
           rewrite Hr in IH.
           assert (T : trace (hydrationSettles now outcome st)
                       = trace st ++ NotifyReady
                           :: List.map (fun cb => Call cb None) (readyListeners st)).
           { destruct outcome as [err|rows].
             - now apply hydrationSettles_failed.
             - now apply hydrationSettles_rows. }
           rewrite T, readyNotifications_app, IH.
           change (NotifyReady :: ?l) with ([NotifyReady] ++ l).
           rewrite readyNotifications_app, readyNotifications_calls
             by (intros cb; eexists; reflexivity).
           reflexivity.
        -- rewrite hydrationSettles_once by exact Hh. exact IH.
  - intros Ho. unfold createCache. rewrite Ho. reflexivity.
Qed.

(** ** [getOrSetAsync] and the cache *)

Lemma getOrSetAsync_hit now key f beh opts st :
  force opts = false ->
  isUndefined (fst (Store.get now key st)) = false ->
  getOrSetAsync now key f beh opts st
  = (ReturnsValue (fst (Store.get now key st)), snd (Store.get now key st)).
Proof.
  intros Hf Hv. unfold getOrSetAsync. rewrite Hf.
  destruct (Store.get now key st) as [cached st1]. cbn [fst snd] in *.
  now rewrite Hv.
Qed.

(** X16: After a fetch.  A call that finds nothing cached and nothing in flight
    starts a fetch; when the fetcher's promise is fulfilled with [v] the
    caller gets [v] and the in-flight entry is gone.  A later call without
    [force] is served [v] from the cache, without a call of its fetcher, if
    [v] is not [undefined] and the [ttlMs] of the first call is absent or
    positive and not elapsed.  Otherwise the later call fetches again: a
    fetcher that resolves [undefined], a [ttlMs <= 0] and an elapsed TTL
    all leave nothing to serve. *)
Theorem fetched_value_is_cached
    (opts : CreateCacheOptions) (h : list Action) (key : CacheKey)
    (t1 t2 t3 : Z) (f1 f2 : Fetcher) (ttl ttl2 : option Z) (v : JsValue)
    (beh2 : FetcherBehaviour) :
  let st := steps h (createCache opts) in
  JsMap.get key (inFlight st) = None ->
  fst (Store.get t1 key st) = VUndefined ->
  let call1 := getOrSetAsync t1 key f1 ReturnsPromise
                             {| optTtlMs := ttl; force := false |} st in
  let st2 := fetchSettles t2 (nextPromise st) (Fulfilled v) (snd call1) in
  let call2 := getOrSetAsync t3 key f2 beh2
                             {| optTtlMs := ttl2; force := false |} st2 in
  callerOutcome (fst call1) st2 = Some (Fulfilled v)
  /\ JsMap.get key (inFlight st2) = None
  /\ fetcherCalls st2 = fetcherCalls st ++ [f1]
  /\ (isUndefined v = false ->
      match ttl with None => True | Some T => 0 < T /\ t3 - t2 < T end ->
      fst call2 = ReturnsValue v /\ fetcherCalls (snd call2) = fetcherCalls st2)
  /\ (isUndefined v = true
      \/ match ttl with None => False | Some T => T <= 0 \/ t3 - t2 >= T end ->
      fetcherCalls (snd call2) = fetcherCalls st2 ++ [f2]).
Proof.
  intros st Hin Hmiss call1 st2 call2.
  pose proof (steps_fresh h _ (createCache_fresh opts)) as [Hfa Hfs].
  fold st in Hfa, Hfs.
  destruct (getOrSetAsync_starts t1 key f1 ttl false st Hin (or_intror Hmiss))
    as (C1 & C2 & _ & C4 & C5 & C6 & _).
  fold call1 in C1, C2, C4, C5, C6.
  set (task := {| taskPromise := nextPromise st; taskKey := key; taskTtl := ttl |})
    in *.
  assert (Hfind : findTask (nextPromise st) (awaiting (snd call1)) = Some task).
  { rewrite C4. now apply findTask_fresh. }
  destruct (fetchSettles_effect t2 (nextPromise st) (Fulfilled v) task (snd call1)
              Hfind) as (E1 & E2 & _ & E4 & _ & E6).
  fold st2 in E1, E2, E4, E6. cbn [taskKey taskTtl task] in E1, E6.
  assert (Hfl : JsMap.get key (inFlight st2) = None).
  { rewrite E1. apply get_delete_eq. }
  assert (Hfc : fetcherCalls st2 = fetcherCalls st ++ [f1]) by congruence.
  assert (Hm : mirror st2
               = if nonPositiveTtl (makeEntry t2 v ttl)
                 then JsMap.delete key (mirror (snd call1))
                 else JsMap.set key (makeEntry t2 v ttl) (mirror (snd call1))).
  { apply (f_equal (fun d => fst (fst (fst d)))) in E6. unfold dataPart in E6.
    cbn [fst] in E6. rewrite E6. unfold Store.set.
    now destruct (setInternal_data key (Some (makeEntry t2 v ttl)) (snd call1))
      as [-> _]. }
  split; [|split; [exact Hfl|split; [exact Hfc|split]]].
  - rewrite C1. cbn [callerOutcome]. rewrite E2, C5.
    now apply settlementOf_fresh.
  - intros Hv Httl.
    assert (Hg : fst (Store.get t3 key st2) = v).
    { rewrite get_value, Hm.
      assert (Hnp : nonPositiveTtl (makeEntry t2 v ttl) = false).
      { unfold nonPositiveTtl, makeEntry. cbn [ttlMs].
        destruct ttl as [T|]; [|reflexivity]. apply Z.leb_gt. lia. }
      rewrite Hnp, get_set_eq, (isAlive_fresh t2 t3 v ttl Httl). reflexivity. }
    subst call2. rewrite getOrSetAsync_hit by (cbn [force]; congruence).
    cbn [fst snd]. split; [now rewrite Hg|].
    pose proof (get_frame t3 key st2) as (_ & _ & Ha & _).
    now destruct (asyncPart_fields _ _ Ha) as (_ & _ & _ & _ & ->).
  - intros Hno. subst call2.
    apply getOrSetAsync_calls_fetcher; [exact Hfl|]. right.
    rewrite get_value, Hm.
    destruct Hno as [Hv | Httl].
    + destruct (nonPositiveTtl (makeEntry t2 v ttl)).
      * now rewrite get_delete_eq.
      * rewrite get_set_eq. cbn [value makeEntry].
        destruct v; try discriminate.
        now destruct (Ttl.isAlive t3 _).
    + destruct ttl as [T|]; [|destruct Httl].
      unfold nonPositiveTtl, makeEntry. cbn [ttlMs].
      destruct (T <=? 0) eqn:E.
      * now rewrite get_delete_eq.
      * rewrite get_set_eq. apply Z.leb_gt in E.
        unfold Ttl.isAlive. cbn [ttlMs createdAt].
        destruct (T =? 0) eqn:E0; [apply Z.eqb_eq in E0; lia|].
        destruct (t3 - t2 <? T) eqn:Elt; [apply Z.ltb_lt in Elt; lia|].
        reflexivity.
Qed.

Lemma fetched_value_is_cached_witness :
  let opts := {| opt_driver := Build_CacheDriver false false false;
                 opt_hydrate := Some false;
                 opt_cleanupExpiredOnHydrate := None |} in
  let st := steps [] (createCache opts) in
  let call1 := getOrSetAsync 0 "k" 1%nat ReturnsPromise
                             {| optTtlMs := Some 10; force := false |} st in
  let st2 := fetchSettles 5 (nextPromise st) (Fulfilled (VNum 7)) (snd call1) in
  callerOutcome (fst call1) st2 = Some (Fulfilled (VNum 7)).
Proof.
  intros opts st call1 st2.
  apply (fetched_value_is_cached opts [] "k" 0 5 9 1%nat 2%nat (Some 10) None
           (VNum 7) ReturnsPromise); reflexivity.
Defined.

(** ** The memory driver by itself *)

(** X17: Round trips of the memory driver: an entry that was set is what [get]
    returns; [set] with no entry is [remove], after which [get] returns
    [null]; neither touches another key. *)
Theorem memory_driver_round_trips
    (k k' : CacheKey) (e : CacheEntry) (entry : option CacheEntry)
    (m : list (CacheKey * CacheEntry)) :
  MemoryDriver.get k (MemoryDriver.set k (Some e) m) = Some e
  /\ MemoryDriver.set k None m = MemoryDriver.remove k m
  /\ MemoryDriver.get k (MemoryDriver.remove k m) = None
  /\ (k' <> k ->
      MemoryDriver.get k' (MemoryDriver.set k entry m) = MemoryDriver.get k' m
      /\ MemoryDriver.get k' (MemoryDriver.remove k m) = MemoryDriver.get k' m).
Proof.
  unfold MemoryDriver.get, MemoryDriver.set, MemoryDriver.remove.
  split; [apply get_set_eq|]. split; [reflexivity|].
  split; [apply get_delete_eq|].
  intros Hne. split; [destruct entry|];
    try (apply get_set_ne; congruence); apply get_delete_ne; congruence.
Qed.

Lemma memory_driver_round_trips_witness :
  MemoryDriver.get "a" (MemoryDriver.set "b" None [("a", makeEntry 0 VNull None)])
  = MemoryDriver.get "a" [("a", makeEntry 0 VNull None)].
Proof.
  apply (memory_driver_round_trips "b" "a" (makeEntry 0 VNull None) None
           [("a", makeEntry 0 VNull None)]).
  discriminate.
Defined.

Lemma filter_none {A : Type} (f : A -> bool) (l : list A) :
  (forall x, In x l -> f x = false) -> List.filter f l = [].
Proof.
  induction l as [|x l IH]; intros H; cbn [List.filter]; [reflexivity|].
  rewrite (H x) by now left. apply IH. intros y Hy. apply H. now right.
Qed.

Lemma startsWith_empty k : startsWith k "" = true.
Proof. unfold startsWith. now destruct k. Qed.

(** X18: Listing and bulk removal in the memory driver.  [keys(prefix)] lists
    the keys that start with the prefix, every key for an absent or empty
    prefix, in the order of the map.  After [clearPrefix(p)], [keys(p)] is
    empty, a key that starts with [p] has no entry and every other key has
    the entry it had; [clearPrefix] of the empty string empties the map.  After
    [removeMany(ks)], [getMany(ks)] has a [null] entry for every key. *)
Theorem memory_driver_listing_and_bulk_removal
    (prefix : option string) (p : string) (ks : list CacheKey)
    (m : list (CacheKey * CacheEntry)) :
  MemoryDriver.keys prefix m = List.filter (inScope prefix) (JsMap.keysOf m)
  /\ MemoryDriver.keys (Some p) (MemoryDriver.clearPrefix p m) = []
  /\ (forall k, MemoryDriver.get k (MemoryDriver.clearPrefix p m)
                = if startsWith k p then None else MemoryDriver.get k m)
  /\ MemoryDriver.clearPrefix "" m = []
  /\ MemoryDriver.getMany ks (MemoryDriver.removeMany ks m)
     = List.map (fun k => (k, None)) ks.
Proof.
  assert (Hget : forall k, MemoryDriver.get k (MemoryDriver.clearPrefix p m)
                           = if startsWith k p then None else MemoryDriver.get k m).
  { intros k. unfold MemoryDriver.get. rewrite clearPrefix_filter.
    rewrite (get_filter_key (fun k => negb (startsWith k p))).
    now destruct (startsWith k p). }
  split; [|split; [|split; [exact Hget|split]]].
  - unfold MemoryDriver.keys. now rewrite keysLoop_spec.
  - unfold MemoryDriver.keys. rewrite keysLoop_spec. cbn [app].
    rewrite clearPrefix_filter. apply filter_none. intros k Hin.
    apply in_map_iff in Hin as ([k0 e] & <- & Hin). cbn [fst].
    apply List.filter_In in Hin as [_ Hs]. cbn [fst] in Hs.
    apply negb_true_iff in Hs. unfold inScope.
    destruct (String.eqb p "") eqn:Ep; [|exact Hs].
    apply String.eqb_eq in Ep. subst p. now rewrite startsWith_empty in Hs.
  - rewrite clearPrefix_filter. clear Hget.
    induction m as [|[k e] r IH]; [reflexivity|]. cbn [List.filter fst].
    rewrite startsWith_empty. exact IH.
  - unfold MemoryDriver.getMany, MemoryDriver.removeMany.
    apply List.map_ext_in. intros k Hin. f_equal.
    change (fold_left (fun acc k0 => JsMap.delete k0 acc) ks m)
      with (JsMap.deleteAll ks m).
    rewrite deleteAll_filter.
    rewrite (get_filter_key (fun k => negb (existsb (String.eqb k) ks))).
    assert (H : existsb (String.eqb k) ks = true).
    { apply existsb_exists. exists k. split; [exact Hin | apply String.eqb_refl]. }
    now rewrite H.
Qed.

(** ** Listings, nested batches, expiry *)

Lemma afterExpiry_idem now prefix (m : list (CacheKey * CacheEntry)) :
  afterExpiry now prefix (afterExpiry now prefix m) = afterExpiry now prefix m.
Proof.
  unfold afterExpiry. rewrite filter_filter. apply List.filter_ext.
  intros kv. now destruct (negb (expired now prefix kv)).
Qed.

Lemma liveKeys_of_afterExpiry now prefix (m : list (CacheKey * CacheEntry)) :
  liveKeys now prefix (afterExpiry now prefix m) = liveKeys now prefix m.
Proof.
  unfold liveKeys, afterExpiry. rewrite filter_filter. f_equal.
  apply List.filter_ext. intros kv. unfold expired.
  destruct (inScope prefix (fst kv)); [|reflexivity].
  now destruct (Ttl.isAlive now (Some (snd kv))).
Qed.

(** X19: In every state a history reaches, [keys(prefix)] evicts silently: it
    drops from the mirror exactly the entries of the scope that have
    expired, the driver is told so that it follows, and no listener is
    called and no notification queued.  Asking again at the same instant
    returns the same list and drops nothing more. *)
Theorem listing_evicts_silently
    (opts : CreateCacheOptions) (h : list Action) (now : Z)
    (prefix : option string) :
  let st := steps h (createCache opts) in
  let ks := fst (Store.keys now prefix st) in
  let st' := snd (Store.keys now prefix st) in
  mirror st' = afterExpiry now prefix (mirror st)
  /\ DriverFollows st st'
  /\ trace st' = trace st
  /\ pendingKeys st' = pendingKeys st
  /\ listenersPart st' = listenersPart st
  /\ fst (Store.keys now prefix st') = ks
  /\ mirror (snd (Store.keys now prefix st')) = mirror st'.
Proof.
  intros st ks st'. subst ks st'. unfold Store.keys.
  pose proof (steps_klc h _ (createCache_klc opts)) as Hc. fold st in Hc.
  destruct (getCachedKeys_spec now prefix st Hc) as (H1 & H2 & H3 & _).
  destruct (getCachedKeys_frame now prefix st) as (N & L & _).
  pose proof (getCachedKeys_follows now prefix st) as Hf.
  destruct (getCachedKeys_spec now prefix _ H3) as (G1 & G2 & _).
  unfold notifPart in N. injection N as _ N2 _ N4.
  split; [exact H2|]. split; [exact Hf|]. split; [exact N4|].
  split; [exact N2|]. split; [exact L|]. split.
  - now rewrite G1, H2, liveKeys_of_afterExpiry, H1.
  - now rewrite G2, H2, afterExpiry_idem.
Qed.

(** X20: A [batch] called inside a batch defers everything to the outermost
    one: when it returns nothing has been delivered, the depth is what it
    was, and the keys its function queued are still queued. *)
Theorem nested_batch_defers (fn : Prog) (st : State) :
  (0 < batchDepth st)%nat ->
  let st' := fst (batch fn st) in
  trace st' = trace st
  /\ batchDepth st' = batchDepth st
  /\ pendingReadyEmit st' = pendingReadyEmit st
  /\ pendingKeys st' = pendingKeys (fst (run fn (enterBatch st)))
  /\ (List.NoDup (pendingKeys st) -> List.NoDup (pendingKeys st')).
Proof.
  intros Hd st'. subst st'. unfold batch.
  pose proof (run_SyncStep fn (enterBatch st)) as ((D & Q) & _).
  destruct (run fn (enterBatch st)) as [st1 c]. cbn [fst] in *.
  destruct Q as (T & R & K); [cbn; lia|].
  cbn [enterBatch batchDepth with_batchDepth] in D.
  rewrite batchFinally_inner by lia.
  cbn [trace batchDepth pendingReadyEmit pendingKeys with_batchDepth].
  rewrite D. repeat split; auto.
Qed.

Lemma nested_batch_defers_witness :
  let st := enterBatch (emptyState (Build_CacheDriver false false false) true) in
  trace (fst (batch (PCall 0 (CSet "a" (VNum 1) None) (fun _ => PRet)) st))
  = trace st.
Proof.
  intros st.
  apply (nested_batch_defers (PCall 0 (CSet "a" (VNum 1) None) (fun _ => PRet)) st).
  cbn. lia.
Defined.

Lemma isAlive_antitone now now' e :
  now <= now' -> Ttl.isAlive now e = false -> Ttl.isAlive now' e = false.
Proof.
  unfold Ttl.isAlive. destruct e as [e|]; [|reflexivity].
  destruct (ttlMs e) as [t|]; [|discriminate].
  destruct (t =? 0); [discriminate|].
  intros Hle H. apply Z.ltb_ge in H. apply Z.ltb_ge. lia.
Qed.

(** X21: Expiry is for good.  Once [has(key)] has answered false, it answers
    false at every later instant, with or without the eviction that the
    first call made, until the key is written again; and when the key had
    expired, that first call has removed it, so that the answer no longer
    depends on the clock at all. *)
Theorem has_never_turns_true_by_itself
    (now now' : Z) (key : CacheKey) (st : State) :
  fst (Store.has now key st) = false ->
  (now <= now' -> fst (Store.has now' key st) = false)
  /\ JsMap.get key (mirror (snd (Store.has now key st))) = None
  /\ fst (Store.has now' key (snd (Store.has now key st))) = false
  /\ fst (Store.get now' key (snd (Store.has now key st))) = VUndefined.
Proof.
  unfold Store.has, Store.get.
  pose proof (getEntry_cases now key st) as Hc.
  pose proof (getEntry_cases now' key st) as Hc'.
  destruct (JsMap.get key (mirror st)) as [e|] eqn:Hg.
  - destruct (Ttl.isAlive now (Some e)) eqn:Ha; rewrite Hc; cbn [fst snd];
      [discriminate|].
    intros _. destruct (dropKey_data key st) as (Hm & _).
    assert (Hn : JsMap.get key (mirror (dropKey key st)) = None).
    { rewrite Hm. apply get_delete_eq. }
    split; [|split; [exact Hn|]].
    + intros Hle. rewrite (isAlive_antitone now now' (Some e) Hle Ha) in Hc'.
      now rewrite Hc'.
    + unfold getEntry. now rewrite Hn.
  - rewrite Hc, Hc'. cbn [fst snd]. intros _.
    split; [reflexivity|]. split; [exact Hg|].
    unfold getEntry. now rewrite Hg.
Qed.

Lemma has_never_turns_true_by_itself_witness :
  let st := Store.set 0 "k" (VNum 1) (Some 10)
              (emptyState (Build_CacheDriver false false false) true) in
  fst (Store.has 99 "k" (snd (Store.has 10 "k" st))) = false.
Proof.
  intros st.
  apply (has_never_turns_true_by_itself 10 99 "k" st). reflexivity.
Defined.

(** ** Cross-tab notification *)

Lemma onMsg_cases ns data st :
  Broadcast.onMsg ns data st = st
  \/ exists k, Broadcast.onMsg ns data st = Store.emit k st.
Proof.
  unfold Broadcast.onMsg. destruct data as [[t n k]|]; [|now left].
  cbn [Broadcast.msg_t Broadcast.msg_ns Broadcast.msg_k].
  destruct (negb (Broadcast.isString t "cache:emit")); [now left|].
  destruct (negb (Broadcast.isString (Broadcast.orEmpty n) ns)); [now left|].
  destruct k as [| | | |k]; try now left.
  right. now exists k.
Qed.

(** X22: What a message does to the tab that receives it.  The message that a
    wrapped [set], [update] or [remove] of [key] posts in a tab of namespace
    [ns] makes a tab of the same namespace run [emit(key)], which outside a
    batch calls the listeners of [key] there; a tab of another namespace
    ignores it.  Whatever the message, well formed or not, receiving it
    never writes: the mirror, the cached key lists and the calls made on the
    driver of the receiving tab stay as they were, and so do its in-flight
    fetches and its readiness. *)
Theorem broadcast_notifies_without_writing
    (ns ns' : string) (now : Z) (key : CacheKey) (v : JsValue)
    (updater : JsValue -> JsValue) (ttl : option Z)
    (sender : State * list Broadcast.Message) (data : option Broadcast.Message)
    (st : State) :
  let posts tab' := snd tab' = snd sender ++ [Broadcast.published ns key] in
  posts (Broadcast.set ns now key v ttl sender)
  /\ posts (snd (Broadcast.update ns now key updater ttl sender))
  /\ posts (Broadcast.remove ns key sender)
  /\ Broadcast.onMsg ns' (Some (Broadcast.published ns key)) st
     = (if String.eqb ns ns' then Store.emit key st else st)
  /\ (batchDepth st = 0%nat ->
      deliveredSince st (Broadcast.onMsg ns (Some (Broadcast.published ns key)) st)
      = Notify key :: listenerCalls key st)
  /\ dataPart (Broadcast.onMsg ns' data st) = dataPart st
  /\ asyncPart (Broadcast.onMsg ns' data st) = asyncPart st
  /\ readyPart (Broadcast.onMsg ns' data st) = readyPart st.
Proof.
  cbv zeta. split; [reflexivity|]. split.
  { unfold Broadcast.update.
    now destruct (StoreMore.update now key updater ttl (fst sender)). }
  split; [reflexivity|]. split.
  { unfold Broadcast.onMsg, Broadcast.published.
    cbn [Broadcast.msg_t Broadcast.msg_ns Broadcast.msg_k Broadcast.isString
         Broadcast.orEmpty].
    rewrite String.eqb_refl. cbn [negb].
    now destruct (String.eqb ns ns'). }
  split.
  { intros Hd. apply deliveredSince_app.
    unfold Broadcast.onMsg, Broadcast.published.
    cbn [Broadcast.msg_t Broadcast.msg_ns Broadcast.msg_k Broadcast.isString
         Broadcast.orEmpty].
    rewrite !String.eqb_refl. cbn [negb].
    unfold Store.emit, queueEmitKey. rewrite Hd. reflexivity. }
  destruct (onMsg_cases ns' data st) as [-> | (k & ->)];
    [repeat split|].
  unfold Store.emit. destruct (queueEmitKey_frame k st) as (H1 & _ & H3 & H4 & _).
  auto.
Qed.

(** ** Forced refresh; the empty prefix *)

(** X23: A forced refresh is stale-while-revalidate.  With nothing in flight for
    the key, a call with [force] calls its fetcher even when a value is
    cached, and does not touch the data: until the fetcher's promise
    settles every read answers as before.  If the promise is rejected the
    caller gets the error, the data is still untouched and the in-flight
    entry is gone; if it is fulfilled with [v] under an absent or positive
    [ttlMs], the entry of the key becomes [v], created at that instant. *)
Theorem forced_refresh_keeps_the_old_value
    (opts : CreateCacheOptions) (h : list Action) (key : CacheKey)
    (t1 t2 : Z) (f : Fetcher) (ttl : option Z) (v err : JsValue) :
  let st := steps h (createCache opts) in
  JsMap.get key (inFlight st) = None ->
  let call := getOrSetAsync t1 key f ReturnsPromise
                            {| optTtlMs := ttl; force := true |} st in
  let failed := fetchSettles t2 (nextPromise st) (Rejected err) (snd call) in
  let done := fetchSettles t2 (nextPromise st) (Fulfilled v) (snd call) in
  fetcherCalls (snd call) = fetcherCalls st ++ [f]
  /\ dataPart (snd call) = dataPart st
  /\ (forall now k, fst (Store.get now k (snd call)) = fst (Store.get now k st))
  /\ callerOutcome (fst call) failed = Some (Rejected err)
  /\ dataPart failed = dataPart st
  /\ JsMap.get key (inFlight failed) = None
  /\ callerOutcome (fst call) done = Some (Fulfilled v)
  /\ (match ttl with None => True | Some T => 0 < T end ->
      JsMap.get key (mirror done) = Some (makeEntry t2 v ttl)).
Proof.
  intros st Hin call failed done.
  pose proof (steps_fresh h _ (createCache_fresh opts)) as [Hfa Hfs].
  fold st in Hfa, Hfs.
  destruct (getOrSetAsync_starts t1 key f ttl true st Hin (or_introl eq_refl))
    as (C1 & C2 & _ & C4 & C5 & C6 & C7 & _).
  fold call in C1, C2, C4, C5, C6, C7. cbv zeta in C7.
  set (task := {| taskPromise := nextPromise st; taskKey := key; taskTtl := ttl |})
    in *.
  assert (Hfind : findTask (nextPromise st) (awaiting (snd call)) = Some task).
  { rewrite C4. now apply findTask_fresh. }
  destruct (fetchSettles_effect t2 (nextPromise st) (Rejected err) task (snd call)
              Hfind) as (R1 & R2 & _ & _ & _ & R6 & _).
  destruct (fetchSettles_effect t2 (nextPromise st) (Fulfilled v) task (snd call)
              Hfind) as (_ & F2 & _ & _ & _ & F6).
  fold failed in R1, R2, R6. fold done in F2, F6.
  cbn [taskKey taskTtl task] in R1, F6.
  split; [exact C6|]. split; [exact C7|]. split; [|split; [|split; [|split; [|split]]]].
  - intros now k. rewrite !get_value.
    apply (f_equal (fun d => fst (fst (fst d)))) in C7. unfold dataPart in C7.
    cbn [fst] in C7. now rewrite C7.
  - rewrite C1. cbn [callerOutcome]. rewrite R2, C5. now apply settlementOf_fresh.
  - now rewrite R6.
  - rewrite R1. apply get_delete_eq.
  - rewrite C1. cbn [callerOutcome]. rewrite F2, C5. now apply settlementOf_fresh.
  - intros Httl.
    apply (f_equal (fun d => fst (fst (fst d)))) in F6. unfold dataPart in F6.
    cbn [fst] in F6. rewrite F6. unfold Store.set.
    destruct (setInternal_data key (Some (makeEntry t2 v ttl)) (snd call)) as [-> _].
    assert (Hnp : nonPositiveTtl (makeEntry t2 v ttl) = false).
    { unfold nonPositiveTtl, makeEntry. cbn [ttlMs].
      destruct ttl as [T|]; [|reflexivity]. apply Z.leb_gt. lia. }
    rewrite Hnp. apply get_set_eq.
Qed.

Lemma forced_refresh_keeps_the_old_value_witness :
  let opts := {| opt_driver := Build_CacheDriver false false false;
                 opt_hydrate := Some false;
                 opt_cleanupExpiredOnHydrate := None |} in
  let h := [ASync (PCall 0 (CSet "k" (VNum 1) None) (fun _ => PRet))] in
  let st := steps h (createCache opts) in
  let call := getOrSetAsync 5 "k" 1%nat ReturnsPromise
                            {| optTtlMs := None; force := true |} st in
  fetcherCalls (snd call) = fetcherCalls st ++ [1%nat].
Proof.
  intros opts h st call.
  apply (forced_refresh_keeps_the_old_value opts h "k" 5 6 1%nat None VNull VNull).
  reflexivity.
Defined.

(** X24: The empty prefix means everything.  [keys] of the empty string is
    [keys()] and [clear] of the empty string is [clear()], because an empty
    string is falsy; and a listener subscribed with [subscribePrefix] to the
    empty string is called for every key that is set or removed outside a
    batch, because every key starts with the empty string. *)
Theorem empty_prefix_is_everything
    (now : Z) (key : CacheKey) (v : JsValue) (ttl : option Z) (cb : Listener)
    (st : State) :
  Store.keys now (Some "") st = Store.keys now None st
  /\ Store.clear now (Some "") st = Store.clear now None st
  /\ (batchDepth st = 0%nat ->
      let st1 := Store.subscribePrefix "" cb st in
      In (Call cb (Some key)) (deliveredSince st1 (Store.set now key v ttl st1))
      /\ In (Call cb (Some key)) (deliveredSince st1 (Store.remove key st1))).
Proof.
  split; [reflexivity|]. split; [reflexivity|].
  intros Hd st1.
  assert (Hd1 : batchDepth st1 = 0%nat) by exact Hd.
  assert (Hin : In (Call cb (Some key)) (listenerCalls key st1)).
  { apply In_listenerCalls. right. split; [reflexivity|]. left.
    exists "", (JsSet.add Nat.eqb cb (Store.listenersOf "" (prefixListeners st))).
    split; [|split; [apply startsWith_empty | apply JsSet_add_In]].
    subst st1. unfold Store.subscribePrefix.
    cbn [prefixListeners with_prefixListeners].
    apply get_Some_In, get_set_eq. }
  unfold Store.set, Store.remove.
  rewrite !(deliveredSince_app st1 _ _ (setInternal_trace key _ st1 Hd1)).
  split; right; exact Hin.
Qed.
